(** * sgraham/hack: the BK-tree fuzzy index (bktree/bktree.cc) and the
      Hough corner finder (cv/find_corners.c)

    A shallow embedding of the two programs and the theorems that settle
    the claims C1..C10 of the specification, followed by further properties
    of the code (X1..X30): of the two distance functions, of the tree, of
    [read_words], [dump_dot] and [main], and of the stages of the corner
    finder.

    Conventions of the embedding.
    - A C/C++ [int] is a [Z] kept in the 32-bit two's-complement range; every
      [+] and [-] of the source on an [int] goes through [Int32.add] and
      [Int32.sub], which write out the wrap-around the usual targets perform
      on overflow.  [unsigned] arithmetic is taken modulo [2 ^ 32].
    - A [std::string] is a [string]; [s[i]] is [char_at s i].
    - The variable-length array [int row[n + 1]] is a [list Z].  Its cells are
      not initialised by the source; the value a never-written cell holds is
      the parameter [u] of the functions that allocate it.
    - [std::map<int, unique_ptr<BkTree>>] is an association list kept in
      strictly increasing key order, which is the order the map iterates in.
    - An access outside an allocated block and an iterator moved past [end()]
      have no defined result: the functions that can run into one return an
      [option], and [None] stands for it.
    - Single-precision arithmetic is not modelled: the [float] expressions of
      find_corners.c are parameters of the embedding.
    - What [main] takes from its environment is a parameter too: [atoi], the
      content of the files, the readings of the clock.  [cout] and [cerr] are
      the lists of the lines written to them. *)

From Stdlib Require Import ZArith List String Ascii Bool Lia Sorted Permutation Reals Lra.
From Stdlib Require Import DecimalString.
From stdpp Require Import base list strings.
Import ListNotations.
Open Scope Z_scope.

(** ** Machine integers *)

Module Int32.

Definition modulus : Z := 2 ^ 32.
Definition max_int : Z := 2 ^ 31 - 1.
Definition min_int : Z := - 2 ^ 31.

(** Reduction of a mathematical integer to the representable range. *)
Definition wrap (z : Z) : Z := (z + 2 ^ 31) mod modulus - 2 ^ 31.

Definition add (a b : Z) : Z := wrap (a + b).
Definition sub (a b : Z) : Z := wrap (a - b).

(** [int m = s.size()]: conversion of a [size_t] to [int]. *)
Definition of_size (n : nat) : Z := wrap (Z.of_nat n).

Definition in_range (z : Z) : Prop := min_int <= z <= max_int.

End Int32.

(** ** Counted loops

    [for_range lo hi body s] is [for (int i = lo; i <= hi; ++i) s = body i s]. *)

Fixpoint for_loop {S : Type} (i : Z) (cnt : nat) (body : Z -> S -> S) (s : S) : S :=
  match cnt with
  | O => s
  | Datatypes.S c => for_loop (i + 1) c body (body i s)
  end.

Definition for_range {S : Type} (lo hi : Z) (body : Z -> S -> S) (s : S) : S :=
  for_loop lo (Z.to_nat (hi + 1 - lo)) body s.

(** ** Strings and the DP row *)

Definition size (s : string) : Z := Int32.of_size (String.length s).

Definition char_at (s : string) (i : Z) : ascii :=
  nth (Z.to_nat i) (list_ascii_of_string s) Ascii.zero.

Definition row_get (row : list Z) (i : Z) : Z := nth (Z.to_nat i) row 0.

Definition row_set (row : list Z) (i : Z) (v : Z) : list Z :=
  <[Z.to_nat i := v]> row.

(** [int row[len]]: [len] cells, none of them written yet. *)
Definition alloc_row (u : Z) (len : Z) : list Z := replicate (Z.to_nat len) u.

(** [s1[y - 1] == s2[x - 1] ? 0 : 1] *)
Definition subst_cost (s1 s2 : string) (y x : Z) : Z :=
  if Ascii.eqb (char_at s1 (y - 1)) (char_at s2 (x - 1)) then 0 else 1.

(** One step of the inner loop, on the pair (row, previous):
<<
      int old_row = row[x];
      row[x] = min(previous + (s1[y - 1] == s2[x - 1] ? 0 : 1),
                   min(row[x - 1], row[x]) + 1);
      previous = old_row;
>> *)
Definition cell_step (s1 s2 : string) (y x : Z) (st : list Z * Z) : list Z * Z :=
  let '(row, previous) := st in
  let old_row := row_get row x in
  let v := Z.min (Int32.add previous (subst_cost s1 s2 y x))
                 (Int32.add (Z.min (row_get row (x - 1)) (row_get row x)) 1) in
  (row_set row x v, old_row).

(** The first loop of both distance functions: [row[i] = i] for [1 <= i <= n]. *)
Definition init_row (u : Z) (n : Z) : list Z :=
  for_range 1 n (fun i row => row_set row i i) (alloc_row u (Int32.add n 1)).

(** ** edit_distance (bktree.cc, lines 24-42) *)

Definition row_step (s1 s2 : string) (n : Z) (y : Z) (row : list Z) : list Z :=
  fst (for_range 1 n (cell_step s1 s2 y) (row_set row 0 y, Int32.sub y 1)).

Definition edit_distance (u : Z) (s1 s2 : string) : Z :=
  let m := size s1 in
  let n := size s2 in
  row_get (for_range 1 m (row_step s1 s2 n) (init_row u n)) n.

(** ** edit_distance_bound (bktree.cc, lines 45-66)

    The inner loop also tracks [best_this_row]; the outer loop leaves early. *)

Definition cell_step_best (s1 s2 : string) (y x : Z) (st : list Z * Z * Z)
  : list Z * Z * Z :=
  let '(row, previous, best_this_row) := st in
  let '(row', previous') := cell_step s1 s2 y x (row, previous) in
  (row', previous', Z.min best_this_row (row_get row' x)).

Definition row_step_best (s1 s2 : string) (n : Z) (y : Z) (row : list Z)
  : list Z * Z :=
  let '(row', _, best) :=
    for_range 1 n (cell_step_best s1 s2 y) (row_set row 0 y, Int32.sub y 1, y) in
  (row', best).

Fixpoint bound_rows (s1 s2 : string) (n upper_bound : Z)
    (y : Z) (cnt : nat) (row : list Z) : Z :=
  match cnt with
  | O => row_get row n
  | Datatypes.S c =>
      let '(row', best_this_row) := row_step_best s1 s2 n y row in
      if best_this_row >? upper_bound
      then Int32.add upper_bound 1
      else bound_rows s1 s2 n upper_bound (y + 1) c row'
  end.

Definition edit_distance_bound (u : Z) (s1 s2 : string) (upper_bound : Z) : Z :=
  let m := size s1 in
  let n := size s2 in
  bound_rows s1 s2 n upper_bound 1 (Z.to_nat m) (init_row u n).

(** ** BkTree (bktree.cc, lines 76-121) *)

#[local] Set Warnings "-register-all".

Inductive BkTree : Type :=
| Node (value : string) (children : list (Z * BkTree)).

Definition value (t : BkTree) : string := let 'Node v _ := t in v.
Definition children (t : BkTree) : list (Z * BkTree) := let 'Node _ cs := t in cs.

(** [BkTree(const string* value)] *)
Definition leaf (w : string) : BkTree := Node w [].

(** [children.find(d)] *)
Fixpoint find (d : Z) (cs : list (Z * BkTree)) : option BkTree :=
  match cs with
  | [] => None
  | (k, c) :: cs' => if d =? k then Some c else find d cs'
  end.

(** [children.lower_bound(k)] and [children.upper_bound(k)], as positions:
    the index of the first entry whose key is not less than, respectively
    greater than, [k] (the length of the list when there is none). *)
Fixpoint lower_bound (k : Z) (cs : list (Z * BkTree)) : nat :=
  match cs with
  | [] => O
  | (k', _) :: cs' => if k' <? k then Datatypes.S (lower_bound k cs') else O
  end.

Fixpoint upper_bound (k : Z) (cs : list (Z * BkTree)) : nat :=
  match cs with
  | [] => O
  | (k', _) :: cs' => if k' <=? k then Datatypes.S (upper_bound k cs') else O
  end.

Section Tree.

(** The content of a never-written [row[0]] (see [alloc_row]). *)
Variable u : Z.

(** [insert]: the map is searched for [d]; when the key is absent a fresh
    node is stored under it (at its place in key order), otherwise the
    insertion goes on in the child found.  The keys increase along the list,
    so the search ends at the first key that is not below [d]. *)
Fixpoint insert (t : BkTree) (word : string) : BkTree :=
  match t with
  | Node v cs =>
      let d := edit_distance u v word in
      Node v
        ((fix go (l : list (Z * BkTree)) : list (Z * BkTree) :=
            match l with
            | [] => [(d, leaf word)]
            | (k, c) :: l' =>
                if d =? k then (k, insert c word) :: l'
                else if d <? k then (d, leaf word) :: l
                else (k, c) :: go l'
            end) cs)
  end.

(** The state [query] threads: the lines written to stdout so far (oldest
    first) and the visit counter [*count]. *)
Definition QState : Type := list string * Z.

(** [query].  The loop runs an iterator from [lower_bound(d - n)] up to
    [upper_bound(d + n)]; when the start lies behind the end the iterator
    walks off [children.end()], which is the [None] result. *)
Fixpoint query (t : BkTree) (word : string) (n : Z) (st : QState) : option QState :=
  match t with
  | Node v cs =>
      let '(out, count) := st in
      let count := Int32.add count 1 in
      let d := edit_distance u v word in
      let out := if d <=? n then out ++ [v] else out in
      let it := lower_bound (Int32.sub d n) cs in
      let e := upper_bound (Int32.add d n) cs in
      if (e <? it)%nat then None
      else
        (fix visit (i : nat) (l : list (Z * BkTree)) (st : QState) : option QState :=
           match l with
           | [] => Some st
           | (_, c) :: l' =>
               if (it <=? i)%nat && (i <? e)%nat
               then match query c word n st with
                    | Some st' => visit (Datatypes.S i) l' st'
                    | None => None
                    end
               else visit (Datatypes.S i) l' st
           end) O cs (out, count)
  end.

(** [depth] *)
Fixpoint depth (t : BkTree) : Z :=
  match t with
  | Node _ cs =>
      Int32.add
        ((fix go (l : list (Z * BkTree)) (d : Z) : Z :=
            match l with
            | [] => d
            | (_, c) :: l' => go l' (Z.max d (depth c))
            end) cs 0) 1
  end.

(** The index of [main]: a root for [words[0]], then the other words inserted
    in order.  An empty word list makes [main] exit before building. *)
Definition build (words : list string) : option BkTree :=
  match words with
  | [] => None
  | w0 :: ws => Some (fold_left insert ws (leaf w0))
  end.

(** The lines the indexed query of [main] prints for the matches. *)
Definition indexed_query (words : list string) (q : string) (n : Z)
  : option (list string) :=
  match build words with
  | None => None
  | Some index =>
      match query index q n ([], 0) with
      | Some (out, _) => Some out
      | None => None
      end
  end.

(** The brute-force branch of [main] (lines 187-190). *)
Definition brute_force (words : list string) (q : string) (n : Z) : list string :=
  List.filter (fun word => edit_distance_bound u word q n <=? n) words.

End Tree.

(** ** The Levenshtein distance

    The reference the distance functions are compared with: the glossary's
    "minimum number of single-symbol insertions, deletions, or substitutions
    to transform one sequence into another". *)

Module Levenshtein.
#[local] Open Scope nat_scope.

Definition cost (a b : ascii) : nat := if Ascii.eqb a b then 0 else 1.

(** A way to turn [s] into [t] with [n] single-symbol deletions, insertions
    and substitutions. *)
Inductive edit : list ascii -> list ascii -> nat -> Prop :=
| edit_nil : edit [] [] 0
| edit_del a s t n : edit s t n -> edit (a :: s) t (S n)
| edit_ins b s t n : edit s t n -> edit s (b :: t) (S n)
| edit_sub a b s t n : edit s t n -> edit (a :: s) (b :: t) (n + cost a b).

(** The least such number, by the usual recursion on the two heads. *)
Fixpoint lev (s t : list ascii) : nat :=
  match s with
  | [] => length t
  | a :: s' =>
      (fix lev_s (t : list ascii) : nat :=
         match t with
         | [] => length s
         | b :: t' =>
             Nat.min (lev s' t' + cost a b) (Nat.min (lev s' t) (lev_s t') + 1)
         end) t
  end.

End Levenshtein.

(** The distance of two [std::string]s. *)
Definition chars (s : string) : list ascii := list_ascii_of_string s.

Definition distance (s t : string) : Z :=
  Z.of_nat (Levenshtein.lev (chars s) (chars t)).

(** ** Well-formed inputs and trees *)

(** Two strings whose lengths, summed, leave room for one more in an [int]:
    every entry of the table of [edit_distance] is then an [int]. *)
Definition fits (s t : string) : Prop :=
  Z.of_nat (String.length s) + Z.of_nat (String.length t) < Int32.max_int.

(** The words a tree holds: its pivot and those of its subtrees. *)
Fixpoint pivots (t : BkTree) : list string :=
  match t with
  | Node v cs =>
      v :: (fix go (l : list (Z * BkTree)) : list string :=
              match l with
              | [] => []
              | (_, c) :: l' => pivots c ++ go l'
              end) cs
  end.

(** The invariant of a BK-tree: the keys of a node's map increase strictly,
    and every word below the edge labelled [k] of a node with pivot [v] is at
    distance [k] from [v]. *)
Inductive wf : BkTree -> Prop :=
| wf_node v cs :
    StronglySorted (fun a b : Z * BkTree => fst a < fst b) cs ->
    Forall (fun kc => wf (snd kc) /\
                      forall w, In w (pivots (snd kc)) -> distance v w = fst kc) cs ->
    wf (Node v cs).

(** What the specification asks of the edges (C6): the label of an edge is
    the distance of the two pivots it joins, and no label occurs twice under
    one node. *)
Inductive edges_ok : BkTree -> Prop :=
| edges_node v cs :
    NoDup (map fst cs) ->
    Forall (fun kc => edges_ok (snd kc) /\ distance v (value (snd kc)) = fst kc) cs ->
    edges_ok (Node v cs).

(** A pair of strings [edit_distance] handles: not both empty (the result
    would be read from [row[0]], which no statement has written), and short
    enough. *)
Definition callable (s t : string) : Prop :=
  (s <> EmptyString \/ t <> EmptyString) /\ fits s t.

(** A word list [main] can index: every word is [callable] with every later
    one.  Lists of short distinct words are of this kind, and so are the
    lists [read_words] yields, which hold no empty word. *)
Definition dictionary_ok (words : list string) : Prop :=
  ForallOrdPairs callable words.

(** A query [main] can run on the word list: the query word is [callable]
    with every word, with room for adding the radius to a distance. *)
Definition query_ok_for (words : list string) (q : string) (n : Z) : Prop :=
  forall w, In w words ->
    (w <> EmptyString \/ q <> EmptyString) /\
    Z.of_nat (String.length w) + Z.of_nat (String.length q) + n < Int32.max_int.

(** ** Invariants of the two-row program *)

(** The table of the dynamic program: entry [(y, x)] is the distance of the
    first [y] symbols of [s1] to the first [x] symbols of [s2]. *)
Definition dp_table (s1 s2 : string) (y x : Z) : Z :=
  Z.of_nat (Levenshtein.lev (take (Z.to_nat y) (chars s1))
                            (take (Z.to_nat x) (chars s2))).

(** The row between two rounds of the outer loop ([n] is the length of
    [s2]): the cells hold row [y] of the table; cell 0 is only written from
    the first round on. *)
Definition dp_row_ok (s1 s2 : string) (n : Z) (y : Z) (row : list Z) : Prop :=
  Z.of_nat (length row) = n + 1 /\
  forall x, 0 <= x <= n -> 0 < x \/ 0 < y -> row_get row x = dp_table s1 s2 y x.

(** The inner loop at counter [x] of round [y]. *)
Definition dp_cells_ok (s1 s2 : string) (n : Z) (y x : Z) (st : list Z * Z) : Prop :=
  let '(row, previous) := st in
  Z.of_nat (length row) = n + 1 /\
  row_get row 0 = y /\
  (forall j, 1 <= j < x -> row_get row j = dp_table s1 s2 y j) /\
  (forall j, x <= j <= n -> row_get row j = dp_table s1 s2 (y - 1) j) /\
  previous = dp_table s1 s2 (y - 1) (x - 1).

(** [b] is below every entry of row [y]. *)
Definition dp_below_row (s1 s2 : string) (n : Z) (y b : Z) : Prop :=
  forall x, 0 <= x <= n -> b <= dp_table s1 s2 y x.

(** ** The steps of [insert] and [query] at one node *)

(** The update [insert] makes to the map of a node, for the key [d]. *)
Definition insert_into (u : Z) (d : Z) (word : string)
  : list (Z * BkTree) -> list (Z * BkTree) :=
  fix go (l : list (Z * BkTree)) : list (Z * BkTree) :=
    match l with
    | [] => [(d, leaf word)]
    | (k, c) :: l' =>
        if d =? k then (k, insert u c word) :: l'
        else if d <? k then (d, leaf word) :: l
        else (k, c) :: go l'
    end.

(** The loop of [query] over the map of a node. *)
Definition visit_children (u : Z) (word : string) (n : Z) (it e : nat)
  : nat -> list (Z * BkTree) -> QState -> option QState :=
  fix visit (i : nat) (l : list (Z * BkTree)) (st : QState) : option QState :=
    match l with
    | [] => Some st
    | (_, c) :: l' =>
        if (it <=? i)%nat && (i <? e)%nat
        then match query u c word n st with
             | Some st' => visit (Datatypes.S i) l' st'
             | None => None
             end
        else visit (Datatypes.S i) l' st
    end.

(** What a call of [query] on [t] does to the state: it appends the words of
    [t] within [n] of [q]. *)
Definition query_appends (u : Z) (q : string) (n : Z) (t : BkTree) : Prop :=
  forall out count, exists out' count',
    query u t q n (out, count) = Some (out ++ out', count') /\
    forall x, In x out' <-> In x (pivots t) /\ distance x q <= n.

(** The scenario of the specification. *)
Definition sample_words : list string :=
  ["book"; "books"; "boo"; "boon"; "cook"; "cake"; "cape"; "cart"].

(** ** find_corners.c *)

Module Corners.

Definition kNumAngles : Z := 360.

Definition imin (a b : Z) : Z := if a <? b then a else b.
Definition imax (a b : Z) : Z := if a >? b then a else b.

(** The accumulator [unsigned* houghmap]: a list of cells, each below
    [2 ^ 32].  An access outside the allocated block has no defined result:
    it is [None]. *)
Definition cell_read (m : list Z) (i : Z) : option Z :=
  if 0 <=? i then m !! Z.to_nat i else None.

Definition cell_write (m : list Z) (i : Z) (v : Z) : option (list Z) :=
  if (0 <=? i) && (i <? Z.of_nat (length m))
  then Some (<[Z.to_nat i := v]> m) else None.

(** Modelled from the spec: [graymap_t], whose declaration (graymap.h) is not
    among the sources: "width W, height H, and W*H byte-valued samples in
    row-major order".  The fields [w] and [h] are taken to be [int]s, the type
    find_corners.c gives them in [alloc_graymap(int w, int h)] and in
    [const int kNumRadii = graymap->h]. *)
Record graymap : Type := Graymap { gw : Z; gh : Z; gdata : list Z }.

(** [graymap->data[y*graymap->w + x]] *)
Definition sample (g : graymap) (x y : Z) : option Z :=
  cell_read (gdata g) (Int32.add (Int32.wrap (y * gw g)) x).

(** [calloc(kNumRadii * kNumAngles, sizeof(unsigned))] *)
Definition calloc_map (kNumRadii : Z) : list Z :=
  replicate (Z.to_nat (Int32.wrap (kNumRadii * kNumAngles))) 0.

(** *** The voting loops (lines 43-55) *)

(** [graymap->w*graymap->w + graymap->h*graymap->h]: the [int] whose square
    root is [kMaxRadius]. *)
Definition max_radius_square (g : graymap) : Z :=
  Int32.add (Int32.wrap (gw g * gw g)) (Int32.wrap (gh g * gh g)).

Section Hough.

(** The radius bin of a vote is single-precision arithmetic, which the
    embedding takes as a function: [radius_index s kr x y a] stands for
    [(unsigned)(fabs(kCos[a]*x + kSin[a]*y) * kr / kMaxRadius)] where
    [kMaxRadius = sqrt(s)] and [kr = kNumRadii - 1]. *)
Variable radius_index : Z -> Z -> Z -> Z -> Z -> Z.

Definition radius_bin (g : graymap) (x y a : Z) : Z :=
  radius_index (max_radius_square g) (Int32.sub (gh g) 1) x y a.

(** [houghmap[ri*kNumAngles + a]++] on [unsigned] operands. *)
Definition vote (g : graymap) (x y a : Z) (m : list Z) : option (list Z) :=
  let ri := radius_bin g x y a in
  let idx := (ri * kNumAngles + a) mod 2 ^ 32 in
  match cell_read m idx with
  | Some v => cell_write m idx ((v + 1) mod 2 ^ 32)
  | None => None
  end.

Definition vote_pixel (g : graymap) (y x : Z) (st : option (list Z))
  : option (list Z) :=
  match st with
  | None => None
  | Some m =>
      match sample g x y with
      | None => None
      | Some p =>
          if p =? 255 then Some m
          else for_range 0 (kNumAngles - 1)
                 (fun a st => match st with Some m => vote g x y a m | None => None end)
                 (Some m)
      end
  end.

Definition accumulate (g : graymap) : option (list Z) :=
  for_range 0 (gh g - 1)
    (fun y st => for_range 0 (gw g - 1) (vote_pixel g y) st)
    (Some (calloc_map (gh g))).

End Hough.

(** The number of foreground samples of an image. *)
Definition foreground (g : graymap) : Z :=
  Z.of_nat (length (List.filter (fun p => negb (p =? 255)) (gdata g))).

(** The sum of the cells of angle bin [a] over the radius bins [0 .. R-1]. *)
Definition column_sum (m : list Z) (R a : Z) : Z :=
  for_range 0 (R - 1) (fun ri acc => acc + nth (Z.to_nat (ri * kNumAngles + a)) m 0) 0.

(** *** Non-maximum suppression around a seed (lines 82-96) *)

Definition k : Z := 31.

(** The wrapped angle index [aii] of the source. *)
Definition wrap_angle (ad : Z) : Z := if ad <? 0 then Int32.add ad kNumAngles else ad.

(** The state of the sweep: the map and [best], [besta], [bestr]. *)
Definition Sweep : Type := list Z * (Z * Z * Z).

Definition sweep_cell (rd ad : Z) (st : option Sweep) : option Sweep :=
  match st with
  | None => None
  | Some (m, (best, besta, bestr)) =>
      let aii := wrap_angle ad in
      let idx := Int32.add (Int32.wrap (rd * kNumAngles)) aii in
      match cell_read m idx with
      | None => None
      | Some v =>
          let b := if v >? best then (v, aii, rd) else (best, besta, bestr) in
          match cell_write m idx 0 with
          | None => None
          | Some m' => Some (m', b)
          end
      end
  end.

Definition nms_sweep (kNumRadii ri ai : Z) (m : list Z) : option Sweep :=
  match cell_read m (Int32.add (Int32.wrap (ri * kNumAngles)) ai) with
  | None => None
  | Some seed =>
      for_range (imax (Int32.sub ri (k / 2)) 0)
                (imin (Int32.add ri (k / 2)) (Int32.sub kNumRadii 1))
        (fun rd st =>
           for_range (Int32.sub ai (k / 2)) (Int32.add ai (k / 2))
             (sweep_cell rd) st)
        (Some (m, (seed, ai, ri)))
  end.

(** The cells [(rd, aii)] the sweep around [(ri, ai)] touches, in order. *)
Definition window_cells (kNumRadii ri ai : Z) : list (Z * Z) :=
  for_range (imax (Int32.sub ri (k / 2)) 0)
            (imin (Int32.add ri (k / 2)) (Int32.sub kNumRadii 1))
    (fun rd acc =>
       for_range (Int32.sub ai (k / 2)) (Int32.add ai (k / 2))
         (fun ad acc => acc ++ [(rd, wrap_angle ad)]) acc)
    [].

(** *** Line pairing (lines 102-128)

    [deg] and [radius] are [float]s; the pairing only compares them, so the
    embedding is over any type [F] with the two tests of the source. *)

Section LinePair.

Variable F : Type.
(** [fabs(a - b) < 10 * M_PI / 180] *)
Variable near : F -> F -> bool.
(** [a > b] *)
Variable fgt : F -> F -> bool.

(** [float lines[4][2]] with [bool line_set[2]]; a line is [(deg, radius)]. *)
Record LineSet : Type := MkLineSet {
  line0 : F * F; line1 : F * F; line2 : F * F; line3 : F * F;
  set0 : bool; set1 : bool
}.

Definition line_pair (st : LineSet) (deg radius : F) : LineSet :=
  if negb (set0 st) then
    MkLineSet (deg, radius) (deg, radius) (line2 st) (line3 st) true (set1 st)
  else if near deg (fst (line0 st)) then
    if fgt radius (snd (line1 st))
    then MkLineSet (line0 st) (deg, radius) (line2 st) (line3 st) (set0 st) (set1 st)
    else st
  else if negb (set1 st) then
    MkLineSet (line0 st) (line1 st) (deg, radius) (deg, radius) (set0 st) true
  else if fgt radius (snd (line3 st))
    then MkLineSet (line0 st) (line1 st) (line2 st) (deg, radius) (set0 st) (set1 st)
    else st.

End LinePair.

Arguments MkLineSet {F}.
Arguments line0 {F}.
Arguments line1 {F}.
Arguments line2 {F}.
Arguments line3 {F}.
Arguments set0 {F}.
Arguments set1 {F}.
Arguments line_pair {F}.

(** *** intersect (lines 11-27) and the result of find_corners (lines 142-145)

    The single-precision operations are parameters of the embedding. *)

Section Intersect.

Variable F : Type.
Variables (fcos fsin fabs : F -> F) (fmul fsub fdiv : F -> F -> F).
Variable flt : F -> F -> bool.
(** [0.0001f] *)
Variable eps : F.

(** [d = nx1 * ny2 - nx2 * ny1] *)
Definition det (l1 l2 : F * F) : F :=
  fsub (fmul (fcos (fst l1)) (fsin (fst l2))) (fmul (fcos (fst l2)) (fsin (fst l1))).

(** Whether [intersect] returns [true]. *)
Definition intersects (l1 l2 : F * F) : bool := negb (flt (fabs (det l1 l2)) eps).

(** The point [intersect] stores when it does. *)
Definition crossing (l1 l2 : F * F) : F * F :=
  let nx1 := fcos (fst l1) in let ny1 := fsin (fst l1) in
  let nx2 := fcos (fst l2) in let ny2 := fsin (fst l2) in
  let d := det l1 l2 in
  (fabs (fdiv (fsub (fmul ny2 (snd l1)) (fmul ny1 (snd l2))) d),
   fabs (fdiv (fsub (fmul nx1 (snd l2)) (fmul nx2 (snd l1))) d)).

(** [intersect(point, l1, l2)]: the flag returned and the content of
    [point] afterwards. *)
Definition intersect (point l1 l2 : F * F) : bool * (F * F) :=
  if flt (fabs (det l1 l2)) eps then (false, point) else (true, crossing l1 l2).

(** The caller's [float corners[4][2]]. *)
Definition CornerArray : Type := (F * F) * (F * F) * (F * F) * (F * F).
Definition LineArray : Type := (F * F) * (F * F) * (F * F) * (F * F).

(** The [return] of [find_corners]: four calls joined by [&&], each writing
    into its own row of [corners]; a call is made only if those before it
    returned [true]. *)
Definition corners_of_lines (lines : LineArray) (corners : CornerArray)
  : bool * CornerArray :=
  let '(l0, l1, l2, l3) := lines in
  let '(c0, c1, c2, c3) := corners in
  let '(ok0, c0') := intersect c0 l0 l2 in
  if negb ok0 then (false, (c0', c1, c2, c3)) else
  let '(ok1, c1') := intersect c1 l0 l3 in
  if negb ok1 then (false, (c0', c1', c2, c3)) else
  let '(ok2, c2') := intersect c2 l1 l2 in
  if negb ok2 then (false, (c0', c1', c2', c3)) else
  let '(ok3, c3') := intersect c3 l1 l3 in
  (ok3, (c0', c1', c2', c3')).

End Intersect.

(** *** The peak scan (lines 60-63 and 78-131) and find_corners as a whole *)

(** [maxhough]: the largest cell, and at least 1. *)
Definition max_cell (kNumRadii : Z) (m : list Z) : option Z :=
  for_range 0 (Int32.wrap (kNumRadii * kNumAngles) - 1)
    (fun i st =>
       match st with
       | None => None
       | Some maxhough =>
           match cell_read m i with
           | None => None
           | Some v => Some (if v >? maxhough then v else maxhough)
           end
       end)
    (Some 1).

Section FindCorners.

Variable F : Type.
(** The single-precision expressions of the source, as functions:
    [radius_index] as in [accumulate]; [deg_of besta] is
    [besta * M_PI / kNumAngles]; [radius_of s kr bestr] is
    [bestr * kMaxRadius / kr] with [kMaxRadius = sqrt(s)]. *)
Variable radius_index : Z -> Z -> Z -> Z -> Z -> Z.
Variable deg_of : Z -> F.
Variable radius_of : Z -> Z -> Z -> F.
Variables near fgt : F -> F -> bool.
Variables (fcos fsin fabs : F -> F) (fmul fsub fdiv : F -> F -> F).
Variable flt : F -> F -> bool.
Variable eps : F.

(** One round of the inner loop of the scan; the running index [i] is
    [ri * kNumAngles + ai]. *)
Definition scan_cell (g : graymap) (maxhough ri ai : Z)
    (st : option (list Z * LineSet F)) : option (list Z * LineSet F) :=
  match st with
  | None => None
  | Some (m, lines) =>
      match cell_read m (Int32.add (Int32.wrap (ri * kNumAngles)) ai) with
      | None => None
      | Some v =>
          if v >? (75 * maxhough) mod 2 ^ 32 / 100 then
            match nms_sweep (gh g) ri ai m with
            | None => None
            | Some (m', (_, besta, bestr)) =>
                Some (m', line_pair near fgt lines (deg_of besta)
                            (radius_of (max_radius_square g) (Int32.sub (gh g) 1) bestr))
            end
          else Some (m, lines)
      end
  end.

Definition peak_scan (g : graymap) (maxhough : Z) (m : list Z) (lines : LineSet F)
  : option (list Z * LineSet F) :=
  for_range 0 (gh g - 1)
    (fun ri st => for_range 0 (kNumAngles - 1) (scan_cell g maxhough ri) st)
    (Some (m, lines)).

(** [find_corners]: [lines] is the content of the never-written
    [float lines[4][2]], [corners] the caller's array; [None] stands for an
    access outside the accumulator or the image. *)
Definition find_corners (g : graymap) (lines : LineArray F) (corners : CornerArray F)
  : option (bool * CornerArray F) :=
  let '(l0, l1, l2, l3) := lines in
  match accumulate radius_index g with
  | None => None
  | Some m =>
      match max_cell (gh g) m with
      | None => None
      | Some maxhough =>
          match peak_scan g maxhough m (MkLineSet l0 l1 l2 l3 false false) with
          | None => None
          | Some (_, ls) =>
              Some (corners_of_lines F fcos fsin fabs fmul fsub fdiv flt eps
                      (line0 ls, line1 ls, line2 ls, line3 ls) corners)
          end
      end
  end.

End FindCorners.

(** A 5 x 3 image whose only foreground sample is at [(x, y) = (3, 2)]. *)
Definition single_pixel_image : graymap :=
  Graymap 5 3 [255; 255; 255; 255; 255;
               255; 255; 255; 255; 255;
               255; 255; 255; 0; 255].

(** The radius bins of that sample: [|3 cos t + 2 sin t| * 2 / sqrt 34] is
    below 1 exactly for the angle bins 140 to 355 (0.9966 and 0.9981 at the
    two ends, 1.0029 and 1.0044 next to them). *)
Definition single_pixel_bins (s kr x y a : Z) : Z :=
  if (140 <=? a) && (a <=? 355) then 0 else 1.

(** The radius bin in exact arithmetic: the floor of
    [|cos t * x + sin t * y| * kr / sqrt s] for [t = a * PI / kNumAngles]. *)
Definition exact_radius_index (s kr x y a : Z) : Z :=
  Zfloor (Rabs (cos (IZR a * PI / IZR kNumAngles) * IZR x +
                sin (IZR a * PI / IZR kNumAngles) * IZR y)
          * IZR kr / sqrt (IZR s)).

(** 1 x 5965233 samples, the first one dark, the others background. *)
Definition tall_image : graymap :=
  Graymap 1 5965233 (0 :: replicate (Z.to_nat 5965232) 255).

(** 65536 x 2 samples, all background except the last one of the first row. *)
Definition wide_image : graymap :=
  Graymap 65536 2 (replicate (Z.to_nat 65535) 255 ++ 0 :: replicate (Z.to_nat 65536) 255).

(** *** Notions used to state the properties of the accumulator and the sweep *)

(** [f lo + ... + f hi] *)
Definition sum_range (f : Z -> Z) (lo hi : Z) : Z :=
  for_range lo hi (fun i acc => acc + f i) 0.

(** The cell of radius bin [ri] and angle bin [a]. *)
Definition cell (m : list Z) (ri a : Z) : Z := nth (Z.to_nat (ri * kNumAngles + a)) m 0.

(** The number of foreground samples among the first [p]. *)
Definition fg_count (l : list Z) : Z :=
  Z.of_nat (length (List.filter (fun p => negb (p =? 255)) l)).

(** A map of [R] rows whose cells are counts. *)
Record votes_ok (R : Z) (m : list Z) : Prop := {
  votes_len : Z.of_nat (length m) = R * kNumAngles;
  votes_pos : forall i, 0 <= nth i m 0
}.

(** The state after the pixels of linear index below [p]. *)
Definition acc_inv (g : graymap) (p : Z) (st : option (list Z)) : Prop :=
  exists m, st = Some m /\ votes_ok (gh g) m /\
    forall a, 0 <= a < kNumAngles ->
      column_sum m (gh g) a = fg_count (take (Z.to_nat p) (gdata g)).

(** A sweep that has stayed inside a block of [L] cells. *)
Definition sweep_len (L : Z) (st : option Sweep) : Prop :=
  exists m b, st = Some (m, b) /\ Z.of_nat (length m) = L.

(** Peaks given by their bins ([deg_of besta = besta]): the test
    [fabs(deg - lines[0][0]) < 10 * M_PI / 180] on the angles
    [deg = besta * M_PI / 360] of two bins.  One bin is 0.0087 radians and the
    two single-precision angles of bins below [2 * kNumAngles] are off by less
    than 1e-6, so the test holds when such bins differ by fewer than twenty
    and fails when they differ by more than twenty.  At exactly twenty bins
    (ten degrees) the rounding of the two angles decides, differently from
    pair to pair: that outcome, and the outcome on numbers that are no bins of
    a map, is the parameter [tie]. *)
Definition angle_bin (a : Z) : bool := (0 <=? a) && (a <? 2 * kNumAngles).

Definition near_bins (tie : Z -> Z -> bool) (a b : Z) : bool :=
  if angle_bin a && angle_bin b && negb (Z.abs (a - b) =? 20)
  then Z.abs (a - b) <? 20
  else tie a b.

Definition two_families : LineSet Z :=
  MkLineSet (0, 10) (0, 10) (180, 10) (180, 10) true true.

(** Exact real arithmetic in place of the single-precision operations. *)
Definition Rltb (a b : R) : bool := if Rlt_dec a b then true else false.

Definition real_corners : LineArray R -> CornerArray R -> bool * CornerArray R :=
  corners_of_lines R cos sin Rabs Rmult Rminus Rdiv Rltb (1 / 10000)%R.

End Corners.

(** * Further notions: the search, the program around the index, the map

    Used to state the properties of the code that follow the claims. *)

(** ** The search in the tree *)

(** Whether the key [k] of an edge lies within [n] of the distance [d]: the
    edges [query] follows at a node. *)
Definition within (d n k : Z) : bool := (d - n <=? k) && (k <=? d + n).

(** The number of nodes a search for the words within [n] of [q] enters:
    the node itself and, below the edges it follows, the nodes entered
    there. *)
Fixpoint visited (q : string) (n : Z) (t : BkTree) : Z :=
  match t with
  | Node v cs =>
      1 + (fix go (l : list (Z * BkTree)) : Z :=
             match l with
             | [] => 0
             | (k, c) :: l' =>
                 (if within (distance v q) n k then visited q n c else 0) + go l'
             end) cs
  end.

(** The words of a list within [n] of [q], in the order of the list. *)
Definition matches (q : string) (n : Z) (l : list string) : list string :=
  List.filter (fun x => distance x q <=? n) l.

(** What a call of [query] on [t] does to the state: the words within [n]
    of [q] are appended in the order [pivots] lists them, and the counter
    grows by the number of nodes entered. *)
Definition query_runs (u : Z) (q : string) (n : Z) (t : BkTree) : Prop :=
  forall out count,
    query u t q n (out, count) =
    Some (out ++ matches q n (pivots t), Int32.wrap (count + visited q n t)).

(** The largest depth among the children of a node (0 when it has none). *)
Definition deepest (cs : list (Z * BkTree)) : Z :=
  fold_right (fun (kc : Z * BkTree) acc => Z.max (depth (snd kc)) acc) 0 cs.

(** ** The program around the index *)

Module Program.

(** *** dump_dot (bktree.cc, lines 113-120) *)

(** [cout << k] for an [int]: its decimal digits, after a minus sign when it
    is negative. *)
Definition string_of_int (z : Z) : string := NilZero.string_of_int (Z.to_int z).

(** The double quote character. *)
Definition dquote : string := String "034"%char EmptyString.

(** One line of [dump_dot]: the edge from a pivot to the pivot of a child. *)
Definition dot_edge (from to : string) (label : Z) : string :=
  "  " +:+ from +:+ " -> " +:+ to +:+ " [label=" +:+ dquote +:+
  string_of_int label +:+ dquote +:+ "];".

(** The lines [dump_dot] writes: the edges of the node first, then the
    lines of the children, both in key order. *)
Fixpoint dump_dot (t : BkTree) : list string :=
  match t with
  | Node v cs =>
      map (fun kc : Z * BkTree => dot_edge v (value (snd kc)) (fst kc)) cs ++
      (fix go (l : list (Z * BkTree)) : list string :=
         match l with
         | [] => []
         | (_, c) :: l' => dump_dot c ++ go l'
         end) cs
  end.

(** *** read_words (bktree.cc, lines 69-73) *)

(** White space as [operator>>] skips it: the characters [isspace] accepts
    in the "C" locale (space, and the controls 9 to 13). *)
Definition isspace (c : ascii) : bool :=
  let n := nat_of_ascii c in
  (n =? 32)%nat || ((9 <=? n)%nat && (n <=? 13)%nat).

(** The strings [istream_iterator<string>] yields on a stream holding [s]:
    the maximal runs of characters that are not white space.  [cur] is the
    word being extracted. *)
Fixpoint extract (s : string) (cur : string) : list string :=
  match s with
  | EmptyString => match cur with EmptyString => [] | _ => [cur] end
  | String c s' =>
      if isspace c
      then match cur with
           | EmptyString => extract s' EmptyString
           | _ => cur :: extract s' EmptyString
           end
      else extract s' (cur +:+ String c EmptyString)
  end.

(** [read_words]: [content] is what the file holds, [None] when it cannot be
    opened (the stream is then in a failed state and yields nothing). *)
Definition read_words (content : option string) : list string :=
  match content with
  | None => []
  | Some s => extract s EmptyString
  end.

(** A words file: every word on a line of its own. *)
Definition lines_of (ws : list string) : string :=
  fold_right (fun w acc => w +:+ String "010"%char acc) EmptyString ws.

(** The summed length of the strings of a list. *)
Definition total (l : list string) : nat := list_sum (map String.length l).

(** No character of [w] is white space. *)
Definition spaceless (w : string) : Prop :=
  Forall (fun c => isspace c = false) (list_ascii_of_string w).

(** Every character of [g] is white space. *)
Definition blank (g : string) : Prop :=
  Forall (fun c => isspace c = true) (list_ascii_of_string g).

(** [rest] is empty or begins with a white-space character. *)
Definition ends_word (rest : string) : Prop :=
  match rest with
  | EmptyString => True
  | String c _ => isspace c = true
  end.

(** [tokens s ws]: [ws] are the maximal runs of characters of [s] that are
    not white space, in the order of [s].  Either [s] is white space alone
    and has no run; or [s] is white space, then a non-empty run [w] free of
    white space, then a rest that is empty or begins with white space (the
    run cannot be extended) and holds the runs after [w]. *)
Inductive tokens : string -> list string -> Prop :=
| tokens_blank g : blank g -> tokens g []
| tokens_word g w rest ws :
    blank g -> w <> EmptyString -> spaceless w -> ends_word rest ->
    tokens rest ws -> tokens (g +:+ w +:+ rest) (w :: ws).

(** *** main (bktree.cc, lines 125-196) *)

(** [use_index], [dump_dot] and [wordfile] of [main]. *)
Record Options : Type := MkOptions {
  use_index : bool;
  dump_dot_mode : bool;
  wordfile : string
}.

(** The outcome of the option loop: the failure of [-w] without a file
    name, or the options and the arguments left ([argv[1]] onwards). *)
Inductive Parse : Type :=
| NeedsWordfile
| Parsed (o : Options) (args : list string).

(** [argv[1][0] == '-'] *)
Definition is_option (a : string) : bool :=
  match a with
  | String c _ => Ascii.eqb c "-"
  | EmptyString => false
  end.

(** The loop over the leading options.  [args] is [argv[1]], ...,
    [argv[argc - 1]]; every round drops the first of them ([++argv, --argc]),
    and [-w] one more. *)
Fixpoint parse_options (o : Options) (args : list string) : Parse :=
  match args with
  | [] => Parsed o []
  | a :: rest =>
      if negb (is_option a) then Parsed o args
      else if String.eqb a "-b"
      then parse_options (MkOptions false (dump_dot_mode o) (wordfile o)) rest
      else if String.eqb a "-dot"
      then parse_options (MkOptions (use_index o) true (wordfile o)) rest
      else if String.eqb a "-w"
      then match rest with
           | [] => NeedsWordfile
           | f :: rest' =>
               parse_options (MkOptions (use_index o) (dump_dot_mode o) f) rest'
           end
      else parse_options o rest
  end.

(** What a run of the program leaves: the exit status and the lines written
    to [cout] and to [cerr]. *)
Record Run : Type := MkRun { status : Z; out : list string; err : list string }.

Definition EXIT_FAILURE : Z := 1.

Definition usage : string := "Usage: bktree [-w wordfile] [-dot] [-b] [n] query".

(** [100 * count / words.size()]: the product is an [int], the quotient is
    taken on [size_t], here 64 bits wide. *)
Definition percent (count : Z) (size : nat) : Z :=
  (Int32.wrap (100 * count) mod 2 ^ 64) / Z.of_nat size.

(** The lines of statistics [main] prints around the matches. *)
Definition construction_line (ms : Z) : string :=
  "Index construction took " +:+ string_of_int ms +:+ "ms".

Definition depth_line (index : BkTree) (size : nat) : string :=
  "Index depth: " +:+ string_of_int (depth index) +:+ " (size: " +:+
  string_of_int (Z.of_nat size) +:+ ")".

Definition query_line (ms : Z) : string :=
  "Indexed query took " +:+ string_of_int ms +:+ "ms".

Definition queried_line (count : Z) (size : nat) : string :=
  "Queried " +:+ string_of_int count +:+ " (" +:+
  string_of_int (percent count size) +:+ "%)".

Definition brute_force_line (ms : Z) : string :=
  "Brute force query took " +:+ string_of_int ms +:+ "ms".

(** [n] and [query] of [main], from the arguments left after the options:
    [argc == 3 ? atoi(argv[1]) : 2] and [argv[argc - 1]]. *)
Definition radius (atoi : string -> Z) (rest : list string) : Z :=
  match rest with
  | [a; _] => atoi a
  | _ => 2
  end.

Definition query_word (rest : list string) : string := List.last rest EmptyString.

Section Main.

(** The content of a never-written [row[0]] (see [alloc_row]). *)
Variable u : Z.
(** [atoi], the files by name, and the clock differences in ms (index
    construction; query). *)
Variable atoi : string -> Z.
Variable file : string -> option string.
Variables construction_ms query_ms : Z.

(** [main] on the arguments [argv[1]], ..., [argv[argc - 1]]; [q] is its
    [query].  [None] stands for a run whose query moves an iterator past
    [end()]. *)
Definition main (args : list string) : option Run :=
  match parse_options (MkOptions true false "/usr/share/dict/words") args with
  | NeedsWordfile => Some (MkRun EXIT_FAILURE [] ["-w needs wordfile argument"])
  | Parsed o rest =>
      if (length rest <? 1)%nat || (2 <? length rest)%nat
      then Some (MkRun EXIT_FAILURE [] [usage])
      else
        let n := radius atoi rest in
        let q := query_word rest in
        let words := read_words (file (wordfile o)) in
        match words with
        | [] => Some (MkRun EXIT_FAILURE [] [])
        | w0 :: ws =>
            if use_index o then
              let index := fold_left (insert u) ws (leaf w0) in
              if dump_dot_mode o
              then Some (MkRun 0 ("digraph G {" :: dump_dot index ++ ["}"]) [])
              else
                match query u index q n ([], 0) with
                | None => None
                | Some (matched, count) =>
                    Some (MkRun 0
                      (construction_line construction_ms ::
                       depth_line index (length words) ::
                       matched ++
                       [query_line query_ms; queried_line count (length words)])
                      [])
                end
            else
              Some (MkRun 0
                (brute_force u words q n ++ [brute_force_line query_ms])
                [])
        end
  end.

End Main.

End Program.

(** ** The accumulator, the sweep and the pairing *)

Module CornersSpec.
Import Corners.

(** The votes the first [p] samples of the image (in row-major order) cast
    for the cell of radius bin [ri] and angle bin [a]: one per foreground
    sample whose radius bin at [a] is [ri]. *)
Definition votes_for (radius_index : Z -> Z -> Z -> Z -> Z -> Z) (g : graymap)
    (ri a p : Z) : Z :=
  sum_range
    (fun i =>
       if nth (Z.to_nat i) (gdata g) 255 =? 255 then 0
       else if radius_bin radius_index g (i mod gw g) (i / gw g) a =? ri then 1
       else 0)
    0 (p - 1).

(** The distance of two angle bins on the circle of [kNumAngles] bins. *)
Definition angle_gap (a b : Z) : Z :=
  Z.min (Z.abs (a - b)) (kNumAngles - Z.abs (a - b)).

(** The cells within [k / 2] of the seed [(ri, ai)], the angle taken
    cyclically. *)
Definition in_window (ri ai rd aii : Z) : bool :=
  (Z.abs (rd - ri) <=? k / 2) && (angle_gap aii ai <=? k / 2).

(** A map of two rows: 3 in the cell (0, 20), 4 in (0, 100), 9 in (1, 25)
    and 0 elsewhere. *)
Definition sample_map : list Z :=
  <[385%nat := 9]> (<[100%nat := 4]> (<[20%nat := 3]> (replicate 720 0))).

(** The pairing run over the peaks of a scan, in the order they are
    found. *)
Definition pair_lines {F : Type} (near fgt : F -> F -> bool)
    (st : LineSet F) (peaks : list (F * F)) : LineSet F :=
  fold_left (fun st p => line_pair near fgt st (fst p) (snd p)) peaks st.

(** What the pairing keeps once slot 0 is set to the peak [p] and the peaks
    [seen] have followed; [l2] and [l3] are what [lines[2]] and [lines[3]]
    held before. *)
Record paired {F : Type} (near : F -> F -> bool) (p : F * F) (seen : list (F * F))
    (l2 l3 : F * F) (st : LineSet F) : Prop := {
  paired_set0 : set0 st = true;
  paired_line0 : line0 st = p;
  paired_line1 : line1 st = p \/
                 (In (line1 st) seen /\ near (fst (line1 st)) (fst p) = true);
  paired_unset : set1 st = false ->
                 line2 st = l2 /\ line3 st = l3 /\
                 Forall (fun x => near (fst x) (fst p) = true) seen;
  paired_set : set1 st = true ->
               In (line2 st) seen /\ near (fst (line2 st)) (fst p) = false /\
               In (line3 st) seen /\ near (fst (line3 st)) (fst p) = false
}.

(** What the pairing keeps, as to the radii, once slot 0 is set to the peak
    [p] and the peaks [seen] have followed. *)
Record outermost {F : Type} (near fgt : F -> F -> bool) (p : F * F)
    (seen : list (F * F)) (st : LineSet F) : Prop := {
  outer_set0 : set0 st = true;
  outer_line0 : line0 st = p;
  outer_first : fgt (snd p) (snd (line1 st)) = false;
  outer_slot0 : forall x, In x seen -> near (fst x) (fst p) = true ->
                fgt (snd x) (snd (line1 st)) = false;
  outer_slot1 : forall x, In x seen -> near (fst x) (fst p) = false ->
                set1 st = true /\ fgt (snd x) (snd (line3 st)) = false
}.

End CornersSpec.

(** * Theorems: machine integers *)

Module Int32Facts.

Lemma wrap_small z : Int32.min_int <= z <= Int32.max_int -> Int32.wrap z = z.
Proof.
  unfold Int32.wrap, Int32.min_int, Int32.max_int, Int32.modulus. intros H.
  rewrite Z.mod_small by lia. lia.
Qed.

Lemma add_small a b :
  Int32.min_int <= a + b <= Int32.max_int -> Int32.add a b = a + b.
Proof. apply wrap_small. Qed.

Lemma sub_small a b :
  Int32.min_int <= a - b <= Int32.max_int -> Int32.sub a b = a - b.
Proof. apply wrap_small. Qed.

Lemma of_size_small n : Z.of_nat n <= Int32.max_int -> Int32.of_size n = Z.of_nat n.
Proof.
  intros H. apply wrap_small. unfold Int32.min_int, Int32.max_int in *. lia.
Qed.

End Int32Facts.

(** * Theorems: counted loops *)

Section Loops.

Context {S : Type}.
Implicit Types (body : Z -> S -> S) (s : S).

Lemma for_loop_app body (a b : nat) i s :
  for_loop i (a + b) body s = for_loop (i + Z.of_nat a) b body (for_loop i a body s).
Proof.
  revert i s. induction a as [|a IH]; intros i s; cbn [for_loop Nat.add].
  - f_equal. lia.
  - rewrite IH. f_equal. lia.
Qed.

(** The loop rule: an invariant indexed by the counter. *)
Lemma for_loop_inv (P : Z -> S -> Prop) body (cnt : nat) i s :
  P i s ->
  (forall j t, i <= j < i + Z.of_nat cnt -> P j t -> P (j + 1) (body j t)) ->
  P (i + Z.of_nat cnt) (for_loop i cnt body s).
Proof.
  revert i s. induction cnt as [|cnt IH]; intros i s H0 Hstep; cbn [for_loop].
  - replace (i + Z.of_nat 0) with i by lia. exact H0.
  - replace (i + Z.of_nat (Datatypes.S cnt)) with (i + 1 + Z.of_nat cnt) by lia.
    apply IH.
    + apply Hstep; [lia | exact H0].
    + intros j t Hj. apply Hstep. lia.
Qed.

Lemma for_range_inv (P : Z -> S -> Prop) body lo hi s :
  lo <= hi + 1 ->
  P lo s ->
  (forall j t, lo <= j <= hi -> P j t -> P (j + 1) (body j t)) ->
  P (hi + 1) (for_range lo hi body s).
Proof.
  intros Hle H0 Hstep. unfold for_range.
  replace (hi + 1) with (lo + Z.of_nat (Z.to_nat (hi + 1 - lo))) at 1 by lia.
  apply for_loop_inv; [exact H0|].
  intros j t Hj. apply Hstep. lia.
Qed.

Lemma for_range_empty body lo hi s : hi < lo -> for_range lo hi body s = s.
Proof.
  intros H. unfold for_range. replace (Z.to_nat (hi + 1 - lo)) with O by lia.
  reflexivity.
Qed.

Lemma for_range_split body lo mid hi s :
  lo <= mid -> mid <= hi + 1 ->
  for_range lo hi body s = for_range mid hi body (for_range lo (mid - 1) body s).
Proof.
  intros H1 H2. unfold for_range.
  replace (Z.to_nat (hi + 1 - lo))
    with (Z.to_nat (mid - 1 + 1 - lo) + Z.to_nat (hi + 1 - mid))%nat by lia.
  rewrite for_loop_app. f_equal. lia.
Qed.

Lemma for_range_first body lo hi s :
  lo <= hi -> for_range lo hi body s = for_range (lo + 1) hi body (body lo s).
Proof.
  intros H. unfold for_range.
  replace (Z.to_nat (hi + 1 - lo)) with (Datatypes.S (Z.to_nat (hi + 1 - (lo + 1)))) by lia.
  reflexivity.
Qed.

Lemma for_range_last body lo hi s :
  lo <= hi -> for_range lo hi body s = body hi (for_range lo (hi - 1) body s).
Proof.
  intros H. rewrite (for_range_split body lo hi hi) by lia.
  rewrite (for_range_first body hi hi) by lia.
  rewrite (for_range_empty body (hi + 1) hi) by lia. reflexivity.
Qed.

Lemma for_range_ext body body' lo hi s :
  (forall j t, lo <= j <= hi -> body j t = body' j t) ->
  for_range lo hi body s = for_range lo hi body' s.
Proof.
  intros H. destruct (Z_lt_le_dec hi lo) as [Hlt|Hle].
  - rewrite !for_range_empty by lia. reflexivity.
  - replace hi with (hi + 1 - 1) at 2 by lia.
    apply (for_range_inv
             (fun j t => t = for_range lo (j - 1) body' s) body lo hi s); [lia| |].
    + rewrite for_range_empty by lia. reflexivity.
    + intros j t Hj ->. rewrite H by lia.
      replace (j + 1 - 1) with j by lia.
      rewrite (for_range_last body' lo j) by lia. reflexivity.
Qed.

End Loops.

(** * Theorems: the Levenshtein distance is a metric *)

Module LevenshteinFacts.
Import Levenshtein.
#[local] Open Scope nat_scope.

Lemma lev_nil_l t : lev [] t = length t.
Proof. reflexivity. Qed.

Lemma lev_nil_r s : lev s [] = length s.
Proof. destruct s; reflexivity. Qed.

Lemma lev_cons a b s t :
  lev (a :: s) (b :: t) =
  Nat.min (lev s t + cost a b) (Nat.min (lev s (b :: t)) (lev (a :: s) t) + 1).
Proof. reflexivity. Qed.

Lemma cost_sym a b : cost a b = cost b a.
Proof. unfold cost. rewrite Ascii.eqb_sym. reflexivity. Qed.

Lemma cost_refl a : cost a a = 0.
Proof. unfold cost. rewrite Ascii.eqb_refl. reflexivity. Qed.

Lemma cost_zero a b : cost a b = 0 -> a = b.
Proof. unfold cost. destruct (Ascii.eqb_spec a b); [auto|discriminate]. Qed.

Lemma cost_le a b : cost a b <= 1.
Proof. unfold cost. destruct (Ascii.eqb a b); lia. Qed.

Lemma cost_triangle a b c : cost a c <= cost a b + cost b c.
Proof.
  unfold cost.
  destruct (Ascii.eqb_spec a c), (Ascii.eqb_spec a b), (Ascii.eqb_spec b c);
    try lia; congruence.
Qed.

(** [lev] is reached by an edit... *)
Lemma edit_lev s t : edit s t (lev s t).
Proof.
  revert t. induction s as [|a s IHs]; intros t.
  - induction t as [|b t IHt]; cbn; [constructor|].
    apply edit_ins. exact IHt.
  - induction t as [|b t IHt].
    + rewrite lev_nil_r. cbn [length].
      apply edit_del. specialize (IHs []). rewrite lev_nil_r in IHs. exact IHs.
    + rewrite lev_cons.
      destruct (Nat.min_spec (lev s t + cost a b)
                  (Nat.min (lev s (b :: t)) (lev (a :: s) t) + 1)) as [[_ ->]|[_ ->]].
      * apply edit_sub, IHs.
      * rewrite Nat.add_1_r.
        destruct (Nat.min_spec (lev s (b :: t)) (lev (a :: s) t)) as [[_ ->]|[_ ->]].
        -- apply edit_del, IHs.
        -- apply edit_ins, IHt.
Qed.

(** ... and no edit does better. *)
Lemma lev_least s t n : edit s t n -> lev s t <= n.
Proof.
  induction 1 as [|a s t n _ IH|b s t n _ IH|a b s t n _ IH].
  - cbn. lia.
  - destruct t as [|b t].
    + rewrite lev_nil_r in *. cbn [length]. lia.
    + rewrite lev_cons. lia.
  - destruct s as [|a s].
    + rewrite lev_nil_l in *. cbn [length]. lia.
    + rewrite lev_cons. lia.
  - rewrite lev_cons. lia.
Qed.

Lemma edit_sym s t n : edit s t n -> edit t s n.
Proof.
  induction 1; [constructor|apply edit_ins|apply edit_del|]; auto.
  rewrite cost_sym. apply edit_sub. assumption.
Qed.

Lemma edit_refl s : edit s s 0.
Proof.
  induction s as [|a s IH]; [constructor|].
  replace 0 with (0 + cost a a) by (rewrite cost_refl; lia).
  apply edit_sub, IH.
Qed.

Lemma edit_zero s t n : edit s t n -> n = 0 -> s = t.
Proof.
  induction 1 as [| | |a b s t n _ IH]; intros Hn; try discriminate; [reflexivity|].
  assert (n = 0) by lia. assert (cost a b = 0) by lia.
  f_equal; [apply cost_zero|apply IH]; assumption.
Qed.

(** Two edits in a row are an edit, at no more than the summed cost. *)
Lemma edit_trans s t n :
  edit s t n -> forall r k, edit t r k -> exists j, j <= n + k /\ edit s r j.
Proof.
  induction 1 as [|a s t n _ IH|b s t n H IH|a b s t n H IH]; intros r k Hk.
  - exists k. split; [lia|exact Hk].
  - destruct (IH r k Hk) as (j & Hj & He). exists (S j). split; [lia|].
    apply edit_del, He.
  - remember (b :: t) as bt eqn:E. revert E.
    induction Hk as [|a' s' t' k' Hk' IHk|b' s' t' k' Hk' IHk|a' b' s' t' k' Hk' IHk];
      intros E.
    + discriminate.
    + injection E as -> ->. destruct (IH _ _ Hk') as (j & Hj & He).
      exists j. split; [lia|exact He].
    + destruct (IHk E) as (j & Hj & He). exists (S j). split; [lia|].
      apply edit_ins, He.
    + injection E as -> ->. destruct (IH _ _ Hk') as (j & Hj & He).
      exists (S j). split; [lia|]. apply edit_ins, He.
  - remember (b :: t) as bt eqn:E. revert E.
    induction Hk as [|a' s' t' k' Hk' IHk|b' s' t' k' Hk' IHk|a' b' s' t' k' Hk' IHk];
      intros E.
    + discriminate.
    + injection E as -> ->. destruct (IH _ _ Hk') as (j & Hj & He).
      exists (S j). split; [pose proof (cost_le a b); lia|]. apply edit_del, He.
    + destruct (IHk E) as (j & Hj & He). exists (S j). split; [lia|].
      apply edit_ins, He.
    + injection E as -> ->. destruct (IH _ _ Hk') as (j & Hj & He).
      exists (j + cost a b'). split; [pose proof (cost_triangle a b b'); lia|].
      apply edit_sub, He.
Qed.

Theorem lev_sym s t : lev s t = lev t s.
Proof.
  apply Nat.le_antisymm; apply lev_least, edit_sym, edit_lev.
Qed.

Theorem lev_triangle a b c : lev a c <= lev a b + lev b c.
Proof.
  destruct (edit_trans _ _ _ (edit_lev a b) _ _ (edit_lev b c)) as (j & Hj & He).
  apply lev_least in He. lia.
Qed.

Theorem lev_zero s t : lev s t = 0 <-> s = t.
Proof.
  split.
  - intros H. apply (edit_zero s t (lev s t)); [apply edit_lev|exact H].
  - intros ->. pose proof (lev_least _ _ _ (edit_refl t)). lia.
Qed.

Lemma lev_le_sum s t : lev s t <= length s + length t.
Proof.
  revert t. induction s as [|a s IH]; intros t; [cbn; lia|].
  pose proof (lev_least _ _ _ (edit_del a _ _ _ (edit_lev s t))).
  specialize (IH t). cbn [length]. lia.
Qed.

(** Edits may as well be built from the right ends. *)
Lemma edit_del_r a s t n : edit s t n -> edit (s ++ [a]) t (S n).
Proof.
  induction 1; cbn [app].
  - apply edit_del, edit_nil.
  - apply edit_del. assumption.
  - apply edit_ins. assumption.
  - replace (S (n + cost a0 b)) with (S n + cost a0 b) by lia.
    apply edit_sub. assumption.
Qed.

Lemma edit_ins_r b s t n : edit s t n -> edit s (t ++ [b]) (S n).
Proof. intros H. apply edit_sym, edit_del_r, edit_sym, H. Qed.

Lemma edit_sub_r a b s t n : edit s t n -> edit (s ++ [a]) (t ++ [b]) (n + cost a b).
Proof.
  induction 1 as [|a' s t n _ IH|b' s t n _ IH|a' b' s t n _ IH]; cbn [app].
  - apply (edit_sub a b [] [] 0), edit_nil.
  - apply (edit_del a' _ _ (n + cost a b)), IH.
  - apply (edit_ins b' _ _ (n + cost a b)), IH.
  - replace (n + cost a' b' + cost a b) with (n + cost a b + cost a' b') by lia.
    apply edit_sub, IH.
Qed.

Lemma edit_rev s t n : edit s t n -> edit (rev s) (rev t) n.
Proof.
  induction 1; cbn [rev].
  - constructor.
  - apply edit_del_r. assumption.
  - apply edit_ins_r. assumption.
  - apply edit_sub_r. assumption.
Qed.

Lemma lev_rev s t : lev (rev s) (rev t) = lev s t.
Proof.
  apply Nat.le_antisymm.
  - apply lev_least, edit_rev, edit_lev.
  - pose proof (lev_least _ _ _ (edit_rev _ _ _ (edit_lev (rev s) (rev t)))) as H.
    rewrite !rev_involutive in H. exact H.
Qed.

(** The recurrence the two-row program runs: on the last symbols. *)
Lemma lev_snoc a b s t :
  lev (s ++ [a]) (t ++ [b]) =
  Nat.min (lev s t + cost a b) (Nat.min (lev s (t ++ [b])) (lev (s ++ [a]) t) + 1).
Proof.
  rewrite <- (lev_rev (s ++ [a]) (t ++ [b])), !rev_unit, lev_cons.
  rewrite <- (rev_unit t b), <- (rev_unit s a), !lev_rev. reflexivity.
Qed.

End LevenshteinFacts.

(** * Theorems: the two-row program computes the distance *)

Module DistanceFacts.
Import Levenshtein LevenshteinFacts Int32Facts.

Lemma length_chars s : length (chars s) = String.length s.
Proof. unfold chars. induction s; cbn; auto. Qed.

Lemma chars_nil s : chars s = [] -> s = EmptyString.
Proof. destruct s; [reflexivity|discriminate]. Qed.

Lemma chars_inj s t : chars s = chars t -> s = t.
Proof.
  unfold chars. intros H.
  rewrite <- (string_of_list_ascii_of_string s), <- (string_of_list_ascii_of_string t).
  rewrite H. reflexivity.
Qed.

(** *** Reading and writing the row *)

Lemma row_set_length row i v : length (row_set row i v) = length row.
Proof. apply length_insert. Qed.

Lemma row_get_set_eq row i v :
  0 <= i < Z.of_nat (length row) -> row_get (row_set row i v) i = v.
Proof.
  intros H. unfold row_get, row_set. rewrite nth_lookup.
  rewrite list_lookup_insert_eq by lia. reflexivity.
Qed.

Lemma row_get_set_ne row i j v :
  0 <= i -> 0 <= j -> i <> j -> row_get (row_set row i v) j = row_get row j.
Proof.
  intros Hi Hj Hne. unfold row_get, row_set. rewrite !nth_lookup.
  rewrite list_lookup_insert_ne by lia. reflexivity.
Qed.

Section Table.

Variables s1 s2 : string.

Let m : Z := Z.of_nat (String.length s1).
Let n : Z := Z.of_nat (String.length s2).

(** The strings are short enough for every entry of the table, plus one, to
    be an [int]. *)
Hypothesis Hfit : m + n < Int32.max_int.

Local Abbreviation table := (dp_table s1 s2).
Local Abbreviation row_ok := (dp_row_ok s1 s2 n).
Local Abbreviation cells_ok := (dp_cells_ok s1 s2 n).
Local Abbreviation below_row := (dp_below_row s1 s2 n).

Lemma m_pos : 0 <= m.
Proof. unfold m. lia. Qed.

Lemma n_pos : 0 <= n.
Proof. unfold n. lia. Qed.

#[local] Ltac sizes := pose proof m_pos; pose proof n_pos; unfold Int32.min_int, Int32.max_int in *; lia.

Lemma size_s1 : size s1 = m.
Proof. apply of_size_small. fold m. sizes. Qed.

Lemma size_s2 : size s2 = n.
Proof. apply of_size_small. fold n. sizes. Qed.

Lemma table_0_x x : 0 <= x <= n -> table 0 x = x.
Proof.
  intros H. unfold dp_table. cbn [Z.to_nat take]. rewrite lev_nil_l, length_take.
  rewrite length_chars. unfold n. lia.
Qed.

Lemma table_y_0 y : 0 <= y <= m -> table y 0 = y.
Proof.
  intros H. unfold dp_table. cbn [Z.to_nat take]. rewrite lev_nil_r, length_take.
  rewrite length_chars. unfold m. lia.
Qed.

Lemma table_full : table m n = distance s1 s2.
Proof.
  unfold dp_table, distance, m, n. rewrite !Nat2Z.id.
  rewrite !take_ge by (rewrite length_chars; lia). reflexivity.
Qed.

Lemma table_bound y x : 0 <= y -> 0 <= x -> 0 <= table y x <= y + x.
Proof.
  intros Hy Hx. unfold dp_table.
  pose proof (lev_le_sum (take (Z.to_nat y) (chars s1)) (take (Z.to_nat x) (chars s2))) as H.
  rewrite !length_take in H. lia.
Qed.

Lemma take_last (s : string) (k : Z) :
  1 <= k <= Z.of_nat (String.length s) ->
  take (Z.to_nat k) (chars s) = take (Z.to_nat (k - 1)) (chars s) ++ [char_at s (k - 1)].
Proof.
  intros H. replace (Z.to_nat k) with (Datatypes.S (Z.to_nat (k - 1))) by lia.
  apply take_S_r. unfold char_at. fold (chars s).
  destruct (chars s !! Z.to_nat (k - 1)) as [c|] eqn:E.
  - rewrite nth_lookup, E. reflexivity.
  - apply lookup_ge_None in E. rewrite length_chars in E. lia.
Qed.

Lemma subst_cost_cost y x :
  subst_cost s1 s2 y x = Z.of_nat (cost (char_at s1 (y - 1)) (char_at s2 (x - 1))).
Proof. unfold subst_cost, cost. destruct (Ascii.eqb _ _); reflexivity. Qed.

(** The recurrence of the table. *)
Lemma table_step y x :
  1 <= y <= m -> 1 <= x <= n ->
  table y x =
  Z.min (table (y - 1) (x - 1) + subst_cost s1 s2 y x)
        (Z.min (table y (x - 1)) (table (y - 1) x) + 1).
Proof.
  intros Hy Hx. unfold dp_table at 1.
  rewrite (take_last s1 y), (take_last s2 x) by (unfold m, n; lia).
  rewrite lev_snoc, subst_cost_cost.
  unfold dp_table. rewrite (take_last s1 y), (take_last s2 x) by (unfold m, n; lia).
  lia.
Qed.

Lemma init_row_ok u : row_ok 0 (init_row u n).
Proof.
  unfold init_row.
  pose proof n_pos as Hn.
  rewrite add_small by sizes.
  enough (H : Z.of_nat (length (for_range 1 n (fun i row => row_set row i i)
                                  (alloc_row u (n + 1)))) = n + 1 /\
              forall x, 1 <= x < n + 1 ->
                row_get (for_range 1 n (fun i row => row_set row i i)
                           (alloc_row u (n + 1))) x = x).
  { destruct H as [Hl Hx]. split; [exact Hl|].
    intros x Hx1 [H0|H0]; [|lia]. rewrite Hx by lia. rewrite table_0_x by lia.
    reflexivity. }
  apply (for_range_inv
           (fun i row => Z.of_nat (length row) = n + 1 /\
                         forall x, 1 <= x < i -> row_get row x = x)); [lia| |].
  - split; [|intros; lia]. unfold alloc_row. rewrite length_replicate. lia.
  - intros j row Hj [Hl Hx]. split; [rewrite row_set_length; exact Hl|].
    intros x Hx1. destruct (Z.eq_dec x j) as [->|Hne].
    + apply row_get_set_eq. lia.
    + rewrite row_get_set_ne by lia. apply Hx. lia.
Qed.

Lemma cell_step_value y x row previous :
  1 <= y <= m -> 1 <= x <= n ->
  cells_ok y x (row, previous) ->
  Z.min (Int32.add previous (subst_cost s1 s2 y x))
        (Int32.add (Z.min (row_get row (x - 1)) (row_get row x)) 1) = table y x.
Proof.
  intros Hy Hx (Hl & H0 & Hlt & Hge & Hp).
  assert (Hleft : row_get row (x - 1) = table y (x - 1)).
  { destruct (Z.eq_dec x 1) as [->|Hne].
    - replace (1 - 1) with 0 by lia. rewrite H0, table_y_0 by lia. reflexivity.
    - apply Hlt. lia. }
  rewrite Hleft, (Hge x) by lia. subst previous.
  pose proof (table_bound (y - 1) (x - 1)) as B1.
  pose proof (table_bound y (x - 1)) as B2.
  pose proof (table_bound (y - 1) x) as B3.
  assert (Hc : 0 <= subst_cost s1 s2 y x <= 1).
  { unfold subst_cost. destruct (Ascii.eqb _ _); lia. }
  unfold Int32.add.
  rewrite !wrap_small by (unfold Int32.min_int, Int32.max_int in *; lia).
  symmetry. apply table_step; assumption.
Qed.

Lemma cell_step_ok y x st :
  1 <= y <= m -> 1 <= x <= n ->
  cells_ok y x st -> cells_ok y (x + 1) (cell_step s1 s2 y x st).
Proof.
  intros Hy Hx. destruct st as [row previous]. intros Hst.
  pose proof (cell_step_value y x row previous Hy Hx Hst) as Hv.
  destruct Hst as (Hl & H0 & Hlt & Hge & Hp).
  unfold cell_step, dp_cells_ok. rewrite Hv.
  split; [rewrite row_set_length; exact Hl|].
  split; [rewrite row_get_set_ne by lia; exact H0|].
  split; [|split].
  - intros j Hj. destruct (Z.eq_dec j x) as [->|Hne].
    + apply row_get_set_eq. lia.
    + rewrite row_get_set_ne by lia. apply Hlt. lia.
  - intros j Hj. rewrite row_get_set_ne by lia. apply Hge. lia.
  - replace (x + 1 - 1) with x by lia. apply Hge. lia.
Qed.

Lemma cells_start y row :
  1 <= y <= m -> row_ok (y - 1) row ->
  cells_ok y 1 (row_set row 0 y, Int32.sub y 1).
Proof.
  intros Hy [Hl Hrow]. pose proof n_pos as Hn.
  unfold dp_cells_ok. split; [rewrite row_set_length; exact Hl|].
  split; [apply row_get_set_eq; lia|].
  split; [intros; lia|]. split.
  - intros j Hj. rewrite row_get_set_ne by lia. apply Hrow; lia.
  - rewrite sub_small by (unfold Int32.min_int, Int32.max_int in *; lia).
    replace (1 - 1) with 0 by lia. rewrite table_y_0 by lia. reflexivity.
Qed.

Lemma cells_end y st :
  1 <= y <= m -> cells_ok y (n + 1) st -> row_ok y (fst st).
Proof.
  intros Hy. destruct st as [row previous]. intros (Hl & H0 & Hlt & _ & _).
  split; [exact Hl|]. intros x Hx _. cbn [fst].
  destruct (Z.eq_dec x 0) as [->|Hne].
  - rewrite H0, table_y_0 by lia. reflexivity.
  - apply Hlt. lia.
Qed.

Lemma row_step_ok y row :
  1 <= y <= m -> row_ok (y - 1) row -> row_ok y (row_step s1 s2 n y row).
Proof.
  intros Hy Hrow. unfold row_step. apply cells_end; [exact Hy|].
  apply (for_range_inv (cells_ok y)); [sizes| |].
  - apply cells_start; assumption.
  - intros x st Hx Hst. apply cell_step_ok; assumption.
Qed.

(** [edit_distance] computes the Levenshtein distance, unless both strings
    are empty. *)
Lemma edit_distance_table u :
  0 < m \/ 0 < n -> edit_distance u s1 s2 = distance s1 s2.
Proof.
  intros Hne. unfold edit_distance. rewrite size_s1, size_s2.
  pose proof m_pos as Hm. pose proof n_pos as Hn.
  assert (H : row_ok (m + 1 - 1) (for_range 1 m (row_step s1 s2 n) (init_row u n))).
  { apply (for_range_inv (fun y row => row_ok (y - 1) row)); [lia| |].
    - apply init_row_ok.
    - intros y row Hy Hrow. replace (y + 1 - 1) with y by lia.
      apply row_step_ok; assumption. }
  replace (m + 1 - 1) with m in H by lia. destruct H as [_ H].
  rewrite H by lia. apply table_full.
Qed.

(** *** The bounded variant *)

Lemma below_row_next y b : 0 <= y < m -> below_row y b -> below_row (y + 1) b.
Proof.
  intros Hy Hb x Hx.
  assert (H : forall k : nat, Z.of_nat k <= n -> b <= table (y + 1) (Z.of_nat k)).
  { induction k as [|k IH]; intros Hk.
    - cbn. rewrite table_y_0 by lia. specialize (Hb 0 ltac:(lia)).
      rewrite table_y_0 in Hb by lia. lia.
    - rewrite table_step by lia.
      replace (y + 1 - 1) with y by lia.
      replace (Z.of_nat (Datatypes.S k) - 1) with (Z.of_nat k) by lia.
      specialize (IH ltac:(lia)).
      pose proof (Hb (Z.of_nat k) ltac:(lia)).
      pose proof (Hb (Z.of_nat (Datatypes.S k)) ltac:(lia)).
      assert (0 <= subst_cost s1 s2 (y + 1) (Z.of_nat (Datatypes.S k))).
      { unfold subst_cost. destruct (Ascii.eqb _ _); lia. }
      lia. }
  specialize (H (Z.to_nat x)). rewrite Z2Nat.id in H by lia. apply H. lia.
Qed.

Lemma below_row_last y b : 0 <= y <= m -> below_row y b -> b <= distance s1 s2.
Proof.
  intros Hy Hb. pose proof n_pos as Hn.
  assert (H : forall k : nat, y + Z.of_nat k <= m -> below_row (y + Z.of_nat k) b).
  { induction k as [|k IH]; intros Hk.
    - replace (y + Z.of_nat 0) with y by lia. exact Hb.
    - replace (y + Z.of_nat (Datatypes.S k)) with (y + Z.of_nat k + 1) by lia.
      apply below_row_next; [lia|apply IH; lia]. }
  specialize (H (Z.to_nat (m - y))).
  replace (y + Z.of_nat (Z.to_nat (m - y))) with m in H by lia.
  rewrite <- table_full. apply H; lia.
Qed.

Lemma row_step_best_ok y row :
  1 <= y <= m -> row_ok (y - 1) row ->
  row_ok y (fst (row_step_best s1 s2 n y row)) /\
  below_row y (snd (row_step_best s1 s2 n y row)).
Proof.
  intros Hy Hrow. pose proof n_pos as Hn.
  unfold row_step_best.
  pose (P := fun (x : Z) (st : list Z * Z * Z) =>
               cells_ok y x (fst st) /\ snd st <= y /\
               forall j, 1 <= j < x -> snd st <= table y j).
  assert (HP : P (n + 1)
                 (for_range 1 n (cell_step_best s1 s2 y)
                    (row_set row 0 y, Int32.sub y 1, y))).
  { apply for_range_inv; [lia| |].
    - split; [apply cells_start; assumption|]. cbn [snd]. split; [lia|intros; lia].
    - intros x [[r p] b] Hx (Hc & Hb & Hlow). cbn [fst snd] in *.
      pose proof (cell_step_ok y x (r, p) Hy Hx Hc) as Hc'.
      unfold cell_step_best.
      destruct (cell_step s1 s2 y x (r, p)) as [r' p'] eqn:E.
      split; [exact Hc'|]. cbn [snd]. split; [lia|].
      intros j Hj. destruct (Z.eq_dec j x) as [->|Hne].
      + destruct Hc' as (_ & _ & Hlt & _). rewrite (Hlt x) by lia. lia.
      + specialize (Hlow j ltac:(lia)). lia. }
  destruct (for_range 1 n (cell_step_best s1 s2 y) (row_set row 0 y, Int32.sub y 1, y))
    as [[r p] b].
  destruct HP as (Hc & Hb & Hlow). cbn [fst snd] in *. split.
  - apply (cells_end y (r, p)); assumption.
  - intros x Hx. destruct (Z.eq_dec x 0) as [->|Hne].
    + rewrite table_y_0 by lia. exact Hb.
    + apply Hlow. lia.
Qed.

Lemma bound_rows_ok k (cnt : nat) y row :
  Int32.in_range k ->
  1 <= y -> y + Z.of_nat cnt = m + 1 -> row_ok (y - 1) row -> 0 < m \/ 0 < n ->
  let r := bound_rows s1 s2 n k y cnt row in
  (distance s1 s2 <= k -> r = distance s1 s2) /\ (k < distance s1 s2 -> k < r).
Proof.
  intros Hk. revert y row. induction cnt as [|cnt IH]; intros y row Hy Hcnt Hrow Hne.
  - cbn [bound_rows]. replace (y - 1) with m in Hrow by lia.
    destruct Hrow as [_ H]. rewrite H by sizes. rewrite table_full. lia.
  - cbn [bound_rows].
    destruct (row_step_best_ok y row ltac:(lia) Hrow) as [Hrow' Hlow].
    destruct (row_step_best s1 s2 n y row) as [row' best]. cbn [fst snd] in *.
    pose proof (below_row_last y best ltac:(lia) Hlow) as Hd.
    destruct (Z.gtb_spec best k) as [Hgt|Hle].
    + cbv zeta. split; [lia|]. intros _.
      assert (best <= y).
      { specialize (Hlow 0 ltac:(sizes)). rewrite table_y_0 in Hlow by lia. lia. }
      rewrite add_small; [lia|].
      unfold Int32.in_range, Int32.min_int, Int32.max_int in *. lia.
    + apply IH; [lia|lia| |exact Hne]. replace (y + 1 - 1) with y by lia. exact Hrow'.
Qed.

Lemma edit_distance_bound_table u k :
  Int32.in_range k -> 0 < m \/ 0 < n ->
  let r := edit_distance_bound u s1 s2 k in
  (distance s1 s2 <= k -> r = distance s1 s2) /\ (k < distance s1 s2 -> k < r).
Proof.
  intros Hk Hne. unfold edit_distance_bound. rewrite size_s1, size_s2.
  apply bound_rows_ok; [exact Hk|lia|pose proof m_pos; lia| |exact Hne].
  replace (1 - 1) with 0 by lia. apply init_row_ok.
Qed.

End Table.

Theorem edit_distance_correct (u : Z) (s t : string) :
  fits s t -> s <> EmptyString \/ t <> EmptyString ->
  edit_distance u s t = distance s t.
Proof.
  intros Hfit Hne. apply edit_distance_table; [exact Hfit|].
  destruct Hne as [H|H]; [left|right]; destruct s, t; cbn; try lia; congruence.
Qed.

Theorem edit_distance_bound_correct (u : Z) (s t : string) (k : Z) :
  fits s t -> s <> EmptyString \/ t <> EmptyString -> Int32.in_range k ->
  (distance s t <= k -> edit_distance_bound u s t k = distance s t) /\
  (k < distance s t -> k < edit_distance_bound u s t k).
Proof.
  intros Hfit Hne Hk. apply edit_distance_bound_table; [exact Hfit|exact Hk|].
  destruct Hne as [H|H]; [left|right]; destruct s, t; cbn; try lia; congruence.
Qed.

(** The metric laws, for [distance]. *)
Lemma distance_sym s t : distance s t = distance t s.
Proof. unfold distance. rewrite lev_sym. reflexivity. Qed.

Lemma distance_triangle a b c : distance a c <= distance a b + distance b c.
Proof. unfold distance. pose proof (lev_triangle (chars a) (chars b) (chars c)). lia. Qed.

Lemma distance_zero s t : distance s t = 0 <-> s = t.
Proof.
  unfold distance. split.
  - intros H. apply chars_inj, lev_zero. lia.
  - intros ->. assert (lev (chars t) (chars t) = 0%nat) by (apply lev_zero; reflexivity). lia.
Qed.

Lemma distance_bound s t :
  0 <= distance s t <= Z.of_nat (String.length s) + Z.of_nat (String.length t).
Proof.
  unfold distance. pose proof (lev_le_sum (chars s) (chars t)) as H.
  rewrite !length_chars in H. lia.
Qed.

End DistanceFacts.

(** * Theorems: the BK-tree *)

Module TreeFacts.
Import DistanceFacts.

Lemma tree_ind (P : BkTree -> Prop) :
  (forall v cs, Forall (fun kc => P (snd kc)) cs -> P (Node v cs)) ->
  forall t, P t.
Proof.
  intros H. fix IH 1. intros [v cs]. apply H.
  induction cs as [|[k c] cs IHcs]; constructor; [apply IH|exact IHcs].
Qed.

Lemma pivots_node v cs :
  pivots (Node v cs) = v :: flat_map (fun kc => pivots (snd kc)) cs.
Proof.
  cbn [pivots]. f_equal. induction cs as [|[k c] cs IH]; [reflexivity|].
  cbn [flat_map snd]. rewrite <- IH. reflexivity.
Qed.

Lemma value_in_pivots t : In (value t) (pivots t).
Proof. destruct t as [v cs]. rewrite pivots_node. left. reflexivity. Qed.

Section Insert.

Variable u : Z.

Lemma insert_node v cs word :
  insert u (Node v cs) word =
  Node v (insert_into u (edit_distance u v word) word cs).
Proof. reflexivity. Qed.

(** [insert] in terms of [find]: a fresh leaf under an absent key, the
    recursive call under a present one. *)
Lemma find_insert_into d word cs :
  StronglySorted (fun a b : Z * BkTree => fst a < fst b) cs ->
  find d (insert_into u d word cs) =
    match find d cs with
    | None => Some (leaf word)
    | Some c => Some (insert u c word)
    end.
Proof.
  induction 1 as [|[k c] cs Hs IH Hall]; cbn [insert_into find].
  - rewrite Z.eqb_refl. reflexivity.
  - destruct (Z.eqb_spec d k) as [->|Hne].
    + cbn [find]. rewrite Z.eqb_refl. reflexivity.
    + destruct (Z.ltb_spec d k) as [Hlt|Hge]; cbn [find].
      * rewrite Z.eqb_refl.
        destruct (Z.eqb_spec d k); [lia|].
        assert (Hnone : find d cs = None).
        { clear IH Hs. induction cs as [|[k' c'] cs IHcs]; [reflexivity|].
          inversion Hall as [|? ? Hk' Hrest]; subst. cbn [fst] in Hk'. cbn [find].
          destruct (Z.eqb_spec d k'); [lia|]. apply IHcs; assumption. }
        rewrite Hnone. reflexivity.
      * destruct (Z.eqb_spec d k); [lia|]. exact IH.
Qed.

Lemma find_other d d' word cs :
  d' <> d -> find d' (insert_into u d word cs) = find d' cs.
Proof.
  intros Hne. induction cs as [|[k c] cs IH]; cbn [insert_into find].
  - destruct (Z.eqb_spec d' d); [lia|reflexivity].
  - destruct (Z.eqb_spec d k) as [->|Hdk].
    + cbn [find]. destruct (Z.eqb_spec d' k); [lia|reflexivity].
    + destruct (Z.ltb_spec d k); cbn [find].
      * destruct (Z.eqb_spec d' d); [lia|reflexivity].
      * rewrite IH. reflexivity.
Qed.

(** Every insertion adds one node, holding the word. *)
Lemma pivots_insert t word :
  Permutation (pivots (insert u t word)) (word :: pivots t).
Proof.
  induction t as [v cs IH] using tree_ind.
  rewrite insert_node, !pivots_node.
  set (d := edit_distance u v word). clearbody d.
  rewrite perm_swap. apply perm_skip.
  induction cs as [|[k c] cs IHcs]; cbn [insert_into flat_map snd].
  - rewrite app_nil_r. reflexivity.
  - inversion IH as [|? ? Hc Hcs]; subst. cbn [snd] in Hc.
    destruct (d =? k).
    + cbn [flat_map snd]. rewrite Hc. reflexivity.
    + destruct (d <? k); cbn [flat_map snd].
      * reflexivity.
      * rewrite (IHcs Hcs). symmetry. apply Permutation_middle.
Qed.

Lemma in_pivots_insert t word x :
  In x (pivots (insert u t word)) <-> x = word \/ In x (pivots t).
Proof.
  split; intros H.
  - apply (Permutation_in _ (pivots_insert t word)) in H. destruct H; auto.
  - apply (Permutation_in _ (Permutation_sym (pivots_insert t word))).
    destruct H; [left|right]; auto.
Qed.

Lemma insert_into_sorted d word cs :
  StronglySorted (fun a b : Z * BkTree => fst a < fst b) cs ->
  StronglySorted (fun a b : Z * BkTree => fst a < fst b) (insert_into u d word cs).
Proof.
  induction 1 as [|[k c] cs Hs IH Hall]; cbn [insert_into].
  - repeat constructor.
  - destruct (Z.eqb_spec d k) as [->|Hne].
    + constructor; assumption.
    + destruct (Z.ltb_spec d k) as [Hlt|Hge].
      * constructor; [constructor; assumption|].
        constructor; [cbn; lia|].
        eapply Forall_impl; [exact Hall|]. cbn. intros; lia.
      * constructor; [exact IH|].
        clear IH Hs. induction cs as [|[k' c'] cs IHcs]; cbn [insert_into].
        -- repeat constructor. cbn. lia.
        -- inversion Hall as [|? ? Hk' Hrest]; subst. cbn [fst] in Hk'.
           destruct (d =? k'); [constructor; assumption|].
           destruct (d <? k').
           ++ constructor; [cbn; lia|]. constructor; assumption.
           ++ constructor; [assumption|]. apply IHcs; assumption.
Qed.

(** The invariant survives an insertion whose distances are the true ones. *)
Lemma insert_wf t word :
  wf t ->
  (forall v, In v (pivots t) -> edit_distance u v word = distance v word) ->
  wf (insert u t word).
Proof.
  induction t as [v cs IH] using tree_ind. intros Hwf Hed.
  inversion Hwf as [? ? Hsorted Hall]; subst.
  rewrite insert_node. rewrite (Hed v) by (rewrite pivots_node; left; reflexivity).
  constructor; [apply insert_into_sorted; exact Hsorted|].
  assert (Hsub : forall kc, In kc cs -> forall x, In x (pivots (snd kc)) ->
                   In x (pivots (Node v cs))).
  { intros kc Hkc x Hx. rewrite pivots_node. right. apply in_flat_map.
    exists kc. split; assumption. }
  clear Hsorted Hwf.
  induction cs as [|[k c] cs IHcs]; cbn [insert_into].
  - constructor; [|constructor]. cbn. split; [repeat constructor|].
    intros w [<-|[]]. reflexivity.
  - inversion Hall as [|? ? [Hc Hk] Hrest]; subst.
    inversion IH as [|? ? IHc IHrest]; subst. cbn [snd fst] in *.
    destruct (Z.eqb_spec (distance v word) k) as [E|E].
    + constructor; [|exact Hrest]. cbn [snd fst]. split.
      * apply IHc; [exact Hc|]. intros x Hx. apply Hed.
        apply (Hsub (k, c)); [left; reflexivity|exact Hx].
      * intros w Hw. apply in_pivots_insert in Hw. destruct Hw as [->|Hw]; auto.
    + destruct (distance v word <? k).
      * constructor; [|constructor; [split; assumption|exact Hrest]].
        cbn. split; [repeat constructor|]. intros w [<-|[]]. reflexivity.
      * constructor; [split; assumption|].
        apply IHcs; [exact IHrest| |exact Hrest|].
        -- intros x Hx. apply Hed. rewrite pivots_node in *.
           destruct Hx as [->|Hx]; [left; reflexivity|].
           right. cbn [flat_map snd]. apply in_or_app. right. exact Hx.
        -- intros kc Hkc x Hx. specialize (Hsub kc (or_intror Hkc) x Hx).
           rewrite pivots_node in *. destruct Hsub as [->|Hs]; [left; reflexivity|].
           right. cbn [flat_map snd] in Hs. apply in_app_or in Hs.
           destruct Hs as [Hs|Hs]; [|exact Hs].
           apply in_flat_map. exists kc. split; assumption.
Qed.

End Insert.


Section Query.

Variable u : Z.

Local Abbreviation by_key := (fun a b : Z * BkTree => fst a < fst b).

Lemma query_node v cs word n out count :
  query u (Node v cs) word n (out, count) =
  let d := edit_distance u v word in
  let it := lower_bound (Int32.sub d n) cs in
  let e := upper_bound (Int32.add d n) cs in
  if (e <? it)%nat then None
  else visit_children u word n it e O cs
         (if d <=? n then out ++ [v] else out, Int32.add count 1).
Proof. reflexivity. Qed.

(** In a sorted map the positions before [lower_bound lo] are those of the
    keys below [lo]; before [upper_bound hi], of the keys up to [hi]. *)
Lemma lower_bound_spec lo cs :
  StronglySorted by_key cs ->
  forall i k c, cs !! i = Some (k, c) -> (i < lower_bound lo cs)%nat <-> k < lo.
Proof.
  induction 1 as [|[k0 c0] cs Hs IH Hall]; intros i k c Hi; [discriminate|].
  cbn [lower_bound]. destruct i as [|i]; cbn in Hi.
  - injection Hi as -> ->. destruct (Z.ltb_spec k lo); lia.
  - specialize (IH i k c Hi).
    assert (k0 < k).
    { rewrite Forall_forall in Hall.
      apply (Hall (k, c)). eapply list_elem_of_lookup_2; eauto. }
    destruct (Z.ltb_spec k0 lo); lia.
Qed.

Lemma upper_bound_spec hi cs :
  StronglySorted by_key cs ->
  forall i k c, cs !! i = Some (k, c) -> (i < upper_bound hi cs)%nat <-> k <= hi.
Proof.
  induction 1 as [|[k0 c0] cs Hs IH Hall]; intros i k c Hi; [discriminate|].
  cbn [upper_bound]. destruct i as [|i]; cbn in Hi.
  - injection Hi as -> ->. destruct (Z.leb_spec k hi); lia.
  - specialize (IH i k c Hi).
    assert (k0 < k).
    { rewrite Forall_forall in Hall.
      apply (Hall (k, c)). eapply list_elem_of_lookup_2; eauto. }
    destruct (Z.leb_spec k0 hi); lia.
Qed.

Lemma lower_le_upper lo hi cs :
  lo <= hi -> (lower_bound lo cs <= upper_bound hi cs)%nat.
Proof.
  intros H. induction cs as [|[k c] cs IH]; cbn [lower_bound upper_bound]; [lia|].
  destruct (Z.ltb_spec k lo), (Z.leb_spec k hi); lia.
Qed.

Lemma visit_children_ok q n it e lo hi l :
  forall i out count,
  (forall j k c, l !! j = Some (k, c) ->
     ((it <= i + j)%nat /\ (i + j < e)%nat <-> lo <= k <= hi)) ->
  Forall (fun kc => lo <= fst kc <= hi -> query_appends u q n (snd kc)) l ->
  exists out' count',
    visit_children u q n it e i l (out, count) = Some (out ++ out', count') /\
    forall x, In x out' <->
      exists kc, In kc l /\ lo <= fst kc <= hi /\
                 In x (pivots (snd kc)) /\ distance x q <= n.
Proof.
  induction l as [|[k c] l IH]; intros i out count Hidx Hall; cbn [visit_children].
  - exists [], count. rewrite app_nil_r. split; [reflexivity|].
    intros x. split; [intros []|intros (kc & [] & _)].
  - inversion Hall as [|? ? Hc Hrest]; subst. cbn [fst snd] in Hc.
    assert (Hidx' : forall j k' c', l !! j = Some (k', c') ->
              ((it <= Datatypes.S i + j)%nat /\ (Datatypes.S i + j < e)%nat
               <-> lo <= k' <= hi)).
    { intros j k' c' Hj. specialize (Hidx (Datatypes.S j) k' c' Hj).
      replace (i + Datatypes.S j)%nat with (Datatypes.S i + j)%nat in Hidx by lia.
      exact Hidx. }
    specialize (Hidx O k c eq_refl). rewrite Nat.add_0_r in Hidx.
    destruct (Nat.leb_spec it i), (Nat.ltb_spec i e); cbn [andb].
    + destruct (Hc ltac:(lia) out count) as (o1 & c1 & -> & Ho1).
      destruct (IH (Datatypes.S i) (out ++ o1) c1 Hidx' Hrest) as (o2 & c2 & -> & Ho2).
      exists (o1 ++ o2), c2. rewrite app_assoc. split; [reflexivity|].
      intros x. rewrite in_app_iff, Ho1, Ho2. split.
      * intros [[Hx Hd]|(kc & Hkc & Hr)].
        -- exists (k, c). cbn [fst snd]. split; [left; reflexivity|]. split; [lia|auto].
        -- exists kc. split; [right; exact Hkc|exact Hr].
      * intros (kc & [<-|Hkc] & Hr); [left; cbn in Hr; tauto|].
        right. exists kc. split; assumption.
    + destruct (IH (Datatypes.S i) out count Hidx' Hrest) as (o2 & c2 & -> & Ho2).
      exists o2, c2. split; [reflexivity|]. intros x. rewrite Ho2. split.
      * intros (kc & Hkc & Hr). exists kc. split; [right; exact Hkc|exact Hr].
      * intros (kc & [<-|Hkc] & Hr); [cbn in Hr; lia|]. exists kc. split; assumption.
    + destruct (IH (Datatypes.S i) out count Hidx' Hrest) as (o2 & c2 & -> & Ho2).
      exists o2, c2. split; [reflexivity|]. intros x. rewrite Ho2. split.
      * intros (kc & Hkc & Hr). exists kc. split; [right; exact Hkc|exact Hr].
      * intros (kc & [<-|Hkc] & Hr); [cbn in Hr; lia|]. exists kc. split; assumption.
    + destruct (IH (Datatypes.S i) out count Hidx' Hrest) as (o2 & c2 & -> & Ho2).
      exists o2, c2. split; [reflexivity|]. intros x. rewrite Ho2. split.
      * intros (kc & Hkc & Hr). exists kc. split; [right; exact Hkc|exact Hr].
      * intros (kc & [<-|Hkc] & Hr); [cbn in Hr; lia|]. exists kc. split; assumption.
Qed.

(** [query] on a well-formed tree, when the distances to the query word are
    the true ones and [d + n] stays an [int] at every node. *)
Lemma query_ok q n t :
  0 <= n -> wf t ->
  (forall v, In v (pivots t) ->
     edit_distance u v q = distance v q /\ distance v q + n <= Int32.max_int) ->
  query_appends u q n t.
Proof.
  intros Hn. induction t as [v cs IH] using tree_ind. intros Hwf Hed out count.
  inversion Hwf as [? ? Hsorted Hall]; subst.
  destruct (Hed v) as [Hv Hmax]; [rewrite pivots_node; left; reflexivity|].
  rewrite query_node, Hv. cbv zeta.
  pose proof (distance_bound v q) as [Hd0 _].
  rewrite Int32Facts.sub_small, Int32Facts.add_small
    by (unfold Int32.min_int, Int32.max_int in *; lia).
  pose proof (lower_le_upper (distance v q - n) (distance v q + n) cs ltac:(lia)) as Hle.
  destruct (Nat.ltb_spec (upper_bound (distance v q + n) cs)
              (lower_bound (distance v q - n) cs)) as [|_]; [lia|].
  destruct (visit_children_ok q n
              (lower_bound (distance v q - n) cs) (upper_bound (distance v q + n) cs)
              (distance v q - n) (distance v q + n) cs O
              (if distance v q <=? n then out ++ [v] else out) (Int32.add count 1))
    as (o & c' & Hvisit & Ho).
  - intros j k c Hj. cbn [Nat.add].
    pose proof (lower_bound_spec (distance v q - n) cs Hsorted j k c Hj).
    pose proof (upper_bound_spec (distance v q + n) cs Hsorted j k c Hj). lia.
  - rewrite Forall_forall in IH, Hall |- *. intros kc Hkc _.
    destruct (Hall kc Hkc) as [Hwfc _].
    apply (IH kc Hkc Hwfc). intros x Hx. apply Hed. rewrite pivots_node. right.
    apply in_flat_map. exists kc. split; [apply list_elem_of_In; exact Hkc|exact Hx].
  - rewrite Hvisit.
    exists ((if distance v q <=? n then [v] else []) ++ o), c'. split.
    { destruct (distance v q <=? n); [rewrite <- app_assoc|]; reflexivity. }
    intros x. rewrite in_app_iff, Ho, pivots_node. split.
    + intros [Hx|(kc & Hkc & Hk & Hx & Hd)].
      * destruct (Z.leb_spec (distance v q) n); [|destruct Hx].
        destruct Hx as [<-|[]]. split; [left; reflexivity|lia].
      * split; [|exact Hd]. right. apply in_flat_map. exists kc. split; assumption.
    + intros [[<-|Hx] Hd].
      * left. destruct (Z.leb_spec (distance v q) n); [left; reflexivity|lia].
      * right. apply in_flat_map in Hx. destruct Hx as (kc & Hkc & Hx).
        exists kc. split; [exact Hkc|]. split; [|split; assumption].
        rewrite Forall_forall in Hall.
        destruct (Hall kc ltac:(apply list_elem_of_In; exact Hkc)) as [_ Hk].
        rewrite <- (Hk x Hx).
        pose proof (distance_triangle v x q). pose proof (distance_triangle v q x).
        rewrite (distance_sym q x) in *. lia.
Qed.

End Query.


Section Index.

Variable u : Z.

Lemma callable_distance v w : callable v w -> edit_distance u v w = distance v w.
Proof. intros [Hne Hfit]. apply edit_distance_correct; assumption. Qed.

Lemma callable_sym v w : callable v w -> callable w v.
Proof. unfold callable, fits. intros [Hne Hfit]. split; [tauto|lia]. Qed.

Lemma dictionary_ok_perm words words' :
  Permutation words words' -> dictionary_ok words -> dictionary_ok words'.
Proof.
  unfold dictionary_ok. induction 1 as [|x l l' Hp IH|x y l|l l' l'' _ IH1 _ IH2];
    intros Hok.
  - exact Hok.
  - inversion Hok as [|? ? Hx Hl]; subst. constructor; [|apply IH; exact Hl].
    rewrite <- Hp. exact Hx.
  - inversion Hok as [|? ? Hy Hl]; subst. inversion Hl as [|? ? Hx Hl']; subst.
    inversion Hy as [|? ? Hyx Hyl]; subst.
    constructor; [constructor; [apply callable_sym; exact Hyx|exact Hx]|].
    constructor; assumption.
  - auto.
Qed.

(** Distinct short words make a dictionary ... *)
Lemma distinct_words_ok words :
  NoDup words -> (forall v w, In v words -> In w words -> fits v w) ->
  dictionary_ok words.
Proof.
  unfold dictionary_ok. induction 1 as [|w ws Hnotin Hnd IH]; intros Hfit;
    constructor.
  - rewrite Forall_forall. intros v Hv. apply list_elem_of_In in Hv as Hv'. split.
    + destruct (string_dec w EmptyString) as [->|]; [|left; assumption].
      right. intros ->. apply Hnotin. exact Hv.
    + apply Hfit; [left; reflexivity|right; exact Hv'].
  - apply IH. intros v w' Hv Hw'. apply Hfit; right; assumption.
Qed.

(** ... and so do short non-empty words. *)
Lemma nonempty_words_ok words :
  Forall (fun w => w <> EmptyString) words ->
  (forall v w, In v words -> In w words -> fits v w) ->
  dictionary_ok words.
Proof.
  unfold dictionary_ok. induction 1 as [|w ws Hw Hws IH]; intros Hfit; constructor.
  - rewrite Forall_forall. intros v Hv. apply list_elem_of_In in Hv. split.
    + left. exact Hw.
    + apply Hfit; [left; reflexivity|right; exact Hv].
  - apply IH. intros v w' Hv Hw'. apply Hfit; right; assumption.
Qed.

Lemma fold_insert_pivots ws t :
  Permutation (pivots (fold_left (insert u) ws t)) (pivots t ++ ws).
Proof.
  revert t. induction ws as [|w ws IH]; intros t; cbn [fold_left].
  - rewrite app_nil_r. reflexivity.
  - rewrite IH, pivots_insert. cbn [app]. apply Permutation_middle.
Qed.

Lemma fold_insert_wf ws t :
  wf t ->
  (forall v w, In v (pivots t) -> In w ws -> callable v w) ->
  dictionary_ok ws ->
  wf (fold_left (insert u) ws t).
Proof.
  revert t. induction ws as [|w ws IH]; intros t Hwf Hed Hok; cbn [fold_left];
    [exact Hwf|].
  inversion Hok as [|? ? Hw Hws]; subst. rewrite Forall_forall in Hw.
  apply IH; [| |exact Hws].
  - apply insert_wf; [exact Hwf|]. intros v Hv. apply callable_distance.
    apply Hed; [exact Hv|left; reflexivity].
  - intros v w' Hv Hw'. apply in_pivots_insert in Hv. destruct Hv as [->|Hv].
    + apply Hw, list_elem_of_In, Hw'.
    + apply Hed; [exact Hv|right; exact Hw'].
Qed.

Lemma wf_leaf w : wf (leaf w).
Proof. constructor; constructor. Qed.

(** The index [main] builds is well formed and holds the words read. *)
Lemma build_ok words :
  words <> [] -> dictionary_ok words ->
  exists t, build u words = Some t /\ wf t /\ Permutation (pivots t) words.
Proof.
  intros Hne Hok. destruct words as [|w0 ws]; [congruence|].
  inversion Hok as [|? ? Hw0 Hws]; subst. rewrite Forall_forall in Hw0.
  exists (fold_left (insert u) ws (leaf w0)). split; [reflexivity|]. split.
  - apply fold_insert_wf; [apply wf_leaf| |exact Hws].
    intros v w [<-|[]] Hw. apply Hw0, list_elem_of_In, Hw.
  - apply fold_insert_pivots.
Qed.

(** The indexed query emits exactly the words within [n] of the query word,
    as long as [d + n] cannot leave the range of [int] and [edit_distance]
    is never called on two empty strings. *)
Theorem indexed_query_correct words q n :
  words <> [] -> dictionary_ok words -> 0 <= n -> query_ok_for words q n ->
  exists out, indexed_query u words q n = Some out /\
    forall x, In x out <-> In x words /\ distance x q <= n.
Proof.
  intros Hne Hok Hn Hfit.
  destruct (build_ok words Hne Hok) as (t & Hb & Hwf & Hperm).
  unfold indexed_query. rewrite Hb.
  assert (Hq : forall v, In v (pivots t) ->
            edit_distance u v q = distance v q /\ distance v q + n <= Int32.max_int).
  { intros v Hv. apply (Permutation_in _ Hperm) in Hv.
    destruct (Hfit v Hv) as [Hne' Hlen]. pose proof (distance_bound v q).
    split; [|lia]. apply edit_distance_correct; [unfold fits; lia|exact Hne']. }
  destruct (query_ok u q n t Hn Hwf Hq [] 0) as (out & count & -> & Hout).
  exists out. split; [reflexivity|]. intros x. rewrite Hout. split.
  - intros [Hx Hd]. split; [apply (Permutation_in _ Hperm); exact Hx|exact Hd].
  - intros [Hx Hd]. split; [|exact Hd].
    apply (Permutation_in _ (Permutation_sym Hperm)); exact Hx.
Qed.

(** The brute-force scan keeps exactly the same words. *)
Theorem brute_force_correct words q n :
  words <> [] -> 0 <= n -> query_ok_for words q n ->
  forall x, In x (brute_force u words q n) <-> In x words /\ distance x q <= n.
Proof.
  intros Hne Hn Hfit x. unfold brute_force. rewrite filter_In.
  assert (Hrange : Int32.in_range n).
  { destruct words as [|w0 ws]; [congruence|].
    destruct (Hfit w0 (or_introl eq_refl)) as [_ H].
    unfold Int32.in_range, Int32.min_int, Int32.max_int in *. lia. }
  split; intros [Hx H]; (split; [exact Hx|]);
    destruct (Hfit x Hx) as [Hne' Hlen];
    (destruct (edit_distance_bound_correct u x q n) as [Hle Hgt];
       [unfold fits; lia|exact Hne'|exact Hrange|]).
  - apply Z.leb_le in H. destruct (Z_le_gt_dec (distance x q) n); lia.
  - apply Z.leb_le. rewrite Hle; lia.
Qed.

(** Hence the two branches of [main] print the same set of words ... *)
Corollary indexed_query_brute_force words q n :
  words <> [] -> dictionary_ok words -> 0 <= n -> query_ok_for words q n ->
  exists out, indexed_query u words q n = Some out /\
    forall x, In x out <-> In x (brute_force u words q n).
Proof.
  intros Hne Hok Hn Hfit.
  destruct (indexed_query_correct words q n Hne Hok Hn Hfit) as (out & Hq & Hout).
  exists out. split; [exact Hq|]. intros x. rewrite Hout.
  symmetry. apply brute_force_correct; assumption.
Qed.

(** ... and the set does not depend on the order of the word list. *)
Corollary indexed_query_order words words' q n :
  Permutation words words' ->
  words <> [] -> dictionary_ok words -> 0 <= n -> query_ok_for words q n ->
  exists out out',
    indexed_query u words q n = Some out /\
    indexed_query u words' q n = Some out' /\
    forall x, In x out <-> In x out'.
Proof.
  intros Hperm Hne Hok Hn Hfit.
  assert (Hne' : words' <> []).
  { intros ->. apply Permutation_nil_r in Hperm. congruence. }
  pose proof (dictionary_ok_perm words words' Hperm Hok) as Hok'.
  assert (Hfit' : query_ok_for words' q n).
  { intros w Hw. apply Hfit, (Permutation_in _ (Permutation_sym Hperm)), Hw. }
  destruct (indexed_query_correct words q n Hne Hok Hn Hfit) as (out & Hq & Hout).
  destruct (indexed_query_correct words' q n Hne' Hok' Hn Hfit') as (out' & Hq' & Hout').
  exists out, out'. split; [exact Hq|]. split; [exact Hq'|].
  intros x. rewrite Hout, Hout'. split; intros [Hx Hd]; (split; [|exact Hd]).
  - apply (Permutation_in _ Hperm), Hx.
  - apply (Permutation_in _ (Permutation_sym Hperm)), Hx.
Qed.

(** The edges of a well-formed tree are as the specification asks. *)
Lemma wf_edges t : wf t -> edges_ok t.
Proof.
  induction t as [v cs IH] using tree_ind. intros Hwf.
  inversion Hwf as [? ? Hsorted Hall]; subst. constructor.
  - clear IH Hall Hwf. induction Hsorted as [|[k c] cs Hs IHs Hk]; cbn [map]; constructor.
    + cbn [fst]. intros Hin. apply list_elem_of_In, in_map_iff in Hin.
      destruct Hin as ([k' c'] & Hk' & Hin). cbn [fst] in Hk'. subst k'.
      rewrite Forall_forall in Hk.
      specialize (Hk (k, c') ltac:(apply list_elem_of_In; exact Hin)).
      cbn in Hk. lia.
    + exact IHs.
  - rewrite Forall_forall in IH, Hall |- *. intros kc Hkc.
    destruct (Hall kc Hkc) as [Hc Hd]. split; [apply IH; assumption|].
    apply Hd, value_in_pivots.
Qed.

(** Inserting the words of a dictionary one after the other into a
    single-root tree keeps the edges right. *)
Theorem insertions_keep_edges w0 ws :
  dictionary_ok (w0 :: ws) -> edges_ok (fold_left (insert u) ws (leaf w0)).
Proof.
  intros Hok.
  destruct (build_ok (w0 :: ws) ltac:(discriminate) Hok) as (t & Hb & Hwf & _).
  injection Hb as <-. apply wf_edges, Hwf.
Qed.

End Index.

End TreeFacts.

(** * Theorems: the claims about the BK-tree *)

Module BkClaims.
Import DistanceFacts TreeFacts.

Example sample_query_bo u :
  indexed_query u sample_words "bo" 2 = Some ["book"; "boo"; "boon"].
Proof. vm_compute. reflexivity. Qed.

Example sample_query_cart u : indexed_query u sample_words "cart" 1 = Some ["cart"].
Proof. vm_compute. reflexivity. Qed.

Example sample_brute_force u :
  brute_force u sample_words "bo" 2 = ["book"; "boo"; "boon"].
Proof. vm_compute. reflexivity. Qed.

Example sample_distances u :
  edit_distance u "kitten" "sitting" = 3 /\ edit_distance u "flaw" "lawn" = 2 /\
  edit_distance u "" "abc" = 3 /\
  edit_distance_bound u "kitten" "sitting" 5 = 3 /\
  edit_distance_bound u "abc" "xyz" 1 = 2.
Proof. vm_compute. repeat split; reflexivity. Qed.

(** The general theorems are not vacuous: the word list of the scenario is a
    dictionary, "bo" with radius 2 a query for it. *)
Example sample_words_ok :
  dictionary_ok sample_words /\ query_ok_for sample_words "bo" 2.
Proof.
  split.
  - unfold dictionary_ok, sample_words.
    repeat match goal with
           | |- ForallOrdPairs _ _ => constructor
           | |- Forall _ _ => constructor
           end;
      (split; [left; discriminate|unfold fits, Int32.max_int; cbn [String.length]; lia]).
  - intros w Hw. unfold sample_words in Hw. cbn [In] in Hw.
    repeat (destruct Hw as [<-|Hw];
      [split; [left; discriminate|unfold Int32.max_int; cbn [String.length]; lia]|]).
    destruct Hw.
Qed.

Example sample_query_sound u :
  exists out, indexed_query u sample_words "bo" 2 = Some out /\
    forall x, In x out <-> In x sample_words /\ distance x "bo" <= 2.
Proof.
  destruct sample_words_ok as [Hd Hq].
  apply indexed_query_correct; [discriminate|exact Hd|lia|exact Hq].
Qed.

(** C1 (the code departs from the claim).  With the two-word dictionary
    "a", "b", the query word "b" and the radius [INT_MAX], the indexed query
    prints "a" only: at the root [d = 1], so [d + n] wraps to [INT_MIN],
    [upper_bound] returns [begin()] and no child is visited.  The word "b"
    is in the dictionary, at distance 0 of the query word. *)
Theorem indexed_query_max_radius (u : Z) :
  indexed_query u ["a"; "b"] "b" Int32.max_int = Some ["a"] /\
  In "b" ["a"; "b"] /\
  distance "b" "b" <= Int32.max_int.
Proof.
  split; [vm_compute; reflexivity|].
  split; [right; left; reflexivity|vm_compute; discriminate].
Qed.

(** The provisos on the two strings leave out one pair, and have to: for two
    empty strings no loop of either function runs and the result is
    [row[0]], a cell no statement has written.  No call of the program
    passes that pair: the first argument is always a word of the file, and
    [read_words] yields no empty word. *)
Remark empty_strings_unwritten_cell (u k : Z) :
  edit_distance u "" "" = u /\ edit_distance_bound u "" "" k = u.
Proof. split; reflexivity. Qed.

(** C2.  For two strings that are not both empty (every call of the program
    passes a word of the file first, which is not empty) and every bound
    [k]: with [d] the result of [edit_distance], which is the distance of
    the two strings, [edit_distance_bound] returns exactly [d] when
    [d <= k] and a value greater than [k] when [d > k]. *)
Theorem edit_distance_bound_exact_or_above (u : Z) (s t : string) (k : Z) :
  fits s t -> s <> EmptyString \/ t <> EmptyString -> Int32.in_range k ->
  edit_distance u s t = distance s t /\
  (edit_distance u s t <= k ->
     edit_distance_bound u s t k = edit_distance u s t) /\
  (k < edit_distance u s t -> k < edit_distance_bound u s t k).
Proof.
  intros Hfit Hne Hk.
  rewrite (edit_distance_correct u s t Hfit Hne).
  split; [reflexivity|].
  exact (edit_distance_bound_correct u s t k Hfit Hne Hk).
Qed.

Lemma edit_distance_bound_exact_or_above_witness :
  edit_distance 0 "kitten" "sitting" = distance "kitten" "sitting" /\
  (edit_distance 0 "kitten" "sitting" <= 2 ->
     edit_distance_bound 0 "kitten" "sitting" 2 = edit_distance 0 "kitten" "sitting") /\
  (2 < edit_distance 0 "kitten" "sitting" ->
     2 < edit_distance_bound 0 "kitten" "sitting" 2).
Proof.
  apply (edit_distance_bound_exact_or_above 0 "kitten" "sitting" 2).
  - unfold fits, Int32.max_int. cbn. lia.
  - left. discriminate.
  - unfold Int32.in_range, Int32.min_int, Int32.max_int. lia.
Defined.

(** C3 (the code departs from the claim).  On the input of C1 the brute-force
    scan prints both words, the indexed query only "a". *)
Theorem brute_force_max_radius (u : Z) :
  brute_force u ["a"; "b"] "b" Int32.max_int = ["a"; "b"] /\
  indexed_query u ["a"; "b"] "b" Int32.max_int = Some ["a"].
Proof. vm_compute. split; reflexivity. Qed.

(** C4.  On three strings of which at most one is empty (the program calls
    [edit_distance] on a word of the file and either another word of the
    file or the query word) the results of [edit_distance] satisfy the
    triangle inequality, and the result does not depend on the order of the
    two arguments. *)
Theorem edit_distance_triangle_symmetric (u : Z) (a b c : string) :
  fits a b -> fits b c -> fits a c ->
  a <> EmptyString \/ b <> EmptyString ->
  b <> EmptyString \/ c <> EmptyString ->
  a <> EmptyString \/ c <> EmptyString ->
  edit_distance u a c <= edit_distance u a b + edit_distance u b c /\
  edit_distance u a b = edit_distance u b a /\
  edit_distance u b c = edit_distance u c b /\
  edit_distance u a c = edit_distance u c a.
Proof.
  intros Hab Hbc Hac Nab Nbc Nac.
  assert (Hsym : forall x y, fits x y -> x <> EmptyString \/ y <> EmptyString ->
                   edit_distance u x y = distance x y /\
                   edit_distance u y x = distance x y).
  { intros x y Hf Hn. split; [apply edit_distance_correct; assumption|].
    rewrite (distance_sym x y). apply edit_distance_correct.
    - unfold fits in *. lia.
    - tauto. }
  destruct (Hsym a b Hab Nab) as [Eab Eba].
  destruct (Hsym b c Hbc Nbc) as [Ebc Ecb].
  destruct (Hsym a c Hac Nac) as [Eac Eca].
  rewrite Eab, Eba, Ebc, Ecb, Eac, Eca.
  split; [apply distance_triangle|]. repeat split.
Qed.

Lemma edit_distance_triangle_symmetric_witness :
  edit_distance 0 "book" "" <= edit_distance 0 "book" "cake" + edit_distance 0 "cake" "" /\
  edit_distance 0 "book" "cake" = edit_distance 0 "cake" "book" /\
  edit_distance 0 "cake" "" = edit_distance 0 "" "cake" /\
  edit_distance 0 "book" "" = edit_distance 0 "" "book".
Proof.
  apply (edit_distance_triangle_symmetric 0 "book" "cake" "");
    first [left; discriminate | unfold fits, Int32.max_int; cbn; lia].
Defined.

(** C5, as stated, fails: inserting "a" into the tree whose root is "a"
    (distance 0 to the pivot) stores a new node under the label 0. *)
Lemma insert_duplicate_adds_node :
  edit_distance 0 "a" "a" = 0 /\
  insert 0 (leaf "a") "a" = Node "a" [(0, leaf "a")] /\
  insert 0 (leaf "a") "a" <> leaf "a".
Proof. vm_compute. repeat split; try reflexivity. discriminate. Qed.

(** C5 (amended): when the word is at distance 0 of the pivot reached, the
    insertion treats 0 as any other label: the word goes into a fresh leaf
    under the label 0 if the node has no such edge, and into that child
    otherwise; the other edges and the pivot stay, and the tree has one more
    node, holding the word. *)
Theorem insert_at_distance_zero (u : Z) (t : BkTree) (word : string) :
  StronglySorted (fun a b : Z * BkTree => fst a < fst b) (children t) ->
  edit_distance u (value t) word = 0 ->
  value (insert u t word) = value t /\
  find 0 (children (insert u t word)) =
    Some (match find 0 (children t) with
          | None => leaf word
          | Some c => insert u c word
          end) /\
  (forall k, k <> 0 -> find k (children (insert u t word)) = find k (children t)) /\
  Permutation (pivots (insert u t word)) (word :: pivots t) /\
  insert u t word <> t.
Proof.
  intros Hs Hd. destruct t as [v cs]. cbn [value children] in *.
  rewrite insert_node, Hd. cbn [value children].
  split; [reflexivity|]. split; [|split; [|split]].
  - rewrite (find_insert_into u 0 word cs Hs). destruct (find 0 cs); reflexivity.
  - intros k Hk. apply find_other. exact Hk.
  - rewrite <- Hd, <- insert_node. apply pivots_insert.
  - intros E. pose proof (pivots_insert u (Node v cs) word) as Hp.
    rewrite insert_node, Hd, E in Hp. apply Permutation_length in Hp.
    cbn [length] in Hp. lia.
Qed.

Lemma insert_at_distance_zero_witness :
  value (insert 0 (leaf "a") "a") = value (leaf "a") /\
  find 0 (children (insert 0 (leaf "a") "a")) =
    Some (match find 0 (children (leaf "a")) with
          | None => leaf "a"
          | Some c => insert 0 c "a"
          end) /\
  (forall k, k <> 0 ->
     find k (children (insert 0 (leaf "a") "a")) = find k (children (leaf "a"))) /\
  Permutation (pivots (insert 0 (leaf "a") "a")) ("a" :: pivots (leaf "a")) /\
  insert 0 (leaf "a") "a" <> leaf "a".
Proof.
  apply (insert_at_distance_zero 0 (leaf "a") "a"); [constructor|reflexivity].
Defined.

Lemma dictionary_ok_take (k : nat) (words : list string) :
  dictionary_ok words -> dictionary_ok (take k words).
Proof.
  unfold dictionary_ok. intros Hok. revert k.
  induction Hok as [|w ws Hw Hws IH]; intros [|k]; cbn [take]; constructor.
  - apply Forall_take, Hw.
  - apply IH.
Qed.

(** C6.  Starting from the tree of a single root [w0], every sequence of
    insertions of words the program can hold (no two empty words meet in a
    call of [edit_distance]: the words of a file are not empty) keeps the
    edges as specified, after each insertion: the label of every edge is
    the distance of the two pivots it joins, and the labels below one node
    are pairwise distinct. *)
Theorem insertions_preserve_edges (u : Z) (w0 : string) (ws : list string) :
  dictionary_ok (w0 :: ws) ->
  forall k : nat, edges_ok (fold_left (insert u) (take k ws) (leaf w0)).
Proof.
  intros Hok k.
  pose proof (dictionary_ok_take (S k) (w0 :: ws) Hok) as Hk. cbn [take] in Hk.
  destruct (build_ok u (w0 :: take k ws) ltac:(discriminate) Hk) as (t & Hb & Hwf & _).
  injection Hb as <-. apply wf_edges, Hwf.
Qed.

Lemma insertions_preserve_edges_witness :
  dictionary_ok sample_words /\
  forall k : nat,
    edges_ok (fold_left (insert 0)
                (take k ["books"; "boo"; "boon"; "cook"; "cake"; "cape"; "cart"])
                (leaf "book")).
Proof.
  split; [exact (proj1 sample_words_ok)|].
  apply (insertions_preserve_edges 0 "book"
           ["books"; "boo"; "boon"; "cook"; "cake"; "cape"; "cart"]).
  exact (proj1 sample_words_ok).
Defined.

End BkClaims.

(** * Theorems: the corner finder *)

Module CornersFacts.
Import Corners.

(** ** The accumulator *)

Lemma sum_range_empty f lo hi : hi < lo -> sum_range f lo hi = 0.
Proof. intros; unfold sum_range; rewrite for_range_empty by lia; reflexivity. Qed.

Lemma sum_range_last f lo hi :
  lo <= hi -> sum_range f lo hi = sum_range f lo (hi - 1) + f hi.
Proof. intros; unfold sum_range; rewrite for_range_last by lia; reflexivity. Qed.

Lemma sum_range_ind (P : Z -> Z -> Prop) f lo hi :
  lo <= hi + 1 -> P lo 0 ->
  (forall j acc, lo <= j <= hi -> P j acc -> P (j + 1) (acc + f j)) ->
  P (hi + 1) (sum_range f lo hi).
Proof. intros. unfold sum_range. apply for_range_inv; auto. Qed.

Lemma sum_range_bump f g lo hi i0 :
  lo <= i0 <= hi ->
  (forall i, lo <= i <= hi -> i <> i0 -> g i = f i) ->
  g i0 = f i0 + 1 ->
  sum_range g lo hi = sum_range f lo hi + 1.
Proof.
  intros Hi Hne Heq.
  enough (H : sum_range g lo hi =
              sum_range f lo (hi + 1 - 1) + (if i0 <? hi + 1 then 1 else 0)).
  { rewrite H. replace (hi + 1 - 1) with hi by lia.
    destruct (Z.ltb_spec i0 (hi + 1)); lia. }
  apply (sum_range_ind
           (fun j acc => acc = sum_range f lo (j - 1) + (if i0 <? j then 1 else 0)));
    [lia| |].
  - rewrite sum_range_empty by lia. destruct (Z.ltb_spec i0 lo); lia.
  - intros j acc Hj ->. replace (j + 1 - 1) with j by lia.
    rewrite (sum_range_last f lo j) by lia.
    destruct (Z.eq_dec j i0) as [E|E].
    + rewrite E, Heq.
      destruct (Z.ltb_spec i0 i0), (Z.ltb_spec i0 (i0 + 1)); lia.
    + rewrite Hne by lia.
      destruct (Z.ltb_spec i0 j), (Z.ltb_spec i0 (j + 1)); lia.
Qed.

Lemma sum_range_ext f g lo hi :
  (forall i, lo <= i <= hi -> g i = f i) -> sum_range g lo hi = sum_range f lo hi.
Proof.
  intros H. unfold sum_range. apply for_range_ext. intros j t Hj. rewrite H by lia.
  reflexivity.
Qed.

Lemma sum_range_term_le f lo hi i0 :
  (forall i, lo <= i <= hi -> 0 <= f i) -> lo <= i0 <= hi ->
  f i0 <= sum_range f lo hi.
Proof.
  intros Hpos Hi.
  enough (H : 0 <= sum_range f lo hi /\ (i0 < hi + 1 -> f i0 <= sum_range f lo hi))
    by (apply H; lia).
  apply (sum_range_ind (fun j acc => 0 <= acc /\ (i0 < j -> f i0 <= acc))); [lia|lia|].
  intros j acc Hj [H0 H1]. specialize (Hpos j Hj). split; [lia|].
  intros Hlt. destruct (Z.eq_dec i0 j) as [->|Hn]; [lia|].
  specialize (H1 ltac:(lia)). lia.
Qed.

Lemma column_sum_eq m R a : column_sum m R a = sum_range (fun ri => cell m ri a) 0 (R - 1).
Proof. reflexivity. Qed.

Lemma fg_count_snoc l v : fg_count (l ++ [v]) = fg_count l + (if v =? 255 then 0 else 1).
Proof.
  unfold fg_count. rewrite List.filter_app, length_app. cbn.
  destruct (v =? 255); cbn; lia.
Qed.

Lemma fg_count_le l : 0 <= fg_count l <= Z.of_nat (length l).
Proof.
  unfold fg_count. pose proof (List.filter_length_le (fun p => negb (p =? 255)) l). lia.
Qed.

Lemma vote_spec rix g x y a m R :
  votes_ok R m -> R * kNumAngles <= Int32.max_int ->
  0 <= radius_bin rix g x y a < R -> 0 <= a < kNumAngles ->
  column_sum m R a < Int32.max_int ->
  exists m', vote rix g x y a m = Some m' /\ votes_ok R m' /\
    forall a', 0 <= a' < kNumAngles ->
      column_sum m' R a' = column_sum m R a' + (if a' =? a then 1 else 0).
Proof.
  intros [Hlen Hpos] HR Hri Ha Hsum. unfold vote.
  unfold kNumAngles, Int32.max_int in *.
  set (ri := radius_bin rix g x y a) in *.
  assert (Hidx : 0 <= ri * 360 + a < R * 360) by nia.
  rewrite (Z.mod_small (ri * 360 + a)) by lia.
  unfold cell_read, cell_write.
  destruct (Z.leb_spec 0 (ri * 360 + a)) as [_|]; [|lia].
  destruct (Z.ltb_spec (ri * 360 + a) (Z.of_nat (length m))) as [_|]; [|lia].
  destruct (m !! Z.to_nat (ri * 360 + a)) as [v|] eqn:Hv.
  2:{ apply lookup_ge_None in Hv. lia. }
  cbn [andb].
  assert (Hcell : cell m ri a = v).
  { unfold cell, kNumAngles. rewrite nth_lookup, Hv. reflexivity. }
  assert (Hle : v <= column_sum m R a).
  { rewrite column_sum_eq, <- Hcell.
    apply (sum_range_term_le (fun ri => cell m ri a)); [|lia].
    intros; apply Hpos. }
  assert (H0v : 0 <= v) by (rewrite <- Hcell; apply Hpos).
  rewrite (Z.mod_small (v + 1)) by lia.
  eexists; split; [reflexivity|]. split.
  - split.
    + rewrite length_insert. exact Hlen.
    + intros i. rewrite nth_lookup.
      destruct (decide (Z.to_nat (ri * 360 + a) = i)) as [<-|Hne].
      * rewrite list_lookup_insert_eq by lia. cbn. lia.
      * rewrite list_lookup_insert_ne by exact Hne. rewrite <- nth_lookup. apply Hpos.
  - intros a' Ha'. rewrite !column_sum_eq.
    destruct (Z.eqb_spec a' a) as [->|Hne].
    + apply (sum_range_bump _ _ 0 (R - 1) ri); [lia| |].
      * intros i Hi Hn. unfold cell, kNumAngles. rewrite !nth_lookup.
        rewrite list_lookup_insert_ne by lia. reflexivity.
      * unfold cell at 1. unfold kNumAngles. rewrite nth_lookup.
        rewrite list_lookup_insert_eq by lia. cbn. lia.
    + rewrite Z.add_0_r. apply sum_range_ext. intros i Hi.
      unfold cell, kNumAngles. rewrite !nth_lookup.
      rewrite list_lookup_insert_ne by lia. reflexivity.
Qed.

Lemma vote_angles rix g x y m R c :
  votes_ok R m -> R * kNumAngles <= Int32.max_int ->
  (forall a, 0 <= a < kNumAngles -> 0 <= radius_bin rix g x y a < R) ->
  (forall a, 0 <= a < kNumAngles -> column_sum m R a = c) ->
  c < Int32.max_int ->
  exists m',
    for_range 0 (kNumAngles - 1)
      (fun a st => match st with Some m => vote rix g x y a m | None => None end)
      (Some m) = Some m' /\
    votes_ok R m' /\
    forall a, 0 <= a < kNumAngles -> column_sum m' R a = c + 1.
Proof.
  intros Hok HR Hri Hsum Hc.
  pose (P := fun (a : Z) (st : option (list Z)) =>
     exists m', st = Some m' /\ votes_ok R m' /\
       forall a', 0 <= a' < kNumAngles ->
         column_sum m' R a' = c + (if a' <? a then 1 else 0)).
  assert (HP : P (kNumAngles - 1 + 1)
     (for_range 0 (kNumAngles - 1)
        (fun a st => match st with Some m => vote rix g x y a m | None => None end)
        (Some m))).
  { apply for_range_inv; [unfold kNumAngles; lia| |].
    - exists m. split; [reflexivity|]. split; [exact Hok|].
      intros a' Ha'. rewrite Hsum by lia. destruct (Z.ltb_spec a' 0); lia.
    - intros a st Ha (m1 & -> & Hok1 & Hs1).
      destruct (vote_spec rix g x y a m1 R Hok1 HR) as (m2 & Hv & Hok2 & Hs2).
      + apply Hri; lia.
      + lia.
      + rewrite Hs1 by lia. destruct (Z.ltb_spec a a); lia.
      + exists m2. split; [exact Hv|]. split; [exact Hok2|].
        intros a' Ha'. rewrite Hs2, Hs1 by lia.
        destruct (Z.eqb_spec a' a), (Z.ltb_spec a' a), (Z.ltb_spec a' (a + 1)); lia. }
  destruct HP as (m' & Hm' & Hok' & Hs'). exists m'. split; [exact Hm'|].
  split; [exact Hok'|]. intros a Ha. rewrite Hs' by lia.
  destruct (Z.ltb_spec a (kNumAngles - 1 + 1)); lia.
Qed.

Section Accumulate.

Variable rix : Z -> Z -> Z -> Z -> Z -> Z.
Variable g : graymap.
Hypothesis Hw : 0 <= gw g.
Hypothesis Hh : 0 <= gh g.
Hypothesis Hdata : Z.of_nat (length (gdata g)) = gw g * gh g.
Hypothesis Hsize : gw g * gh g <= Int32.max_int.
Hypothesis Hmap : gh g * kNumAngles <= Int32.max_int.
Hypothesis Hbin : forall x y a p,
  0 <= x < gw g -> 0 <= y < gh g -> 0 <= a < kNumAngles ->
  sample g x y = Some p -> p <> 255 -> 0 <= radius_bin rix g x y a < gh g.

Lemma sample_at x y :
  0 <= x < gw g -> 0 <= y < gh g ->
  exists p, sample g x y = Some p /\ gdata g !! Z.to_nat (y * gw g + x) = Some p.
Proof.
  intros Hx Hy. unfold sample, cell_read, Int32.add, Int32.wrap, Int32.modulus.
  unfold Int32.max_int in *.
  assert (0 <= y * gw g + x < gw g * gh g) by nia.
  assert (0 <= y * gw g <= gw g * gh g) by nia.
  rewrite (Z.mod_small (y * gw g + 2 ^ 31)) by lia.
  replace (y * gw g + 2 ^ 31 - 2 ^ 31 + x + 2 ^ 31) with (y * gw g + x + 2 ^ 31) by lia.
  rewrite (Z.mod_small (y * gw g + x + 2 ^ 31)) by lia.
  replace (y * gw g + x + 2 ^ 31 - 2 ^ 31) with (y * gw g + x) by lia.
  destruct (Z.leb_spec 0 (y * gw g + x)); [|lia].
  destruct (gdata g !! Z.to_nat (y * gw g + x)) as [p|] eqn:E.
  - exists p. split; reflexivity.
  - apply lookup_ge_None in E. lia.
Qed.

Lemma vote_pixel_inv x y st :
  0 <= x < gw g -> 0 <= y < gh g ->
  acc_inv g (y * gw g + x) st ->
  acc_inv g (y * gw g + x + 1) (vote_pixel rix g y x st).
Proof.
  intros Hx Hy (m & -> & Hok & Hs).
  destruct (sample_at x y Hx Hy) as (p & Hp & Hlk).
  assert (Hidx : 0 <= y * gw g + x < gw g * gh g) by nia.
  assert (Htake : take (Z.to_nat (y * gw g + x + 1)) (gdata g) =
                  take (Z.to_nat (y * gw g + x)) (gdata g) ++ [p]).
  { replace (Z.to_nat (y * gw g + x + 1))
      with (Datatypes.S (Z.to_nat (y * gw g + x))) by lia.
    apply take_S_r. exact Hlk. }
  unfold vote_pixel. rewrite Hp. unfold acc_inv. rewrite Htake, fg_count_snoc.
  destruct (Z.eqb_spec p 255) as [E|E].
  - exists m. split; [reflexivity|]. split; [exact Hok|].
    intros a Ha. rewrite Hs by lia. lia.
  - pose proof (fg_count_le (take (Z.to_nat (y * gw g + x)) (gdata g))) as Hc.
    rewrite length_take in Hc.
    destruct (vote_angles rix g x y m (gh g)
                (fg_count (take (Z.to_nat (y * gw g + x)) (gdata g))) Hok Hmap)
      as (m' & Hm' & Hok' & Hs').
    + intros a Ha. apply (Hbin x y a p); auto.
    + exact Hs.
    + unfold Int32.max_int in *. lia.
    + exists m'. split; [exact Hm'|]. split; [exact Hok'|]. exact Hs'.
Qed.

Lemma accumulate_inv : acc_inv g (gw g * gh g) (accumulate rix g).
Proof.
  unfold accumulate.
  replace (gw g * gh g) with ((gh g - 1 + 1) * gw g) by lia.
  apply (for_range_inv (fun y st => acc_inv g (y * gw g) st)); [lia| |].
  - exists (calloc_map (gh g)). split; [reflexivity|]. split.
    + unfold calloc_map. split.
      * rewrite length_replicate.
        unfold Int32.wrap, Int32.modulus, Int32.max_int, kNumAngles in *.
        rewrite Z.mod_small by lia. lia.
      * intros i. rewrite nth_lookup.
        destruct (replicate _ 0 !! i) as [v|] eqn:E; cbn; [|lia].
        apply lookup_replicate in E. lia.
    + intros a Ha. cbn [Z.mul Z.to_nat take]. rewrite column_sum_eq.
      unfold fg_count; cbn.
      apply (sum_range_ind (fun _ acc => acc = 0)); [lia|reflexivity|].
      intros j acc Hj ->. unfold cell, calloc_map. rewrite nth_lookup.
      destruct (replicate _ 0 !! _) as [v|] eqn:E; cbn; [|lia].
      apply lookup_replicate in E. lia.
  - intros y st Hy Hinv.
    replace ((y + 1) * gw g) with (y * gw g + (gw g - 1 + 1)) by lia.
    apply (for_range_inv (fun x st => acc_inv g (y * gw g + x) st)); [lia| |].
    + rewrite Z.add_0_r. exact Hinv.
    + intros x t Hx Ht. rewrite Z.add_assoc. apply vote_pixel_inv; [lia|lia|exact Ht].
Qed.

End Accumulate.

(** The votes of an image whose sizes are [int]s.  When the radius bin of
    every vote lies in the map, each angle bin holds, summed over the radius
    bins, one vote per foreground sample; no cell exceeds that count, which is
    at most [w * h], and no counter wraps. *)
Theorem hough_column_sums (rix : Z -> Z -> Z -> Z -> Z -> Z) (g : graymap) :
  0 <= gw g -> 0 <= gh g ->
  Z.of_nat (length (gdata g)) = gw g * gh g ->
  gw g * gh g <= Int32.max_int ->
  gh g * kNumAngles <= Int32.max_int ->
  (forall x y a p,
     0 <= x < gw g -> 0 <= y < gh g -> 0 <= a < kNumAngles ->
     sample g x y = Some p -> p <> 255 -> 0 <= radius_bin rix g x y a < gh g) ->
  exists m, accumulate rix g = Some m /\
    (forall a, 0 <= a < kNumAngles -> column_sum m (gh g) a = foreground g) /\
    (forall ri a, 0 <= ri < gh g -> 0 <= a < kNumAngles ->
       0 <= nth (Z.to_nat (ri * kNumAngles + a)) m 0 <= foreground g) /\
    foreground g <= gw g * gh g /\
    gw g * gh g < 2 ^ 32.
Proof.
  intros Hw Hh Hdata Hsize Hmap Hbin.
  destruct (accumulate_inv rix g Hw Hh Hdata Hsize Hmap Hbin) as (m & Hm & Hok & Hs).
  assert (Hall : take (Z.to_nat (gw g * gh g)) (gdata g) = gdata g).
  { apply take_ge. lia. }
  rewrite Hall in Hs. exists m. split; [exact Hm|]. split; [exact Hs|]. split; [|split].
  - intros ri a Hri Ha. split; [apply Hok|].
    change (foreground g) with (fg_count (gdata g)).
    rewrite <- (Hs a Ha), column_sum_eq.
    apply (sum_range_term_le (fun ri => cell m ri a)); [|lia].
    intros; apply Hok.
  - pose proof (fg_count_le (gdata g)). unfold foreground, fg_count in *. lia.
  - unfold Int32.max_int in *. lia.
Qed.

Lemma hough_column_sums_witness :
  exists m, accumulate (fun _ _ _ _ _ => 0) (Graymap 2 1 [0; 255]) = Some m /\
    (forall a, 0 <= a < kNumAngles -> column_sum m 1 a = 1) /\
    (forall ri a, 0 <= ri < 1 -> 0 <= a < kNumAngles ->
       0 <= nth (Z.to_nat (ri * kNumAngles + a)) m 0 <= 1) /\
    1 <= 2 * 1 /\
    2 * 1 < 2 ^ 32.
Proof.
  apply (hough_column_sums (fun _ _ _ _ _ => 0) (Graymap 2 1 [0; 255]));
    cbn [gw gh gdata];
    first [reflexivity | unfold Int32.max_int, kNumAngles; lia
          | intros; unfold radius_bin; lia].
Defined.

(** *** The radius bin in exact arithmetic *)

Lemma projection_le (c s x y W H : R) :
  (c * c + s * s = 1)%R -> (0 <= x <= W)%R -> (0 <= y <= H)%R ->
  (Rabs (c * x + s * y) <= sqrt (W * W + H * H))%R.
Proof.
  intros Hcs Hx Hy.
  apply Rsqr_incr_0_var; [|apply sqrt_pos].
  assert (0 <= W * W + H * H)%R by (pose proof (Rle_0_sqr W); pose proof (Rle_0_sqr H); unfold Rsqr in *; lra).
  rewrite <- Rsqr_abs, Rsqr_sqrt by assumption. unfold Rsqr.
  assert (Hid : ((c * x + s * y) * (c * x + s * y) + (c * y - s * x) * (c * y - s * x)
                 = (c * c + s * s) * (x * x + y * y))%R) by ring.
  rewrite Hcs in Hid.
  assert (0 <= (c * y - s * x) * (c * y - s * x))%R
    by (pose proof (Rle_0_sqr (c * y - s * x)) as Hq; unfold Rsqr in Hq; exact Hq).
  assert (x * x <= W * W)%R by nra.
  assert (y * y <= H * H)%R by nra.
  lra.
Qed.

Lemma exact_radius_index_inside (g : graymap) (x y a : Z) :
  0 <= x < gw g -> 0 <= y < gh g ->
  gw g * gw g + gh g * gh g <= Int32.max_int ->
  0 <= radius_bin exact_radius_index g x y a < gh g.
Proof.
  intros Hx Hy Hfit. unfold radius_bin, max_radius_square.
  assert (0 <= gw g * gw g) by nia. assert (gh g <= gh g * gh g) by nia.
  unfold Int32.add.
  rewrite (Int32Facts.wrap_small (gw g * gw g)), (Int32Facts.wrap_small (gh g * gh g)),
    (Int32Facts.wrap_small (gw g * gw g + gh g * gh g)), Int32Facts.sub_small
    by (unfold Int32.min_int, Int32.max_int in *; lia).
  unfold exact_radius_index.
  set (c := cos _). set (s := sin _).
  assert (Hcs : (c * c + s * s = 1)%R).
  { subst c s. pose proof (sin2_cos2 (IZR a * PI / IZR kNumAngles)) as E.
    unfold Rsqr in E. lra. }
  set (M := sqrt (IZR (gw g * gw g + gh g * gh g))).
  assert (HM : (0 < M)%R).
  { subst M. apply sqrt_lt_R0. apply IZR_lt. nia. }
  assert (Hr : (0 <= Rabs (c * IZR x + s * IZR y) <= M)%R).
  { split; [apply Rabs_pos|]. subst M. rewrite plus_IZR, !mult_IZR.
    apply projection_le; [exact Hcs| |]; split;
      try (apply IZR_le; lia). }
  set (r := Rabs (c * IZR x + s * IZR y)) in *.
  assert (Hk : (0 <= IZR (gh g - 1))%R) by (apply IZR_le; lia).
  assert (Hv : (0 <= r * IZR (gh g - 1) / M <= IZR (gh g - 1))%R).
  { split.
    - apply Rmult_le_pos; [nra|]. left. apply Rinv_0_lt_compat, HM.
    - apply (Rmult_le_reg_r M); [exact HM|].
      unfold Rdiv. rewrite Rmult_assoc, Rinv_l by lra. nra. }
  pose proof (Zfloor_bound (r * IZR (gh g - 1) / M)) as [Hlo Hhi].
  split.
  - assert (IZR (-1) < IZR (Zfloor (r * IZR (gh g - 1) / M)))%R.
    { rewrite <- (Rplus_0_r (IZR (-1))). change (IZR (-1)) with (-1)%R. lra. }
    apply lt_IZR in H1. lia.
  - assert (IZR (Zfloor (r * IZR (gh g - 1) / M)) <= IZR (gh g - 1))%R by lra.
    apply le_IZR in H1. lia.
Qed.

(** In exact arithmetic the votes of every image with [w*w + h*h] an [int]
    are as C10 says. *)
Theorem hough_column_sums_exact (g : graymap) :
  0 <= gw g -> 0 <= gh g ->
  Z.of_nat (length (gdata g)) = gw g * gh g ->
  gw g * gw g + gh g * gh g <= Int32.max_int ->
  exists m, accumulate exact_radius_index g = Some m /\
    (forall a, 0 <= a < kNumAngles -> column_sum m (gh g) a = foreground g) /\
    (forall ri a, 0 <= ri < gh g -> 0 <= a < kNumAngles ->
       0 <= nth (Z.to_nat (ri * kNumAngles + a)) m 0 <= foreground g) /\
    foreground g <= gw g * gh g /\
    gw g * gh g < 2 ^ 32.
Proof.
  intros Hw Hh Hdata Hfit. apply hough_column_sums; try assumption.
  - unfold Int32.max_int in *. nia.
  - unfold Int32.max_int, kNumAngles in *. nia.
  - intros x y a p Hx Hy _ _ _. apply exact_radius_index_inside; assumption.
Qed.

(** *** Images whose sizes overflow *)

Lemma accumulate_none_rows rix g lo hi :
  for_range lo hi (fun y st => for_range 0 (gw g - 1) (vote_pixel rix g y) st) None = None.
Proof.
  destruct (Z_lt_le_dec hi lo); [apply for_range_empty; lia|].
  apply (for_range_inv (fun _ st => st = None)); [lia|reflexivity|].
  intros y st _ ->. destruct (Z_lt_le_dec (gw g - 1) 0); [apply for_range_empty; lia|].
  apply (for_range_inv (fun _ st => st = None)); [lia|reflexivity|].
  intros x st _ ->. reflexivity.
Qed.

Lemma vote_none_angles rix g x y lo hi :
  for_range lo hi
    (fun a st => match st with Some m => vote rix g x y a m | None => None end) None
  = None.
Proof.
  destruct (Z_lt_le_dec hi lo); [apply for_range_empty; lia|].
  apply (for_range_inv (fun _ st => st = None)); [lia|reflexivity|].
  intros a st _ ->. reflexivity.
Qed.

(** A first vote that leaves the map ends the accumulation. *)
Lemma accumulate_first_vote rix g p :
  0 < gh g -> 0 < gw g -> sample g 0 0 = Some p -> p <> 255 ->
  vote rix g 0 0 0 (calloc_map (gh g)) = None ->
  accumulate rix g = None.
Proof.
  intros Hh Hw Hp Hfg Hvote. unfold accumulate.
  rewrite (for_range_first _ 0 (gh g - 1)) by lia.
  rewrite (for_range_first _ 0 (gw g - 1)) by lia.
  assert (Hfirst : vote_pixel rix g 0 0 (Some (calloc_map (gh g))) = None).
  { unfold vote_pixel. rewrite Hp.
    destruct (Z.eqb_spec p 255) as [E|_]; [contradiction|].
    rewrite (for_range_first _ 0 (kNumAngles - 1)) by (unfold kNumAngles; lia).
    rewrite Hvote. apply vote_none_angles. }
  rewrite Hfirst.
  assert (Hrest : for_range (0 + 1) (gw g - 1) (vote_pixel rix g 0) None = None).
  { destruct (Z_lt_le_dec (gw g - 1) (0 + 1)); [apply for_range_empty; lia|].
    apply (for_range_inv (fun _ st => st = None)); [lia|reflexivity|].
    intros x st _ ->. reflexivity. }
  rewrite Hrest. apply accumulate_none_rows.
Qed.

(** C10 (the code departs from the claim).  For an image of 5965233 rows
    [kNumRadii * kNumAngles] exceeds [INT_MAX]: the count passed to [calloc]
    is negative as an [int], no block of that size exists, and the first vote
    (of the dark sample at (0, 0), for the angle bin 0) already falls
    outside the map, whatever its radius bin.  The image has one foreground
    sample, and no cell counts it. *)
Theorem accumulate_tall_image (rix : Z -> Z -> Z -> Z -> Z -> Z) :
  Int32.max_int < gh tall_image * kNumAngles /\
  calloc_map (gh tall_image) = [] /\
  sample tall_image 0 0 = Some 0 /\
  accumulate rix tall_image = None.
Proof.
  split; [reflexivity|]. split; [reflexivity|]. split; [reflexivity|].
  apply (accumulate_first_vote rix tall_image 0);
    [reflexivity|reflexivity|reflexivity|discriminate|].
  unfold vote. change (calloc_map (gh tall_image)) with (@nil Z).
  unfold cell_read. destruct (0 <=? _); reflexivity.
Qed.

Lemma wide_image_background x :
  0 <= x < 65535 -> sample wide_image x 0 = Some 255.
Proof.
  intros Hx. unfold sample, wide_image. cbn [gw gdata].
  change (Int32.wrap (0 * 65536)) with 0.
  rewrite Int32Facts.add_small by (unfold Int32.min_int, Int32.max_int; lia).
  unfold cell_read. destruct (Z.leb_spec 0 (0 + x)); [|lia].
  rewrite lookup_app_l by (rewrite length_replicate; lia).
  apply lookup_replicate_2. lia.
Qed.

Lemma wide_image_foreground : sample wide_image 65535 0 = Some 0.
Proof.
  unfold sample, wide_image. cbn [gw gdata].
  change (Int32.add (Int32.wrap (0 * 65536)) 65535) with 65535.
  unfold cell_read. change (0 <=? 65535) with true. cbv iota.
  rewrite lookup_app_r by (rewrite length_replicate; lia).
  rewrite length_replicate, Nat.sub_diag. reflexivity.
Qed.

(** The square of the width overflows too.  For the 65536 x 2 image
    [w*w + h*h] wraps to 4, so [kMaxRadius] is 2; the vote of the pixel
    (65535, 0) for the angle bin 0, where [kCos] is 1 and [kSin] is 0, has
    the radius bin [(unsigned)(65535 * 1 / 2.0f) = 32767], far outside the
    two rows of the map: the increment leaves the allocated block. *)
Lemma accumulate_wide_image (rix : Z -> Z -> Z -> Z -> Z -> Z) :
  rix 4 1 65535 0 0 = 32767 ->
  max_radius_square wide_image = 4 /\
  foreground wide_image <= 65536 * 2 /\
  accumulate rix wide_image = None.
Proof.
  intros Hrix. split; [reflexivity|]. split.
  { unfold foreground, wide_image; cbn [gdata].
    pose proof (List.filter_length_le (fun p => negb (p =? 255))
                  (replicate (Z.to_nat 65535) 255 ++ 0 :: replicate (Z.to_nat 65536) 255)) as H.
    rewrite length_app in H. cbn [length] in H. rewrite !length_replicate in H. lia. }
  unfold accumulate. change (gh wide_image - 1) with 1.
  rewrite (for_range_first _ 0 1) by lia.
  match goal with
  | |- for_range _ _ _ ?s = None => assert (Hrow : s = None); [|rewrite Hrow; apply accumulate_none_rows]
  end.
  change (gw wide_image - 1) with 65535.
  rewrite (for_range_last _ 0 65535) by lia.
  assert (Hbefore : for_range 0 (65535 - 1) (vote_pixel rix wide_image 0)
                      (Some (calloc_map (gh wide_image)))
                    = Some (calloc_map (gh wide_image))).
  { apply (for_range_inv (fun _ st => st = Some (calloc_map (gh wide_image))));
      [lia|reflexivity|].
    intros x st Hx ->. unfold vote_pixel. rewrite wide_image_background by lia.
    reflexivity. }
  rewrite Hbefore. unfold vote_pixel. rewrite wide_image_foreground.
  change (0 =? 255) with false. cbv iota.
  rewrite (for_range_first _ 0 (kNumAngles - 1)) by (unfold kNumAngles; lia).
  assert (Hvote : vote rix wide_image 65535 0 0 (calloc_map (gh wide_image)) = None).
  { unfold vote, radius_bin.
    change (max_radius_square wide_image) with 4.
    change (Int32.sub (gh wide_image) 1) with 1.
    rewrite Hrix.
    change ((32767 * kNumAngles + 0) mod 2 ^ 32) with 11796120.
    unfold cell_read. change (0 <=? 11796120) with true. cbv iota.
    rewrite (proj2 (lookup_ge_None _ _)); [reflexivity|].
    unfold calloc_map. rewrite length_replicate.
    change (Int32.wrap (gh wide_image * kNumAngles)) with 720. lia. }
  rewrite Hvote. apply vote_none_angles.
Qed.


(** ** The suppression sweep *)

Lemma cell_index rd aii :
  0 <= rd -> 0 <= aii -> rd * kNumAngles + aii <= Int32.max_int ->
  Int32.add (Int32.wrap (rd * kNumAngles)) aii = rd * kNumAngles + aii.
Proof.
  intros Hrd Ha Hmax. unfold kNumAngles, Int32.max_int in *.
  rewrite Int32Facts.wrap_small by (unfold Int32.min_int, Int32.max_int; lia).
  apply Int32Facts.add_small. unfold Int32.min_int, Int32.max_int; lia.
Qed.

Lemma sweep_cell_inside L rd ad st :
  sweep_len L st -> 0 <= rd -> 0 <= wrap_angle ad ->
  rd * kNumAngles + wrap_angle ad < L -> L <= Int32.max_int ->
  sweep_len L (sweep_cell rd ad st).
Proof.
  intros (m & [[best besta] bestr] & -> & Hlen) Hrd Ha Hin HL.
  unfold sweep_cell. rewrite cell_index by lia.
  unfold cell_read, cell_write.
  destruct (Z.leb_spec 0 (rd * kNumAngles + wrap_angle ad)) as [_|];
    [|unfold kNumAngles in *; lia].
  destruct (m !! Z.to_nat (rd * kNumAngles + wrap_angle ad)) as [v|] eqn:E.
  2:{ apply lookup_ge_None in E. unfold kNumAngles in *; lia. }
  destruct (Z.ltb_spec (rd * kNumAngles + wrap_angle ad) (Z.of_nat (length m)));
    [|lia].
  cbn [andb]. eexists _, _. split; [reflexivity|]. rewrite length_insert. exact Hlen.
Qed.

Lemma sweep_cell_outside L rd ad st :
  sweep_len L st -> 0 <= rd -> 0 <= wrap_angle ad ->
  L <= rd * kNumAngles + wrap_angle ad <= Int32.max_int ->
  sweep_cell rd ad st = None.
Proof.
  intros (m & [[best besta] bestr] & -> & Hlen) Hrd Ha Hout.
  unfold sweep_cell. rewrite cell_index by lia.
  unfold cell_read.
  destruct (Z.leb_spec 0 (rd * kNumAngles + wrap_angle ad)) as [_|];
    [|unfold kNumAngles in *; lia].
  destruct (m !! Z.to_nat (rd * kNumAngles + wrap_angle ad)) as [v|] eqn:E;
    [|reflexivity].
  apply lookup_lt_Some in E. lia.
Qed.

Lemma sweep_row_none rd lo hi : for_range lo hi (sweep_cell rd) None = None.
Proof.
  destruct (Z_lt_le_dec hi lo).
  - apply for_range_empty; lia.
  - apply (for_range_inv (fun _ st => st = None)); [lia|reflexivity|].
    intros j t _ ->. reflexivity.
Qed.

Lemma sweep_row_inside L rd lo hi st :
  sweep_len L st -> 0 <= rd -> L <= Int32.max_int ->
  (forall ad, lo <= ad <= hi ->
     0 <= wrap_angle ad /\ rd * kNumAngles + wrap_angle ad < L) ->
  sweep_len L (for_range lo hi (sweep_cell rd) st).
Proof.
  intros Hst Hrd HL Hin. destruct (Z_lt_le_dec hi lo).
  - rewrite for_range_empty by lia. exact Hst.
  - apply (for_range_inv (fun _ st => sweep_len L st)); [lia|exact Hst|].
    intros j t Hj Ht. destruct (Hin j Hj). apply (sweep_cell_inside L); auto.
Qed.

Lemma wrap_angle_pos ad : 0 <= ad -> wrap_angle ad = ad.
Proof. intros H. unfold wrap_angle. destruct (Z.ltb_spec ad 0); lia. Qed.

(** Away from the last fifteen angle bins the sweep stays inside the grid:
    the radius index is clamped and the angle index wrapped from below. *)
Section SweepInside.

Variables R ri ai : Z.
Hypothesis Hri : 0 <= ri < R.
Hypothesis HR : R * kNumAngles <= Int32.max_int.
Hypothesis Hai : 0 <= ai.
Hypothesis Hhigh : ai + k / 2 < kNumAngles.

Lemma sweep_rows :
  imax (Int32.sub ri (k / 2)) 0 = Z.max (ri - 15) 0 /\
  imin (Int32.add ri (k / 2)) (Int32.sub R 1) = Z.min (ri + 15) (R - 1) /\
  Int32.sub ai (k / 2) = ai - 15 /\ Int32.add ai (k / 2) = ai + 15.
Proof.
  change (k / 2) with 15 in *. unfold kNumAngles, Int32.max_int in *.
  rewrite !Int32Facts.sub_small, !Int32Facts.add_small
    by (unfold Int32.min_int, Int32.max_int; lia).
  unfold imax, imin.
  destruct (Z.gtb_spec (ri - 15) 0), (Z.ltb_spec (ri + 15) (R - 1)); lia.
Qed.

Lemma wrap_angle_inside ad :
  ai - 15 <= ad <= ai + 15 -> 0 <= wrap_angle ad < kNumAngles.
Proof.
  intros Had. change (k / 2) with 15 in *. unfold wrap_angle, kNumAngles in *.
  destruct (Z.ltb_spec ad 0); [|lia].
  rewrite Int32Facts.add_small by (unfold Int32.min_int, Int32.max_int; lia). lia.
Qed.

Lemma window_cells_inside :
  Forall (fun c => 0 <= fst c < R /\ 0 <= snd c < kNumAngles) (window_cells R ri ai).
Proof.
  unfold window_cells. destruct sweep_rows as (-> & -> & -> & ->).
  apply (for_range_inv
           (fun _ acc => Forall (fun c => 0 <= fst c < R /\ 0 <= snd c < kNumAngles) acc));
    [lia|constructor|].
  intros rd acc Hrd Hacc.
  apply (for_range_inv
           (fun _ acc => Forall (fun c => 0 <= fst c < R /\ 0 <= snd c < kNumAngles) acc));
    [lia|exact Hacc|].
  intros ad acc' Had Hacc'. apply Forall_app. split; [exact Hacc'|].
  constructor; [|constructor]. cbn [fst snd]. split; [lia|].
  apply wrap_angle_inside. lia.
Qed.

Lemma nms_sweep_inside (m : list Z) :
  Z.of_nat (length m) = R * kNumAngles ->
  sweep_len (R * kNumAngles) (nms_sweep R ri ai m).
Proof.
  intros Hlen. unfold nms_sweep. destruct sweep_rows as (-> & -> & -> & ->).
  assert (Hai' : ai < kNumAngles) by (change (k / 2) with 15 in *; lia).
  rewrite cell_index by (unfold kNumAngles in *; nia).
  unfold cell_read.
  destruct (Z.leb_spec 0 (ri * kNumAngles + ai)); [|unfold kNumAngles in *; lia].
  destruct (m !! Z.to_nat (ri * kNumAngles + ai)) as [seed|] eqn:E.
  2:{ apply lookup_ge_None in E. unfold kNumAngles in *. nia. }
  apply (for_range_inv (fun _ st => sweep_len (R * kNumAngles) st)); [lia| |].
  - eexists _, _. split; [reflexivity|exact Hlen].
  - intros rd st Hrd Hst. apply sweep_row_inside; [exact Hst|lia|exact HR|].
    intros ad Had. pose proof (wrap_angle_inside ad Had). unfold kNumAngles in *.
    split; [lia|nia].
Qed.

End SweepInside.

(** C7 (the code departs from the claim).  In a map of three rows the
    sweep around the seed [(ri, ai) = (0, 348)] reaches [ad = 360]; the index
    is not wrapped ([aii = 360]), and in the last row the cell [(2, 360)] has
    the linear index [2 * 360 + 360], the size of the block: the access is
    outside it. *)
Theorem nms_sweep_leaves_grid (m : list Z) :
  Z.of_nat (length m) = 3 * kNumAngles ->
  nms_sweep 3 0 348 m = None /\
  In (2, 360) (window_cells 3 0 348) /\
  3 * kNumAngles <= 2 * kNumAngles + 360.
Proof.
  intros Hlen. split; [|split; [vm_compute; tauto | unfold kNumAngles; lia]].
  unfold nms_sweep.
  change (Int32.add (Int32.wrap (0 * kNumAngles)) 348) with 348.
  unfold cell_read at 1. cbn [Z.leb Z.compare].
  destruct (m !! Z.to_nat 348) as [seed|] eqn:E; [|reflexivity].
  change (imax (Int32.sub 0 (k / 2)) 0) with 0.
  change (imin (Int32.add 0 (k / 2)) (Int32.sub 3 1)) with 2.
  change (Int32.sub 348 (k / 2)) with 333.
  change (Int32.add 348 (k / 2)) with 363.
  rewrite (for_range_last _ 0 2) by lia.
  set (before := for_range 0 (2 - 1) _ _).
  assert (Hb : sweep_len (3 * kNumAngles) before).
  { subst before.
    apply (for_range_inv (fun _ st => sweep_len (3 * kNumAngles) st)); [lia| |].
    - eexists _, _. split; [reflexivity|exact Hlen].
    - intros rd st Hrd Hst. apply sweep_row_inside; [exact Hst|lia|vm_compute; discriminate|].
      intros ad Had. rewrite wrap_angle_pos by lia. unfold kNumAngles. lia. }
  rewrite (for_range_split _ 333 360 363) by lia.
  rewrite (for_range_first _ 360 363) by lia.
  rewrite (sweep_cell_outside (3 * kNumAngles) 2 360).
  - apply sweep_row_none.
  - apply sweep_row_inside; [exact Hb|lia|vm_compute; discriminate|].
    intros ad Had. rewrite wrap_angle_pos by lia. unfold kNumAngles. lia.
  - lia.
  - vm_compute; discriminate.
  - rewrite wrap_angle_pos by lia. unfold kNumAngles, Int32.max_int. lia.
Qed.

Lemma nms_sweep_leaves_grid_witness :
  nms_sweep 3 0 348 (replicate 1080 0) = None /\
  In (2, 360) (window_cells 3 0 348) /\
  3 * kNumAngles <= 2 * kNumAngles + 360.
Proof. apply (nms_sweep_leaves_grid (replicate 1080 0)). reflexivity. Defined.

(** The sweep leaves the map on an image: for the single dark pixel at
    (3, 2) of a 5 x 3 image every voted cell is a seed (the threshold is
    [75 * 1 / 100 = 0]), the seeds of row 0 are the angle bins 140, 156, ...,
    348, and the sweep around the last one runs off the map. *)
Example find_corners_single_pixel (lines : LineArray Z) (corners : CornerArray Z)
    (tie : Z -> Z -> bool)
    (fcos fsin fabs : Z -> Z) (fmul fsub fdiv : Z -> Z -> Z) (flt : Z -> Z -> bool)
    (eps : Z) :
  find_corners Z single_pixel_bins (fun besta => besta) (fun _ _ bestr => bestr)
    (near_bins tie) Z.gtb fcos fsin fabs fmul fsub fdiv flt eps
    single_pixel_image lines corners = None.
Proof.
  destruct lines as [[[l0 l1] l2] l3]. vm_compute. reflexivity.
Qed.

(** ** Line pairing *)

(** C8, as stated, fails: with both slots set, the peak at 45 degrees
    (bin 90, radius bin 50) is parallel neither to slot 0 (0 degrees) nor to
    slot 1 (90 degrees), and yet it replaces [slot1.outer].  The bins are 90
    apart: the outcome of the test at twenty bins plays no part. *)
Lemma line_pair_replaces_without_parallel_test :
  (forall tie, near_bins tie 90 (fst (line0 two_families)) = false) /\
  (forall tie, near_bins tie 90 (fst (line2 two_families)) = false) /\
  (forall tie, line_pair (near_bins tie) Z.gtb two_families 90 50 =
     MkLineSet (0, 10) (0, 10) (180, 10) (90, 50) true true) /\
  (forall tie, line_pair (near_bins tie) Z.gtb two_families 90 50 <> two_families).
Proof. repeat split; try reflexivity. intros tie. discriminate. Qed.

(** C8 (amended): a peak that is not parallel to slot 0 and arrives while
    slot 1 is set replaces [slot1.outer] exactly when its radius exceeds that
    of [slot1.outer]; its angle is not compared with slot 1, and the other
    three lines and both flags stay as they are. *)
Theorem line_pair_second_slot {F : Type} (near fgt : F -> F -> bool)
    (st : LineSet F) (deg radius : F) :
  set0 st = true -> set1 st = true -> near deg (fst (line0 st)) = false ->
  line_pair near fgt st deg radius =
    if fgt radius (snd (line3 st))
    then MkLineSet (line0 st) (line1 st) (line2 st) (deg, radius) true true
    else st.
Proof.
  intros H0 H1 Hn. unfold line_pair. rewrite H0, H1, Hn. reflexivity.
Qed.

Lemma line_pair_second_slot_witness :
  (forall tie, near_bins tie 90 (fst (line0 two_families)) = false) /\
  (forall tie, line_pair (near_bins tie) Z.gtb two_families 90 50 =
     if 50 >? snd (line3 two_families)
     then MkLineSet (line0 two_families) (line1 two_families)
            (line2 two_families) (90, 50) true true
     else two_families).
Proof.
  split; intros tie; [reflexivity|].
  apply (line_pair_second_slot (near_bins tie) Z.gtb two_families 90 50); reflexivity.
Defined.

(** ** Intersections *)

Section Assembly.

Variable F : Type.
Variables (fcos fsin fabs : F -> F) (fmul fsub fdiv : F -> F -> F).
Variable flt : F -> F -> bool.
Variable eps : F.

Local Abbreviation ok := (intersects F fcos fsin fabs fmul fsub flt eps).
Local Abbreviation pt := (crossing F fcos fsin fabs fmul fsub fdiv).
Local Abbreviation run := (corners_of_lines F fcos fsin fabs fmul fsub fdiv flt eps).

(** [intersect] fails exactly when [fabs(d) < 0.0001f], and then leaves
    [point] alone. *)
Lemma intersect_spec (p l1 l2 : F * F) :
  intersect F fcos fsin fabs fmul fsub fdiv flt eps p l1 l2 =
    if flt (fabs (det F fcos fsin fmul fsub l1 l2)) eps
    then (false, p) else (true, pt l1 l2).
Proof. reflexivity. Qed.

(** C9 (amended): the result is [true] exactly when the four intersections
    L0-L2, L0-L3, L1-L2, L1-L3 all succeed, an intersection failing exactly
    when [fabs(d) < 0.0001f]; the corners of the intersections that precede
    the first failing one are stored in the caller's array, the others are
    left as the caller passed them. *)
Theorem corners_of_lines_spec (l0 l1 l2 l3 c0 c1 c2 c3 : F * F) :
  let r := run (l0, l1, l2, l3) (c0, c1, c2, c3) in
  fst r = ok l0 l2 && ok l0 l3 && ok l1 l2 && ok l1 l3 /\
  (forall l l', ok l l' = negb (flt (fabs (det F fcos fsin fmul fsub l l')) eps)) /\
  snd r =
    if negb (ok l0 l2) then (c0, c1, c2, c3)
    else if negb (ok l0 l3) then (pt l0 l2, c1, c2, c3)
    else if negb (ok l1 l2) then (pt l0 l2, pt l0 l3, c2, c3)
    else if negb (ok l1 l3) then (pt l0 l2, pt l0 l3, pt l1 l2, c3)
    else (pt l0 l2, pt l0 l3, pt l1 l2, pt l1 l3).
Proof.
  cbv zeta. unfold corners_of_lines, intersect, intersects.
  split; [|split; [reflexivity|]];
    repeat (destruct (flt _ eps); cbn; try reflexivity).
Qed.

End Assembly.

(** C9, as stated, fails: L0 and L2 cross at (5, 7), L0 and L3 are parallel;
    the operation fails and row 0 of the caller's array holds (5, 7) while
    rows 1 to 3 are untouched. *)
Lemma corners_partially_filled :
  real_corners ((0, 5), (0, 9), (PI / 2, 7), (0, 3))%R
               ((0, 0), (0, 0), (0, 0), (0, 0))%R
  = (false, ((5, 7), (0, 0), (0, 0), (0, 0)))%R
  /\ ((5, 7) : R * R)%R <> (0, 0)%R.
Proof.
  split.
  - unfold real_corners, corners_of_lines, intersect, crossing, det, Rltb; cbn [fst snd].
    rewrite cos_0, sin_0, cos_PI2, sin_PI2.
    replace (1 * 1 - 0 * 0)%R with 1%R by lra.
    replace (1 * 0 - 1 * 0)%R with 0%R by lra.
    rewrite Rabs_R1, Rabs_R0.
    destruct (Rlt_dec 1 (1 / 10000)) as [H|_]; [lra|].
    destruct (Rlt_dec 0 (1 / 10000)) as [_|H]; [|lra].
    cbn.
    replace ((1 * 5 - 0 * 7) / 1)%R with 5%R by lra.
    replace ((1 * 7 - 0 * 5) / 1)%R with 7%R by lra.
    rewrite !Rabs_pos_eq by lra. reflexivity.
  - intros H. injection H as H _. lra.
Qed.

End CornersFacts.

(** * Theorems: further properties of the code *)

Module LevenshteinBounds.
Import Levenshtein LevenshteinFacts.
#[local] Open Scope nat_scope.

(** An edit changes the length by no more than its cost. *)
Lemma edit_length s t n :
  edit s t n -> length s <= length t + n /\ length t <= length s + n.
Proof. induction 1; cbn [length]; lia. Qed.

(** Substituting along the common prefix and dropping the rest costs no more
    than the longer length. *)
Lemma edit_max s t : exists n, n <= Nat.max (length s) (length t) /\ edit s t n.
Proof.
  revert t. induction s as [|a s IH]; intros t.
  - exists (length t). split; [cbn; lia|]. apply (edit_lev [] t).
  - destruct t as [|b t].
    + exists (length (a :: s)). split; [cbn; lia|].
      pose proof (edit_lev (a :: s) []) as H. rewrite lev_nil_r in H. exact H.
    + destruct (IH t) as (n & Hn & He). exists (n + cost a b). split.
      * pose proof (cost_le a b). cbn [length]. lia.
      * apply edit_sub, He.
Qed.

Lemma lev_bounds s t :
  length s - length t <= lev s t /\ length t - length s <= lev s t /\
  lev s t <= Nat.max (length s) (length t).
Proof.
  pose proof (edit_length _ _ _ (edit_lev s t)) as [H1 H2].
  destruct (edit_max s t) as (n & Hn & He). apply lev_least in He. lia.
Qed.

End LevenshteinBounds.

Module DistanceExtras.
Import Levenshtein LevenshteinFacts LevenshteinBounds DistanceFacts Int32Facts.

(** X1. [edit_distance] returns the cost of a cheapest edit script: some
    sequence of single-symbol deletions, insertions and substitutions turns
    [s] into [t] at that cost, and none does at a lower one. *)
Theorem edit_distance_minimal (u : Z) (s t : string) :
  fits s t -> s <> EmptyString \/ t <> EmptyString ->
  exists d : nat,
    edit_distance u s t = Z.of_nat d /\
    edit (chars s) (chars t) d /\
    forall n, edit (chars s) (chars t) n -> (d <= n)%nat.
Proof.
  intros Hfit Hne. exists (lev (chars s) (chars t)).
  split; [apply edit_distance_correct; assumption|].
  split; [apply edit_lev|]. intros n. apply lev_least.
Qed.

Lemma edit_distance_minimal_witness :
  exists d : nat,
    edit_distance 0 "kitten" "sitting" = Z.of_nat d /\
    edit (chars "kitten") (chars "sitting") d /\
    forall n, edit (chars "kitten") (chars "sitting") n -> (d <= n)%nat.
Proof.
  apply (edit_distance_minimal 0 "kitten" "sitting");
    [unfold fits, Int32.max_int; cbn [String.length]; lia|left; discriminate].
Defined.

(** X2. Against the empty string the distance is the length of the other
    string, on either side. *)
Theorem edit_distance_empty_side (u : Z) (s : string) :
  s <> EmptyString -> Z.of_nat (String.length s) < Int32.max_int ->
  edit_distance u s "" = Z.of_nat (String.length s) /\
  edit_distance u "" s = Z.of_nat (String.length s).
Proof.
  intros Hne Hlen. split.
  - rewrite edit_distance_correct; [|unfold fits; cbn [String.length]; lia|left; exact Hne].
    unfold distance. change (chars "") with (@nil ascii).
    rewrite lev_nil_r, length_chars. reflexivity.
  - rewrite edit_distance_correct; [|unfold fits; cbn [String.length]; lia|right; exact Hne].
    unfold distance. change (chars "") with (@nil ascii).
    rewrite lev_nil_l, length_chars. reflexivity.
Qed.

Lemma edit_distance_empty_side_witness :
  edit_distance 7 "abc" "" = Z.of_nat (String.length "abc") /\
  edit_distance 7 "" "abc" = Z.of_nat (String.length "abc").
Proof.
  apply (edit_distance_empty_side 7 "abc");
    [discriminate|unfold Int32.max_int; cbn [String.length]; lia].
Defined.

(** X3. On strings of which at most one is empty [edit_distance] is a
    metric: it is 0 exactly on equal strings, it does not depend on the
    order of its arguments, and it satisfies the triangle inequality. *)
Theorem edit_distance_metric (u : Z) (a b c : string) :
  fits a b -> fits b c -> fits a c ->
  a <> EmptyString \/ b <> EmptyString ->
  b <> EmptyString \/ c <> EmptyString ->
  a <> EmptyString \/ c <> EmptyString ->
  (edit_distance u a b = 0 <-> a = b) /\
  edit_distance u a b = edit_distance u b a /\
  edit_distance u a c <= edit_distance u a b + edit_distance u b c.
Proof.
  intros Hab Hbc Hac Nab Nbc Nac.
  rewrite (edit_distance_correct u a b Hab Nab).
  rewrite (edit_distance_correct u b c Hbc Nbc).
  rewrite (edit_distance_correct u a c Hac Nac).
  rewrite (edit_distance_correct u b a) by (unfold fits in *; first [lia|tauto]).
  split; [apply distance_zero|]. split; [apply distance_sym|apply distance_triangle].
Qed.

Lemma edit_distance_metric_witness :
  (edit_distance 0 "book" "cook" = 0 <-> "book" = "cook") /\
  edit_distance 0 "book" "cook" = edit_distance 0 "cook" "book" /\
  edit_distance 0 "book" "cake" <= edit_distance 0 "book" "cook" + edit_distance 0 "cook" "cake".
Proof.
  apply (edit_distance_metric 0 "book" "cook" "cake");
    first [left; discriminate | unfold fits, Int32.max_int; cbn [String.length]; lia].
Defined.

(** X4. The distance lies between the difference of the two lengths and the
    longer of them. *)
Theorem edit_distance_length_bounds (u : Z) (s t : string) :
  fits s t -> s <> EmptyString \/ t <> EmptyString ->
  Z.abs (Z.of_nat (String.length s) - Z.of_nat (String.length t)) <= edit_distance u s t
  /\ edit_distance u s t <= Z.max (Z.of_nat (String.length s)) (Z.of_nat (String.length t)).
Proof.
  intros Hfit Hne. rewrite edit_distance_correct by assumption. unfold distance.
  pose proof (lev_bounds (chars s) (chars t)) as H. rewrite !length_chars in H. lia.
Qed.

Lemma edit_distance_length_bounds_witness :
  Z.abs (Z.of_nat (String.length "boo") - Z.of_nat (String.length "books"))
    <= edit_distance 0 "boo" "books"
  /\ edit_distance 0 "boo" "books"
    <= Z.max (Z.of_nat (String.length "boo")) (Z.of_nat (String.length "books")).
Proof.
  apply (edit_distance_length_bounds 0 "boo" "books");
    [unfold fits, Int32.max_int; cbn [String.length]; lia|left; discriminate].
Defined.

End DistanceExtras.

Module BoundExtras.
Import Levenshtein LevenshteinFacts DistanceFacts Int32Facts.

(** The rows of the bounded variant: the loop ends with the distance, or
    leaves early with [upper_bound + 1], and then the distance is above the
    bound. *)
Lemma bound_rows_exit s1 s2 k (cnt : nat) y row :
  fits s1 s2 -> Int32.in_range k ->
  1 <= y -> y + Z.of_nat cnt = Z.of_nat (String.length s1) + 1 ->
  dp_row_ok s1 s2 (Z.of_nat (String.length s2)) (y - 1) row ->
  0 < Z.of_nat (String.length s1) \/ 0 < Z.of_nat (String.length s2) ->
  let r := bound_rows s1 s2 (Z.of_nat (String.length s2)) k y cnt row in
  r = distance s1 s2 \/ (r = k + 1 /\ k < distance s1 s2).
Proof.
  intros Hfit Hk. revert y row. induction cnt as [|cnt IH]; intros y row Hy Hcnt Hrow Hne.
  - cbn [bound_rows]. left.
    replace (y - 1) with (Z.of_nat (String.length s1)) in Hrow by lia.
    destruct Hrow as [_ H]. rewrite H by lia. apply table_full.
  - cbn [bound_rows].
    destruct (row_step_best_ok s1 s2 Hfit y row ltac:(lia) Hrow) as [Hrow' Hlow].
    destruct (row_step_best s1 s2 (Z.of_nat (String.length s2)) y row) as [row' best].
    cbn [fst snd] in *.
    pose proof (below_row_last s1 s2 y best ltac:(lia) Hlow) as Hd.
    destruct (Z.gtb_spec best k) as [Hgt|Hle].
    + cbv zeta. right.
      assert (best <= y).
      { specialize (Hlow 0 ltac:(lia)). rewrite table_y_0 in Hlow by lia. lia. }
      split; [|lia]. apply add_small.
      unfold fits, Int32.in_range, Int32.min_int, Int32.max_int in *. lia.
    + apply IH; [lia|lia| |exact Hne]. replace (y + 1 - 1) with y by lia. exact Hrow'.
Qed.

(** X5. [edit_distance_bound] against [edit_distance]: up to the bound the two
    agree; above it the bounded variant returns the distance itself or
    [upper_bound + 1], so its result is never above the distance, and it is
    within the bound exactly when the distance is. *)
Theorem edit_distance_bound_agrees (u : Z) (s t : string) (k : Z) :
  fits s t -> s <> EmptyString \/ t <> EmptyString -> Int32.in_range k ->
  let d := edit_distance u s t in
  let r := edit_distance_bound u s t k in
  (d <= k -> r = d) /\
  (k < d -> r = d \/ r = k + 1) /\
  r <= d /\
  (r <= k <-> d <= k).
Proof.
  intros Hfit Hne Hk d r. subst d r.
  rewrite (edit_distance_correct u s t Hfit Hne).
  destruct (edit_distance_bound_correct u s t k Hfit Hne Hk) as [Hle Hgt].
  assert (Hexit : edit_distance_bound u s t k = distance s t \/
                  (edit_distance_bound u s t k = k + 1 /\ k < distance s t)).
  { unfold edit_distance_bound. rewrite (size_s1 s t Hfit), (size_s2 s t Hfit).
    rewrite Nat2Z.id.
    apply bound_rows_exit; [exact Hfit|exact Hk|lia|lia| |].
    - replace (1 - 1) with 0 by lia. apply init_row_ok. exact Hfit.
    - destruct Hne as [H|H]; [left|right]; destruct s, t; cbn; try lia; congruence. }
  split; [exact Hle|]. split; [|split].
  - intros Hlt. destruct Hexit as [E|[E _]]; [left|right]; exact E.
  - destruct Hexit as [E|[E Hlt]]; lia.
  - split; intros H.
    + destruct (Z_le_gt_dec (distance s t) k) as [Hd|Hd]; [exact Hd|].
      specialize (Hgt ltac:(lia)). lia.
    + rewrite Hle by exact H. exact H.
Qed.

Lemma edit_distance_bound_agrees_witness :
  let d := edit_distance 0 "abc" "xyz" in
  let r := edit_distance_bound 0 "abc" "xyz" 1 in
  (d <= 1 -> r = d) /\
  (1 < d -> r = d \/ r = 1 + 1) /\
  r <= d /\
  (r <= 1 <-> d <= 1).
Proof.
  apply (edit_distance_bound_agrees 0 "abc" "xyz" 1);
    [unfold fits, Int32.max_int; cbn [String.length]; lia|left; discriminate|
     unfold Int32.in_range, Int32.min_int, Int32.max_int; lia].
Defined.

(** The brute-force scan prints the words within the radius in the order
    of the word list, each as often as it occurs there. *)
Lemma brute_force_filter (u : Z) (words : list string) (q : string) (n : Z) :
  Int32.in_range n ->
  (forall w, In w words -> fits w q /\ (w <> EmptyString \/ q <> EmptyString)) ->
  brute_force u words q n = List.filter (fun w => distance w q <=? n) words.
Proof.
  intros Hn Hq. unfold brute_force. apply filter_ext_in_iff.
  intros w Hw. destruct (Hq w Hw) as [Hfit Hne].
  destruct (edit_distance_bound_correct u w q n Hfit Hne Hn) as [Hle Hgt].
  destruct (Z.leb_spec (distance w q) n) as [H|H].
  - rewrite Hle by exact H. apply Z.leb_le. exact H.
  - apply Z.leb_gt. apply Hgt. exact H.
Qed.

End BoundExtras.

Module BkExtras.
Import DistanceFacts TreeFacts Int32Facts BoundExtras.

Lemma wrap_add_l a b : Int32.wrap (Int32.wrap a + b) = Int32.wrap (a + b).
Proof.
  unfold Int32.wrap, Int32.modulus.
  replace ((a + 2 ^ 31) mod 2 ^ 32 - 2 ^ 31 + b + 2 ^ 31)
    with ((a + 2 ^ 31) mod 2 ^ 32 + b) by lia.
  rewrite Zplus_mod_idemp_l. f_equal. f_equal. lia.
Qed.

Lemma visited_node q n v cs :
  visited q n (Node v cs) =
  1 + fold_right (fun kc acc =>
        (if within (distance v q) n (fst kc) then visited q n (snd kc) else 0) + acc) 0 cs.
Proof.
  cbn [visited]. f_equal. induction cs as [|[k c] cs IH]; [reflexivity|].
  cbn [fold_right fst snd]. rewrite <- IH. reflexivity.
Qed.

Lemma matches_app q n l l' : matches q n (l ++ l') = matches q n l ++ matches q n l'.
Proof. unfold matches. apply List.filter_app. Qed.

Lemma matches_cons q n x l :
  matches q n (x :: l) =
  if distance x q <=? n then x :: matches q n l else matches q n l.
Proof. reflexivity. Qed.

Lemma matches_none q n l :
  (forall x, In x l -> n < distance x q) -> matches q n l = [].
Proof.
  induction l as [|x l IH]; intros H; [reflexivity|].
  rewrite matches_cons.
  destruct (Z.leb_spec (distance x q) n) as [Hle|_].
  - specialize (H x (or_introl eq_refl)). lia.
  - apply IH. intros y Hy. apply H. right. exact Hy.
Qed.

Section Run.

Variable u : Z.
Variables (q : string) (n : Z).

Local Abbreviation runs := (query_runs u q n).

Lemma visit_children_run v it e l :
  forall i out count,
  (forall j k c, l !! j = Some (k, c) ->
     ((it <= i + j)%nat /\ (i + j < e)%nat <-> within (distance v q) n k = true)) ->
  Forall (fun kc =>
    if within (distance v q) n (fst kc) then runs (snd kc)
    else matches q n (pivots (snd kc)) = []) l ->
  visit_children u q n it e i l (out, Int32.wrap count) =
  Some (out ++ matches q n (flat_map (fun kc => pivots (snd kc)) l),
        Int32.wrap (count +
          fold_right (fun kc acc =>
            (if within (distance v q) n (fst kc) then visited q n (snd kc) else 0) + acc)
            0 l)).
Proof.
  induction l as [|[k c] l IH]; intros i out count Hidx Hall; cbn [visit_children].
  - cbn [flat_map fold_right]. unfold matches. cbn [List.filter].
    rewrite app_nil_r, Z.add_0_r. reflexivity.
  - inversion Hall as [|? ? Hc Hrest]; subst. cbn [fst snd] in Hc.
    assert (Hidx' : forall j k' c', l !! j = Some (k', c') ->
              ((it <= Datatypes.S i + j)%nat /\ (Datatypes.S i + j < e)%nat
               <-> within (distance v q) n k' = true)).
    { intros j k' c' Hj. specialize (Hidx (Datatypes.S j) k' c' Hj).
      replace (i + Datatypes.S j)%nat with (Datatypes.S i + j)%nat in Hidx by lia.
      exact Hidx. }
    specialize (Hidx O k c eq_refl). rewrite Nat.add_0_r in Hidx.
    cbn [flat_map fold_right fst snd]. rewrite matches_app.
    destruct (within (distance v q) n k) eqn:Hw.
    + assert (Hin : (it <= i)%nat /\ (i < e)%nat) by (apply Hidx; reflexivity).
      destruct (Nat.leb_spec it i), (Nat.ltb_spec i e); try lia. cbn [andb].
      rewrite (Hc out (Int32.wrap count)), wrap_add_l.
      rewrite (IH (Datatypes.S i) _ _ Hidx' Hrest).
      rewrite <- app_assoc. do 3 f_equal. lia.
    + assert (Hout : ~ ((it <= i)%nat /\ (i < e)%nat)).
      { intros H. apply Hidx in H. discriminate. }
      rewrite Hc. cbn [app].
      destruct (Nat.leb_spec it i), (Nat.ltb_spec i e); cbn [andb]; try lia;
        rewrite (IH (Datatypes.S i) _ _ Hidx' Hrest); reflexivity.
Qed.

(** [query] on a well-formed tree: the words within the radius are appended
    in the order [pivots] lists them, and the counter grows by the number of
    nodes entered. *)
Lemma query_run t :
  0 <= n -> wf t ->
  (forall v, In v (pivots t) ->
     edit_distance u v q = distance v q /\ distance v q + n <= Int32.max_int) ->
  runs t.
Proof.
  intros Hn. induction t as [v cs IH] using tree_ind. intros Hwf Hed out count.
  inversion Hwf as [? ? Hsorted Hall]; subst.
  destruct (Hed v) as [Hv Hmax]; [rewrite pivots_node; left; reflexivity|].
  rewrite query_node, Hv. cbv zeta.
  pose proof (distance_bound v q) as [Hd0 _].
  rewrite sub_small, add_small by (unfold Int32.min_int, Int32.max_int in *; lia).
  pose proof (lower_le_upper (distance v q - n) (distance v q + n) cs ltac:(lia)) as Hle.
  destruct (Nat.ltb_spec (upper_bound (distance v q + n) cs)
              (lower_bound (distance v q - n) cs)) as [|_]; [lia|].
  unfold Int32.add.
  rewrite (visit_children_run v).
  - rewrite pivots_node, visited_node, matches_cons.
    destruct (distance v q <=? n); [rewrite <- app_assoc; cbn [app]|];
      do 3 f_equal; lia.
  - intros j k c Hj. cbn [Nat.add].
    pose proof (lower_bound_spec (distance v q - n) cs Hsorted j k c Hj).
    pose proof (upper_bound_spec (distance v q + n) cs Hsorted j k c Hj).
    unfold within. rewrite andb_true_iff, !Z.leb_le. lia.
  - rewrite Forall_forall in IH, Hall |- *. intros kc Hkc.
    destruct (Hall kc Hkc) as [Hwfc Hk].
    destruct (within (distance v q) n (fst kc)) eqn:Hw.
    + apply (IH kc Hkc Hwfc). intros x Hx. apply Hed. rewrite pivots_node. right.
      apply in_flat_map. exists kc. split; [apply list_elem_of_In; exact Hkc|exact Hx].
    + apply matches_none. intros x Hx. specialize (Hk x Hx).
      unfold within in Hw. rewrite andb_false_iff, !Z.leb_gt in Hw.
      pose proof (distance_triangle v x q). pose proof (distance_triangle v q x).
      rewrite (distance_sym q x) in *. lia.
Qed.

End Run.

(** *** Counting the nodes entered *)

Lemma visited_bounds q n t : 1 <= visited q n t <= Z.of_nat (length (pivots t)).
Proof.
  induction t as [v cs IH] using tree_ind. rewrite visited_node, pivots_node.
  cbn [length]. rewrite Nat2Z.inj_succ.
  enough (0 <= fold_right (fun kc acc =>
                 (if within (distance v q) n (fst kc) then visited q n (snd kc) else 0) + acc)
               0 cs
          <= Z.of_nat (length (flat_map (fun kc => pivots (snd kc)) cs))) by lia.
  induction cs as [|[k c] cs IHcs]; cbn [fold_right flat_map fst snd]; [cbn; lia|].
  inversion IH as [|? ? Hc Hcs]; subst. cbn [snd] in Hc.
  specialize (IHcs Hcs). rewrite length_app, Nat2Z.inj_add.
  destruct (within (distance v q) n k); lia.
Qed.

(** Every word printed is the pivot of a node entered. *)
Lemma matches_le_visited q n t :
  wf t -> Z.of_nat (length (matches q n (pivots t))) <= visited q n t.
Proof.
  induction t as [v cs IH] using tree_ind. intros Hwf.
  inversion Hwf as [? ? _ Hall]; subst.
  rewrite visited_node, pivots_node, matches_cons.
  enough (Z.of_nat (length (matches q n (flat_map (fun kc => pivots (snd kc)) cs)))
          <= fold_right (fun kc acc =>
                 (if within (distance v q) n (fst kc) then visited q n (snd kc) else 0) + acc)
               0 cs).
  { destruct (distance v q <=? n); cbn [length]; lia. }
  clear Hwf. induction cs as [|[k c] cs IHcs]; cbn [fold_right flat_map fst snd]; [cbn; lia|].
  inversion IH as [|? ? Hc Hcs]; subst. inversion Hall as [|? ? [Hwfc Hk] Hrest]; subst.
  cbn [fst snd] in *. specialize (IHcs Hcs Hrest).
  rewrite matches_app, length_app, Nat2Z.inj_add.
  destruct (within (distance v q) n k) eqn:Hw.
  - specialize (Hc Hwfc). lia.
  - rewrite (matches_none q n (pivots c)); [cbn [length]; lia|].
    intros x Hx. specialize (Hk x Hx).
    unfold within in Hw. rewrite andb_false_iff, !Z.leb_gt in Hw.
    pose proof (distance_triangle v x q). pose proof (distance_triangle v q x).
    rewrite (distance_sym q x) in *. lia.
Qed.

(** *** depth *)

Lemma deepest_cons kc cs : deepest (kc :: cs) = Z.max (depth (snd kc)) (deepest cs).
Proof. reflexivity. Qed.

Lemma depth_node v cs : depth (Node v cs) = Int32.add (deepest cs) 1.
Proof.
  cbn [depth]. f_equal.
  enough (H : forall d, 0 <= d ->
            (fix go (l : list (Z * BkTree)) (d : Z) : Z :=
               match l with
               | [] => d
               | (_, c) :: l' => go l' (Z.max d (depth c))
               end) cs d = Z.max d (deepest cs)).
  { rewrite H by lia. assert (0 <= deepest cs); [|lia].
    clear H. induction cs as [|[k c] cs IHc]; [cbn; lia|]. rewrite deepest_cons. lia. }
  induction cs as [|[k c] cs IHc]; intros d Hd.
  - cbn. lia.
  - rewrite deepest_cons, IHc by lia. cbn [snd]. lia.
Qed.

Lemma deepest_bounds cs :
  Forall (fun kc : Z * BkTree => 1 <= depth (snd kc) <= Z.of_nat (length (pivots (snd kc)))) cs ->
  0 <= deepest cs <= Z.of_nat (length (flat_map (fun kc => pivots (snd kc)) cs)).
Proof.
  induction 1 as [|[k c] cs Hc _ IH]; [cbn; lia|].
  rewrite deepest_cons. cbn [flat_map snd] in *. rewrite length_app, Nat2Z.inj_add. lia.
Qed.

Lemma depth_plain t :
  Z.of_nat (length (pivots t)) <= Int32.max_int ->
  depth t = deepest (children t) + 1 /\ 1 <= depth t <= Z.of_nat (length (pivots t)).
Proof.
  induction t as [v cs IH] using tree_ind. intros Hsize.
  rewrite depth_node. cbn [children]. rewrite pivots_node in *. cbn [length] in *.
  rewrite Nat2Z.inj_succ in *.
  assert (Hcs : Forall (fun kc : Z * BkTree =>
                  1 <= depth (snd kc) <= Z.of_nat (length (pivots (snd kc)))) cs).
  { rewrite Forall_forall in IH |- *. intros kc Hkc. apply IH; [exact Hkc|].
    assert (length (pivots (snd kc)) <= length (flat_map (fun kc => pivots (snd kc)) cs))%nat;
      [|lia].
    apply list_elem_of_In in Hkc. clear -Hkc.
    induction cs as [|x cs IHcs]; [destruct Hkc|].
    cbn [flat_map]. rewrite length_app. destruct Hkc as [->|Hkc]; [lia|].
    specialize (IHcs Hkc). lia. }
  pose proof (deepest_bounds cs Hcs) as Hb.
  rewrite add_small by (unfold Int32.min_int, Int32.max_int in *; lia). lia.
Qed.

Lemma deepest_insert u d word cs :
  Forall (fun kc : Z * BkTree => 1 <= depth (snd kc)) cs ->
  Forall (fun kc : Z * BkTree =>
            depth (snd kc) <= depth (insert u (snd kc) word) <= depth (snd kc) + 1) cs ->
  depth (leaf word) = 1 ->
  deepest cs <= deepest (insert_into u d word cs) <= deepest cs + 1.
Proof.
  intros Hpos Hins Hleaf.
  induction cs as [|[k c] cs IH]; cbn [insert_into].
  - rewrite deepest_cons. cbn [snd]. rewrite Hleaf. cbn. lia.
  - inversion Hpos as [|? ? Hc Hcs]; subst. inversion Hins as [|? ? Hi His]; subst.
    cbn [snd] in *. specialize (IH Hcs His).
    destruct (d =? k); [rewrite !deepest_cons; cbn [snd]; lia|].
    destruct (d <? k); rewrite !deepest_cons; cbn [snd];
      [rewrite Hleaf|]; lia.
Qed.

Lemma within_zero d k : within d 0 k = true <-> k = d.
Proof. unfold within. rewrite andb_true_iff, !Z.leb_le. lia. Qed.

Lemma visited_exact_path q v cs :
  StronglySorted (fun a b : Z * BkTree => fst a < fst b) cs ->
  Forall (fun kc : Z * BkTree => 0 <= visited q 0 (snd kc) <= depth (snd kc)) cs ->
  fold_right (fun kc acc =>
     (if within (distance v q) 0 (fst kc) then visited q 0 (snd kc) else 0) + acc) 0 cs
  <= deepest cs.
Proof.
  induction 1 as [|[k c] cs Hs IH Hk]; intros Hall; [cbn; lia|].
  rewrite deepest_cons. cbn [fold_right fst snd].
  inversion Hall as [|? ? Hc Hrest]; subst. cbn [snd] in Hc. specialize (IH Hrest).
  destruct (within (distance v q) 0 k) eqn:Hw; [|lia].
  apply within_zero in Hw. subst k.
  assert (Hzero : fold_right (fun kc acc =>
            (if within (distance v q) 0 (fst kc) then visited q 0 (snd kc) else 0) + acc)
            0 cs = 0).
  { clear IH Hs Hrest Hall. induction cs as [|[k' c'] cs IHcs]; [reflexivity|].
    inversion Hk as [|? ? Hk' Hks]; subst. cbn [fst] in Hk'. cbn [fold_right fst snd].
    rewrite (IHcs Hks).
    destruct (within (distance v q) 0 k') eqn:Hw'; [apply within_zero in Hw'; lia|lia]. }
  rewrite Hzero. lia.
Qed.

(** With the radius 0 the search follows one edge per node at most. *)
Lemma visited_zero_depth q t :
  wf t -> Z.of_nat (length (pivots t)) <= Int32.max_int -> visited q 0 t <= depth t.
Proof.
  induction t as [v cs IH] using tree_ind. intros Hwf Hsize.
  destruct (depth_plain (Node v cs) Hsize) as [-> _]. cbn [children].
  inversion Hwf as [? ? Hsorted Hall]; subst. rewrite visited_node.
  enough (fold_right (fun kc acc =>
            (if within (distance v q) 0 (fst kc) then visited q 0 (snd kc) else 0) + acc)
            0 cs <= deepest cs) by lia.
  apply visited_exact_path; [exact Hsorted|].
  rewrite Forall_forall in IH, Hall |- *. intros kc Hkc.
  pose proof (visited_bounds q 0 (snd kc)). split; [lia|].
  apply IH; [exact Hkc|apply Hall; exact Hkc|].
  rewrite pivots_node in Hsize. cbn [length] in Hsize.
  assert (length (pivots (snd kc)) <= length (flat_map (fun kc => pivots (snd kc)) cs))%nat;
    [|lia].
  apply list_elem_of_In in Hkc. clear -Hkc.
  induction cs as [|x cs IHcs]; [destruct Hkc|].
  cbn [flat_map]. rewrite length_app. destruct Hkc as [->|Hkc]; [lia|].
  specialize (IHcs Hkc). lia.
Qed.

(** *** Properties of the index *)

(** A two-node index: "b" below "a", at distance 1. *)
Lemma two_words_wf : wf (Node "a" [(1, leaf "b")]).
Proof.
  constructor; [repeat constructor|].
  constructor; [|constructor]. cbn [snd fst]. split; [apply wf_leaf|].
  intros w [<-|[]]. reflexivity.
Qed.

Lemma two_words_query (q : string) (n : Z) :
  Z.of_nat (String.length q) + n < 1000 -> q <> EmptyString ->
  query_ok_for (pivots (Node "a" [(1, leaf "b")])) q n.
Proof.
  intros Hlen Hq w Hw. cbn in Hw.
  destruct Hw as [<-|[<-|[]]]; (split; [right; exact Hq|]);
    unfold Int32.max_int; cbn [String.length]; lia.
Qed.

Lemma two_words_ok :
  dictionary_ok ["a"; "b"] /\ query_ok_for ["a"; "b"] "b" 1.
Proof.
  split.
  - constructor; [|constructor; [constructor|constructor]].
    constructor; [|constructor].
    split; [left; discriminate|unfold fits, Int32.max_int; cbn; lia].
  - intros w [<-|[<-|[]]]; (split; [left; discriminate|unfold Int32.max_int; cbn; lia]).
Qed.

Lemma query_ok_distances u q n l :
  0 <= n -> query_ok_for l q n ->
  forall v, In v l ->
    edit_distance u v q = distance v q /\ distance v q + n <= Int32.max_int.
Proof.
  intros Hn Hq v Hv. destruct (Hq v Hv) as [Hne Hlen].
  pose proof (distance_bound v q). split; [|lia].
  apply edit_distance_correct; [unfold fits; lia|exact Hne].
Qed.

Lemma matches_perm q n l l' :
  Permutation l l' -> Permutation (matches q n l) (matches q n l').
Proof.
  induction 1 as [|x l l' _ IH|x y l|l l' l'' _ IH1 _ IH2].
  - reflexivity.
  - rewrite !matches_cons. destruct (distance x q <=? n); [apply perm_skip|]; exact IH.
  - rewrite !matches_cons.
    destruct (distance x q <=? n), (distance y q <=? n); try reflexivity. apply perm_swap.
  - etransitivity; eassumption.
Qed.

Lemma in_matches q n l x : In x (matches q n l) <-> In x l /\ distance x q <= n.
Proof. unfold matches. rewrite filter_In, Z.leb_le. reflexivity. Qed.

Section Tree.

Variable u : Z.

(** X6. [insert] keeps the pivot of the node it is called on and adds exactly
    one node, holding the word: no word of the tree is dropped or
    duplicated, whatever the distances computed on the way. *)
Theorem insert_adds_word (t : BkTree) (word : string) :
  value (insert u t word) = value t /\
  Permutation (pivots (insert u t word)) (word :: pivots t) /\
  length (pivots (insert u t word)) = Datatypes.S (length (pivots t)).
Proof.
  split; [destruct t; reflexivity|]. split; [apply pivots_insert|].
  apply (Permutation_length (pivots_insert u t word)).
Qed.

(** X7. [insert] keeps the invariant of a BK-tree: the keys of every node
    increase strictly and every word below the edge labelled [k] of a node
    is at distance [k] from the pivot of that node. *)
Theorem insert_keeps_wf (t : BkTree) (word : string) :
  wf t -> (forall v, In v (pivots t) -> callable v word) ->
  wf (insert u t word).
Proof.
  intros Hwf Hc. apply insert_wf; [exact Hwf|].
  intros v Hv. apply callable_distance, Hc, Hv.
Qed.

(** X8. [query] prints the words of the tree within the radius, each node once,
    in pre-order: a node before its subtrees, the subtrees by increasing
    edge label. *)
Theorem query_prints_in_preorder (t : BkTree) (q : string) (n : Z)
    (out : list string) (count : Z) :
  0 <= n -> wf t -> query_ok_for (pivots t) q n ->
  exists count',
    query u t q n (out, count) = Some (out ++ matches q n (pivots t), count').
Proof.
  intros Hn Hwf Hq. eexists.
  apply (query_run u q n t Hn Hwf (query_ok_distances u q n _ Hn Hq)).
Qed.

(** X9. The counter [query] increments grows by exactly the number of nodes
    the search enters, [visited]: the node itself and, below every edge
    whose label is within the radius of the distance of the pivot to the
    query word, the nodes entered there; the edges with other labels are
    not followed.  That number is at least 1, at least the number of words
    printed, and at most the number of nodes of the tree. *)
Theorem query_count_visited (t : BkTree) (q : string) (n : Z)
    (out : list string) (count : Z) :
  0 <= n -> wf t -> query_ok_for (pivots t) q n ->
  0 <= count -> count + Z.of_nat (length (pivots t)) <= Int32.max_int ->
  query u t q n (out, count)
  = Some (out ++ matches q n (pivots t), count + visited q n t) /\
  1 <= visited q n t /\
  Z.of_nat (length (matches q n (pivots t))) <= visited q n t
    <= Z.of_nat (length (pivots t)).
Proof.
  intros Hn Hwf Hq Hcount Hsize.
  pose proof (visited_bounds q n t) as Hv.
  pose proof (matches_le_visited q n t Hwf) as Hm.
  rewrite (query_run u q n t Hn Hwf (query_ok_distances u q n _ Hn Hq) out count).
  rewrite wrap_small by (unfold Int32.min_int, Int32.max_int in *; lia).
  split; [reflexivity|lia].
Qed.

(** X10. With the radius 0 the search enters no more nodes than the tree is
    deep: it follows at most one edge at every node. *)
Theorem query_exact_count (t : BkTree) (q : string) :
  wf t -> query_ok_for (pivots t) q 0 ->
  Z.of_nat (length (pivots t)) <= Int32.max_int ->
  exists out count,
    query u t q 0 ([], 0) = Some (out, count) /\ count <= depth t.
Proof.
  intros Hwf Hq Hsize.
  exists (matches q 0 (pivots t)), (visited q 0 t).
  pose proof (visited_bounds q 0 t) as Hv.
  rewrite (query_run u q 0 t ltac:(lia) Hwf
             (query_ok_distances u q 0 _ ltac:(lia) Hq) [] 0).
  cbn [app Z.add].
  rewrite wrap_small by (unfold Int32.min_int, Int32.max_int in *; lia).
  split; [reflexivity|]. apply visited_zero_depth; assumption.
Qed.

(** X11. A word that has been inserted is found: the query for it with the
    radius 0 prints it, and prints nothing else. *)
Theorem insert_then_query (t : BkTree) (word : string) :
  wf t -> word <> EmptyString -> fits word word ->
  (forall v, In v (pivots t) -> fits v word) ->
  exists out count,
    query u (insert u t word) word 0 ([], 0) = Some (out, count) /\
    In word out /\ forall x, In x out -> x = word.
Proof.
  intros Hwf Hne Hww Hfit.
  assert (Hins : wf (insert u t word)).
  { apply insert_wf; [exact Hwf|]. intros v Hv. apply callable_distance.
    split; [right; exact Hne|auto]. }
  assert (Hq : query_ok_for (pivots (insert u t word)) word 0).
  { intros v Hv. split; [right; exact Hne|]. apply in_pivots_insert in Hv.
    destruct Hv as [->|Hv]; [|specialize (Hfit v Hv)]; unfold fits in *; lia. }
  exists (matches word 0 (pivots (insert u t word))), (Int32.wrap (0 + visited word 0 (insert u t word))).
  rewrite (query_run u word 0 _ ltac:(lia) Hins
             (query_ok_distances u word 0 _ ltac:(lia) Hq) [] 0).
  split; [reflexivity|]. split.
  - apply in_matches. split; [apply in_pivots_insert; left; reflexivity|].
    assert (distance word word = 0) by (apply distance_zero; reflexivity). lia.
  - intros x Hx. apply in_matches in Hx. destruct Hx as [_ Hd].
    pose proof (distance_bound x word). apply distance_zero. lia.
Qed.

(** X12. [depth] is at least 1 and at most the number of nodes. *)
Theorem depth_bounds (t : BkTree) :
  Z.of_nat (length (pivots t)) <= Int32.max_int ->
  1 <= depth t <= Z.of_nat (length (pivots t)).
Proof. intros H. apply depth_plain, H. Qed.

(** X13. An insertion never makes the tree shallower, and deepens it by one
    level at most. *)
Theorem depth_insert (t : BkTree) (word : string) :
  Z.of_nat (length (pivots t)) < Int32.max_int ->
  depth t <= depth (insert u t word) <= depth t + 1.
Proof.
  induction t as [v cs IH] using tree_ind. intros Hsize.
  assert (Hnew : Z.of_nat (length (pivots (insert u (Node v cs) word))) <= Int32.max_int).
  { rewrite (Permutation_length (pivots_insert u (Node v cs) word)). cbn [length]. lia. }
  destruct (depth_plain _ Hnew) as [-> _].
  destruct (depth_plain (Node v cs) ltac:(lia)) as [-> _].
  rewrite insert_node. cbn [children].
  enough (deepest cs <= deepest (insert_into u (edit_distance u v word) word cs)
          <= deepest cs + 1) by lia.
  assert (Hsub : forall kc, In kc cs ->
            Z.of_nat (length (pivots (snd kc))) < Int32.max_int).
  { intros kc Hkc. rewrite pivots_node in Hsize. cbn [length] in Hsize.
    assert (length (pivots (snd kc)) <= length (flat_map (fun kc => pivots (snd kc)) cs))%nat;
      [|lia].
    clear -Hkc. induction cs as [|x cs IHcs]; [destruct Hkc|].
    cbn [flat_map]. rewrite length_app. destruct Hkc as [->|Hkc]; [lia|].
    specialize (IHcs Hkc). lia. }
  apply deepest_insert; [| |reflexivity].
  - rewrite Forall_forall. intros kc Hkc. apply list_elem_of_In in Hkc.
    apply depth_plain. specialize (Hsub kc Hkc). lia.
  - rewrite Forall_forall in IH |- *. intros kc Hkc. apply IH; [exact Hkc|].
    apply Hsub, list_elem_of_In, Hkc.
Qed.

(** X14. The index [main] builds: its root is the first word, it holds every
    word of the list once per occurrence, it has the invariant of a BK-tree,
    and its depth is at most the number of words. *)
Theorem build_index (words : list string) :
  dictionary_ok words -> Z.of_nat (length words) <= Int32.max_int ->
  match build u words with
  | None => words = []
  | Some t =>
      Some (value t) = head words /\ Permutation (pivots t) words /\ wf t /\
      1 <= depth t <= Z.of_nat (length words)
  end.
Proof.
  intros Hok Hsize. destruct words as [|w0 ws]; [reflexivity|].
  destruct (build_ok u (w0 :: ws) ltac:(discriminate) Hok) as (t & Hb & Hwf & Hperm).
  rewrite Hb. split; [|split; [exact Hperm|split; [exact Hwf|]]].
  - injection Hb as <-. clear. revert w0. induction ws as [|w ws IH]; intros w0.
    + reflexivity.
    + cbn [fold_left]. cbn [head] in *.
      change (insert u (leaf w0) w) with (Node w0 [(edit_distance u w0 w, leaf w)]).
      generalize [(edit_distance u w0 w, leaf w)]. clear IH. revert w.
      induction ws as [|w' ws IH]; intros w cs; [reflexivity|].
      cbn [fold_left]. rewrite insert_node. apply IH; exact w.
  - rewrite <- (Permutation_length Hperm). apply depth_plain.
    rewrite (Permutation_length Hperm). exact Hsize.
Qed.

(** X15. The indexed query of [main] prints the words of the list within the
    radius, each as often as it occurs in the list; the brute-force scan
    prints the same words the same number of times, in the order of the
    list. *)
Theorem indexed_query_permutes_brute_force (words : list string) (q : string) (n : Z) :
  words <> [] -> dictionary_ok words -> 0 <= n -> query_ok_for words q n ->
  exists out,
    indexed_query u words q n = Some out /\
    brute_force u words q n = matches q n words /\
    Permutation out (brute_force u words q n).
Proof.
  intros Hne Hok Hn Hq.
  destruct (build_ok u words Hne Hok) as (t & Hb & Hwf & Hperm).
  assert (Hq' : query_ok_for (pivots t) q n).
  { intros w Hw. apply Hq, (Permutation_in _ Hperm), Hw. }
  assert (Hbf : brute_force u words q n = matches q n words).
  { apply brute_force_filter.
    - destruct words as [|w0 ws]; [congruence|].
      destruct (Hq w0 (or_introl eq_refl)) as [_ H].
      unfold Int32.in_range, Int32.min_int, Int32.max_int in *. lia.
    - intros w Hw. destruct (Hq w Hw) as [Hw1 Hw2]. split; [unfold fits; lia|exact Hw1]. }
  exists (matches q n (pivots t)). unfold indexed_query. rewrite Hb.
  rewrite (query_run u q n t Hn Hwf (query_ok_distances u q n _ Hn Hq') [] 0).
  split; [reflexivity|]. split; [exact Hbf|].
  rewrite Hbf. apply matches_perm, Hperm.
Qed.

(** X16. For a word list [main] can index, a radius [n >= 0] and lengths
    that keep [d + n] an int, the words the indexed query prints do not
    depend on the order of the word list, up to the order they are printed
    in.  The bound on [n] is needed: see [order_matters_at_max_radius]. *)
Theorem indexed_query_any_order (words words' : list string) (q : string) (n : Z) :
  Permutation words words' ->
  words <> [] -> dictionary_ok words -> 0 <= n -> query_ok_for words q n ->
  exists out out',
    indexed_query u words q n = Some out /\
    indexed_query u words' q n = Some out' /\
    Permutation out out'.
Proof.
  intros Hperm Hne Hok Hn Hq.
  assert (Hne' : words' <> []).
  { intros ->. apply Permutation_nil_r in Hperm. congruence. }
  pose proof (dictionary_ok_perm words words' Hperm Hok) as Hok'.
  assert (Hq' : query_ok_for words' q n).
  { intros w Hw. apply Hq, (Permutation_in _ (Permutation_sym Hperm)), Hw. }
  destruct (build_ok u words Hne Hok) as (t & Hb & Hwf & Hp).
  destruct (build_ok u words' Hne' Hok') as (t' & Hb' & Hwf' & Hp').
  exists (matches q n (pivots t)), (matches q n (pivots t')).
  unfold indexed_query. rewrite Hb, Hb'.
  rewrite (query_run u q n t Hn Hwf), (query_run u q n t' Hn Hwf').
  - split; [reflexivity|]. split; [reflexivity|].
    apply matches_perm. rewrite Hp, Hp'. exact Hperm.
  - apply query_ok_distances; [exact Hn|]. intros w Hw.
    apply Hq', (Permutation_in _ Hp'), Hw.
  - apply query_ok_distances; [exact Hn|]. intros w Hw.
    apply Hq, (Permutation_in _ Hp), Hw.
Qed.

End Tree.

Lemma insert_keeps_wf_witness : wf (insert 0 (Node "a" [(1, leaf "b")]) "ab").
Proof.
  apply (insert_keeps_wf 0 (Node "a" [(1, leaf "b")]) "ab"); [exact two_words_wf|].
  intros v Hv. cbn in Hv.
  destruct Hv as [<-|[<-|[]]];
    (split; [left; discriminate|unfold fits, Int32.max_int; cbn; lia]).
Defined.

Lemma query_prints_in_preorder_witness :
  exists count',
    query 0 (Node "a" [(1, leaf "b")]) "b" 1 ([], 0)
    = Some ([] ++ matches "b" 1 (pivots (Node "a" [(1, leaf "b")])), count').
Proof.
  apply (query_prints_in_preorder 0 (Node "a" [(1, leaf "b")]) "b" 1 [] 0);
    [lia|exact two_words_wf|apply two_words_query; [cbn; lia|discriminate]].
Defined.

(** The search for "a" with the radius 0 in the tree of "a" and "b" enters
    the root alone: the edge labelled 1 is not followed. *)
Example query_prunes (u : Z) :
  visited "a" 0 (Node "a" [(1, leaf "b")]) = 1 /\
  query u (Node "a" [(1, leaf "b")]) "a" 0 ([], 0) = Some (["a"], 1) /\
  visited "b" 1 (Node "a" [(1, leaf "b")]) = 2 /\
  query u (Node "a" [(1, leaf "b")]) "b" 1 ([], 0) = Some (["a"; "b"], 2).
Proof. vm_compute. repeat split. Qed.

Lemma query_count_visited_witness :
  query 0 (Node "a" [(1, leaf "b")]) "a" 0 ([], 0)
  = Some ([] ++ matches "a" 0 (pivots (Node "a" [(1, leaf "b")])),
          0 + visited "a" 0 (Node "a" [(1, leaf "b")])) /\
  1 <= visited "a" 0 (Node "a" [(1, leaf "b")]) /\
  Z.of_nat (length (matches "a" 0 (pivots (Node "a" [(1, leaf "b")]))))
    <= visited "a" 0 (Node "a" [(1, leaf "b")])
    <= Z.of_nat (length (pivots (Node "a" [(1, leaf "b")]))).
Proof.
  apply (query_count_visited 0 (Node "a" [(1, leaf "b")]) "a" 0 [] 0);
    [lia|exact two_words_wf|apply two_words_query; [cbn; lia|discriminate]|lia|
     cbn; unfold Int32.max_int; lia].
Defined.

Lemma query_exact_count_witness :
  exists out count,
    query 0 (Node "a" [(1, leaf "b")]) "b" 0 ([], 0) = Some (out, count) /\
    count <= depth (Node "a" [(1, leaf "b")]).
Proof.
  apply (query_exact_count 0 (Node "a" [(1, leaf "b")]) "b");
    [exact two_words_wf|apply two_words_query; [cbn; lia|discriminate]|
     cbn; unfold Int32.max_int; lia].
Defined.

Lemma insert_then_query_witness :
  exists out count,
    query 0 (insert 0 (Node "a" [(1, leaf "b")]) "ab") "ab" 0 ([], 0) = Some (out, count) /\
    In "ab" out /\ forall x, In x out -> x = "ab".
Proof.
  apply (insert_then_query 0 (Node "a" [(1, leaf "b")]) "ab");
    [exact two_words_wf|discriminate|unfold fits, Int32.max_int; cbn; lia|].
  intros v Hv. cbn in Hv.
  destruct Hv as [<-|[<-|[]]]; unfold fits, Int32.max_int; cbn; lia.
Defined.

Lemma depth_bounds_witness :
  1 <= depth (Node "a" [(1, leaf "b")])
    <= Z.of_nat (length (pivots (Node "a" [(1, leaf "b")]))).
Proof.
  apply (depth_bounds (Node "a" [(1, leaf "b")])). cbn. unfold Int32.max_int. lia.
Defined.

Lemma depth_insert_witness :
  depth (Node "a" [(1, leaf "b")])
    <= depth (insert 0 (Node "a" [(1, leaf "b")]) "ab")
    <= depth (Node "a" [(1, leaf "b")]) + 1.
Proof.
  apply (depth_insert 0 (Node "a" [(1, leaf "b")]) "ab"). cbn. unfold Int32.max_int. lia.
Defined.

Lemma build_index_witness :
  match build 0 ["a"; "b"] with
  | None => ["a"; "b"] = []
  | Some t =>
      Some (value t) = head ["a"; "b"] /\ Permutation (pivots t) ["a"; "b"] /\ wf t /\
      1 <= depth t <= Z.of_nat (length ["a"; "b"])
  end.
Proof.
  apply (build_index 0 ["a"; "b"]);
    [exact (proj1 two_words_ok)|cbn; unfold Int32.max_int; lia].
Defined.

Lemma indexed_query_permutes_brute_force_witness :
  exists out,
    indexed_query 0 ["a"; "b"] "b" 1 = Some out /\
    brute_force 0 ["a"; "b"] "b" 1 = matches "b" 1 ["a"; "b"] /\
    Permutation out (brute_force 0 ["a"; "b"] "b" 1).
Proof.
  apply (indexed_query_permutes_brute_force 0 ["a"; "b"] "b" 1);
    [discriminate|exact (proj1 two_words_ok)|lia|exact (proj2 two_words_ok)].
Defined.

(** With the radius [INT_MAX] the sum [d + n] wraps at a pivot at distance 1
    or more, and the two orders of a list of two words print different
    words. *)
Example order_matters_at_max_radius (u : Z) :
  indexed_query u ["a"; "b"] "b" Int32.max_int = Some ["a"] /\
  indexed_query u ["b"; "a"] "b" Int32.max_int = Some ["b"; "a"].
Proof. vm_compute. split; reflexivity. Qed.

Lemma indexed_query_any_order_witness :
  exists out out',
    indexed_query 0 ["a"; "b"] "b" 1 = Some out /\
    indexed_query 0 ["b"; "a"] "b" 1 = Some out' /\
    Permutation out out'.
Proof.
  apply (indexed_query_any_order 0 ["a"; "b"] ["b"; "a"] "b" 1);
    [apply perm_swap|discriminate|exact (proj1 two_words_ok)|lia|exact (proj2 two_words_ok)].
Defined.

End BkExtras.

Module ProgramExtras.
Import DistanceFacts TreeFacts Int32Facts BkExtras BoundExtras Program.

(** *** read_words *)

Lemma append_cons x (a b : string) : String x a +:+ b = String x (a +:+ b).
Proof. reflexivity. Qed.

Lemma append_assoc (a b c : string) : (a +:+ b) +:+ c = a +:+ (b +:+ c).
Proof. induction a as [|x a IH]; [reflexivity|]. rewrite !append_cons, IH. reflexivity. Qed.

Lemma append_nil_r (a : string) : a +:+ EmptyString = a.
Proof. induction a as [|x a IH]; [reflexivity|]. rewrite append_cons, IH. reflexivity. Qed.

Lemma append_length (a b : string) :
  String.length (a +:+ b) = (String.length a + String.length b)%nat.
Proof.
  induction a as [|x a IH]; [reflexivity|].
  rewrite append_cons. cbn [String.length]. rewrite IH. reflexivity.
Qed.

Lemma spaceless_snoc cur c :
  spaceless cur -> isspace c = false -> spaceless (cur +:+ String c EmptyString).
Proof.
  unfold spaceless. intros Hcur Hc. induction cur as [|x cur IH].
  - constructor; [exact Hc|constructor].
  - rewrite append_cons. cbn [list_ascii_of_string] in *.
    inversion Hcur; subst. constructor; [assumption|]. apply IH. assumption.
Qed.

Lemma snoc_not_empty cur c : cur +:+ String c EmptyString <> EmptyString.
Proof. destruct cur; discriminate. Qed.

Lemma extract_words s :
  forall cur, spaceless cur ->
  Forall (fun w => w <> EmptyString /\ spaceless w) (extract s cur).
Proof.
  induction s as [|c s IH]; intros cur Hcur; cbn [extract].
  - destruct cur; [constructor|]. constructor; [|constructor]. split; [discriminate|exact Hcur].
  - destruct (isspace c) eqn:Hc.
    + destruct cur as [|x cur]; [apply IH; constructor|].
      constructor; [split; [discriminate|exact Hcur]|]. apply IH. constructor.
    + apply IH. apply spaceless_snoc; assumption.
Qed.

Lemma total_cons w l : total (w :: l) = (String.length w + total l)%nat.
Proof. reflexivity. Qed.

Lemma extract_total s :
  forall cur, (total (extract s cur) <= String.length cur + String.length s)%nat.
Proof.
  induction s as [|c s IH]; intros cur; cbn [extract].
  - destruct cur; [cbn; lia|]. rewrite total_cons. cbn. lia.
  - destruct (isspace c).
    + destruct cur as [|x cur].
      * specialize (IH EmptyString). cbn [String.length] in *. lia.
      * specialize (IH EmptyString). rewrite total_cons. cbn [String.length] in *. lia.
    + specialize (IH (cur +:+ String c EmptyString)).
      rewrite append_length in IH. cbn [String.length] in *. lia.
Qed.

Lemma total_in l w : In w l -> (String.length w <= total l)%nat.
Proof.
  induction l as [|x l IH]; intros H; [destruct H|]. rewrite total_cons.
  destruct H as [<-|H]; [lia|]. specialize (IH H). lia.
Qed.

Lemma total_count l :
  Forall (fun w => w <> EmptyString) l -> (length l <= total l)%nat.
Proof.
  induction 1 as [|x l Hx _ IH]; [cbn; lia|]. rewrite total_cons. cbn [length].
  destruct x; [congruence|]. cbn [String.length]. lia.
Qed.

Lemma extract_app w rest :
  spaceless w -> forall cur, extract (w +:+ rest) cur = extract rest (cur +:+ w).
Proof.
  unfold spaceless. induction w as [|c w IH]; intros Hw cur.
  - rewrite append_nil_r. reflexivity.
  - cbn [list_ascii_of_string] in Hw. inversion Hw as [|? ? Hc Hw']; subst.
    rewrite append_cons. cbn [extract]. rewrite Hc, (IH Hw'), append_assoc. reflexivity.
Qed.

Lemma extract_blank g rest :
  blank g -> extract (g +:+ rest) EmptyString = extract rest EmptyString.
Proof.
  unfold blank. induction g as [|c g IH]; intros Hg; [reflexivity|].
  cbn [list_ascii_of_string] in Hg. inversion Hg as [|? ? Hc Hg']; subst.
  rewrite append_cons. cbn [extract]. rewrite Hc. apply IH, Hg'.
Qed.

Lemma tokens_space c s ws :
  isspace c = true -> tokens s ws -> tokens (String c s) ws.
Proof.
  intros Hc H. destruct H as [g Hg|g w rest ws Hg Hw Hsp Hrest Hws].
  - apply tokens_blank. constructor; assumption.
  - rewrite <- append_cons. apply tokens_word; try assumption.
    constructor; assumption.
Qed.

Lemma tokens_extract s ws : tokens s ws -> extract s EmptyString = ws.
Proof.
  induction 1 as [g Hg|g w rest ws Hg Hw Hsp Hrest Hws IH].
  - rewrite <- (append_nil_r g). rewrite extract_blank by assumption. reflexivity.
  - rewrite extract_blank by assumption. rewrite extract_app by assumption.
    change (EmptyString +:+ w) with w.
    destruct rest as [|c rest]; cbn [extract ends_word] in *.
    + subst ws. destruct w; [congruence|reflexivity].
    + rewrite Hrest in *. rewrite IH. destruct w; [congruence|reflexivity].
Qed.

Lemma extract_tokens s :
  forall cur, spaceless cur -> tokens (cur +:+ s) (extract s cur).
Proof.
  induction s as [|c s IH]; intros cur Hcur; cbn [extract].
  - rewrite append_nil_r. destruct cur as [|x cur].
    + apply tokens_blank. constructor.
    + change (String x cur)
        with (EmptyString +:+ String x cur) at 1.
      rewrite <- (append_nil_r (String x cur)) at 1.
      apply tokens_word; [constructor|discriminate|exact Hcur|exact I|].
      apply tokens_blank. constructor.
  - destruct (isspace c) eqn:Hc.
    + specialize (IH EmptyString ltac:(constructor)).
      change (EmptyString +:+ s) with s in IH.
      destruct cur as [|x cur].
      * apply tokens_space; assumption.
      * change (String x cur +:+ String c s)
          with (EmptyString +:+ String x cur +:+ String c s).
        apply tokens_word; [constructor|discriminate|exact Hcur|exact Hc|].
        apply tokens_space; assumption.
    + specialize (IH (cur +:+ String c EmptyString) (spaceless_snoc cur c Hcur Hc)).
      rewrite append_assoc in IH. exact IH.
Qed.

(** X17. [read_words] returns the maximal runs of characters of the file
    that are not white space, in the order of the file, and nothing else:
    a list of words is the list of those runs exactly when it is the list
    [read_words] returns.  A file that cannot be opened gives no word. *)
Theorem read_words_tokens :
  (forall (s : string) (ws : list string),
     tokens s ws <-> read_words (Some s) = ws) /\
  read_words None = [].
Proof.
  split; [|reflexivity]. intros s ws. cbn [read_words]. split.
  - apply tokens_extract.
  - intros <-. apply (extract_tokens s EmptyString). constructor.
Qed.

(** A file with leading white space, several separators between two words
    and no final newline. *)
Example read_words_sample :
  read_words (Some (" to  be" +:+ String "010"%char (String "009"%char "or not")))
  = ["to"; "be"; "or"; "not"].
Proof. reflexivity. Qed.

(** X18. A file with one word per line is read back as the list of its
    words, when none of them is empty or holds white space. *)
Theorem read_words_lines (ws : list string) :
  Forall (fun w => w <> EmptyString /\ spaceless w) ws ->
  read_words (Some (lines_of ws)) = ws.
Proof.
  cbn [read_words]. induction 1 as [|w ws [Hne Hw] _ IH]; [reflexivity|].
  cbn [lines_of fold_right]. rewrite (extract_app w _ Hw).
  change (EmptyString +:+ w) with w. cbn [extract].
  change (isspace "010") with true. cbv iota.
  destruct w as [|c w]; [congruence|]. f_equal. exact IH.
Qed.

Lemma read_words_lines_witness :
  read_words (Some (lines_of ["book"; "cake"])) = ["book"; "cake"].
Proof.
  apply (read_words_lines ["book"; "cake"]).
  repeat constructor; discriminate.
Defined.

(** Non-empty words no longer, together, than an [int] make a dictionary
    the index can be built from; so do the words read from a file. *)
Lemma short_words_ok (l : list string) :
  Forall (fun w => w <> EmptyString) l -> Z.of_nat (total l) < Int32.max_int ->
  dictionary_ok l.
Proof.
  unfold dictionary_ok. induction 1 as [|x l Hx Hl IH]; intros Htot; constructor.
  - rewrite Forall_forall. intros w Hw. apply list_elem_of_In, total_in in Hw.
    rewrite total_cons in Htot. split; [left; exact Hx|]. unfold fits. lia.
  - apply IH. rewrite total_cons in Htot. lia.
Qed.

Lemma read_words_ok s :
  Z.of_nat (String.length s) < Int32.max_int -> dictionary_ok (read_words (Some s)).
Proof.
  intros Hlen. pose proof (extract_total s EmptyString) as Htot.
  apply short_words_ok; [|cbn [String.length] in Htot; unfold read_words; lia].
  eapply Forall_impl; [apply (extract_words s EmptyString); constructor|].
  intros w [H _]. exact H.
Qed.

(** *** dump_dot *)

Lemma dump_dot_node v cs :
  dump_dot (Node v cs) =
  map (fun kc : Z * BkTree => dot_edge v (value (snd kc)) (fst kc)) cs ++
  flat_map (fun kc => dump_dot (snd kc)) cs.
Proof.
  cbn [dump_dot]. f_equal. induction cs as [|[k c] cs IH]; [reflexivity|].
  cbn [flat_map snd]. rewrite <- IH. reflexivity.
Qed.

(** X19. [dump_dot] writes one line per node other than the root. *)
Theorem dump_dot_length (t : BkTree) :
  Datatypes.S (length (dump_dot t)) = length (pivots t).
Proof.
  induction t as [v cs IH] using tree_ind.
  rewrite dump_dot_node, pivots_node, length_app, length_map. cbn [length]. f_equal.
  induction cs as [|[k c] cs IHcs]; [reflexivity|].
  inversion IH as [|? ? Hc Hcs]; subst. cbn [snd] in Hc.
  cbn [flat_map snd length]. rewrite !length_app, <- Hc, <- (IHcs Hcs). lia.
Qed.

(** X20. On a well-formed tree every line of [dump_dot] joins two words of the
    tree and carries their distance as its label. *)
Theorem dump_dot_labels (t : BkTree) :
  wf t ->
  Forall (fun line => exists v w, In v (pivots t) /\ In w (pivots t) /\
                        line = dot_edge v w (distance v w)) (dump_dot t).
Proof.
  induction t as [v cs IH] using tree_ind. intros Hwf.
  inversion Hwf as [? ? _ Hall]; subst.
  rewrite dump_dot_node. apply Forall_app. split.
  - rewrite Forall_forall. intros line Hline.
    apply list_elem_of_In, in_map_iff in Hline. destruct Hline as (kc & <- & Hkc).
    rewrite Forall_forall in Hall.
    destruct (Hall kc ltac:(apply list_elem_of_In; exact Hkc)) as [_ Hk].
    exists v, (value (snd kc)). rewrite (Hk _ (value_in_pivots _)).
    split; [rewrite pivots_node; left; reflexivity|]. split; [|reflexivity].
    rewrite pivots_node. right. apply in_flat_map.
    exists kc. split; [exact Hkc|apply value_in_pivots].
  - rewrite Forall_forall. intros line Hline.
    apply list_elem_of_In, in_flat_map in Hline. destruct Hline as (kc & Hkc & Hline).
    rewrite Forall_forall in IH, Hall. apply list_elem_of_In in Hkc.
    destruct (Hall kc Hkc) as [Hwfc _]. specialize (IH kc Hkc Hwfc).
    rewrite Forall_forall in IH.
    destruct (IH line ltac:(apply list_elem_of_In; exact Hline)) as (a & b & Ha & Hb & ->).
    assert (Hsub : forall x, In x (pivots (snd kc)) -> In x (pivots (Node v cs))).
    { intros x Hx. rewrite pivots_node. right. apply in_flat_map.
      exists kc. split; [apply list_elem_of_In; exact Hkc|exact Hx]. }
    exists a, b. auto.
Qed.

Lemma dump_dot_labels_witness :
  Forall (fun line => exists v w,
            In v (pivots (Node "a" [(1, leaf "b")])) /\
            In w (pivots (Node "a" [(1, leaf "b")])) /\
            line = dot_edge v w (distance v w))
         (dump_dot (Node "a" [(1, leaf "b")])).
Proof. apply (dump_dot_labels (Node "a" [(1, leaf "b")])). exact two_words_wf. Defined.

(** *** main *)

Lemma parse_options_suffix (k : nat) :
  forall o args, (length args <= k)%nat ->
  match parse_options o args with
  | NeedsWordfile => exists opts, args = opts ++ ["-w"]
  | Parsed o' rest =>
      (exists opts, args = opts ++ rest) /\
      match rest with [] => True | a :: _ => is_option a = false end
  end.
Proof.
  induction k as [|k IH]; intros o args Hlen.
  - destruct args; [|cbn in Hlen; lia]. cbn. split; [exists []; reflexivity|exact I].
  - destruct args as [|a rest]; [cbn; split; [exists []; reflexivity|exact I]|].
    cbn [length] in Hlen. cbn [parse_options].
    destruct (is_option a) eqn:Ha; cbn [negb].
    2:{ split; [exists []; reflexivity|exact Ha]. }
    assert (Hskip : forall o0,
              match parse_options o0 rest with
              | NeedsWordfile => exists opts, a :: rest = opts ++ ["-w"]
              | Parsed o' rest' =>
                  (exists opts, a :: rest = opts ++ rest') /\
                  match rest' with [] => True | b :: _ => is_option b = false end
              end).
    { intros o0. specialize (IH o0 rest ltac:(lia)).
      destruct (parse_options o0 rest) as [|o' rest'].
      - destruct IH as (opts & ->). exists (a :: opts). reflexivity.
      - destruct IH as [(opts & ->) Hhd]. split; [exists (a :: opts); reflexivity|exact Hhd]. }
    destruct (String.eqb a "-b"); [apply Hskip|].
    destruct (String.eqb a "-dot"); [apply Hskip|].
    destruct (String.eqb_spec a "-w") as [->|_]; [|apply Hskip].
    destruct rest as [|f rest']; [exists []; reflexivity|].
    cbn [length] in Hlen.
    specialize (IH (MkOptions (use_index o) (dump_dot_mode o) f) rest' ltac:(lia)).
    destruct (parse_options _ rest') as [|o' rest''].
    + destruct IH as (opts & ->). exists ("-w" :: f :: opts). reflexivity.
    + destruct IH as [(opts & ->) Hhd].
      split; [exists ("-w" :: f :: opts); reflexivity|exact Hhd].
Qed.

(** X21. The option loop consumes a prefix of the arguments: what it leaves is
    the rest of the command line, and starts with an argument that does not
    begin with a dash; the query word is the last argument of the command
    line.  The loop fails only on a command line that ends in [-w]. *)
Theorem parse_options_rest (o : Options) (args : list string) :
  match parse_options o args with
  | NeedsWordfile => exists opts, args = opts ++ ["-w"]
  | Parsed o' rest =>
      (exists opts, args = opts ++ rest) /\
      match rest with [] => True | a :: _ => is_option a = false end /\
      (rest <> [] -> query_word rest = List.last args EmptyString)
  end.
Proof.
  pose proof (parse_options_suffix (length args) o args ltac:(lia)) as H.
  destruct (parse_options o args) as [|o' rest]; [exact H|].
  destruct H as [(opts & ->) Hhd]. split; [exists opts; reflexivity|]. split; [exact Hhd|].
  intros Hne. unfold query_word. clear Hhd.
  induction opts as [|x opts IH]; [reflexivity|].
  cbn [app]. rewrite IH. destruct (opts ++ rest) eqn:E; [|reflexivity].
  apply app_eq_nil in E. destruct E as [_ E]. congruence.
Qed.

Lemma parse_options_b o args :
  parse_options o ("-b" :: args) =
  parse_options (MkOptions false (dump_dot_mode o) (wordfile o)) args.
Proof. reflexivity. Qed.

(** Once [-b] has been seen the index is off for good. *)
Lemma parse_options_brute_force (k : nat) :
  forall o args, (length args <= k)%nat ->
  parse_options (MkOptions false (dump_dot_mode o) (wordfile o)) args =
  match parse_options o args with
  | NeedsWordfile => NeedsWordfile
  | Parsed o' rest => Parsed (MkOptions false (dump_dot_mode o') (wordfile o')) rest
  end.
Proof.
  induction k as [|k IH]; intros o args Hlen.
  - destruct args; [reflexivity|cbn in Hlen; lia].
  - destruct args as [|a rest]; [reflexivity|].
    cbn [length] in Hlen. cbn [parse_options use_index dump_dot_mode wordfile].
    destruct (is_option a); cbn [negb]; [|reflexivity].
    destruct (String.eqb a "-b").
    { rewrite <- (IH (MkOptions false (dump_dot_mode o) (wordfile o)) rest ltac:(lia)).
      reflexivity. }
    destruct (String.eqb a "-dot").
    { rewrite <- (IH (MkOptions (use_index o) true (wordfile o)) rest ltac:(lia)).
      reflexivity. }
    destruct (String.eqb a "-w").
    { destruct rest as [|f rest']; [reflexivity|]. cbn [length] in Hlen.
      rewrite <- (IH (MkOptions (use_index o) (dump_dot_mode o) f) rest' ltac:(lia)).
      reflexivity. }
    apply IH. lia.
Qed.

Section Main.

Variable u : Z.
Variable atoi : string -> Z.
Variable file : string -> option string.
Variables construction_ms query_ms : Z.

Local Abbreviation run := (main u atoi file construction_ms query_ms).

(** X22. A run that fails writes nothing to [cout], a run that succeeds nothing
    to [cerr]; there is no other exit status than 0 and [EXIT_FAILURE]. *)
Theorem main_streams (args : list string) (r : Run) :
  run args = Some r ->
  (status r = 0 /\ err r = []) \/ (status r = EXIT_FAILURE /\ out r = []).
Proof.
  unfold main.
  destruct (parse_options _ args) as [|o rest]; [intros [= <-]; right; split; reflexivity|].
  destruct ((length rest <? 1)%nat || (2 <? length rest)%nat);
    [intros [= <-]; right; split; reflexivity|].
  destruct (read_words (file (wordfile o))) as [|w0 ws];
    [intros [= <-]; right; split; reflexivity|].
  destruct (use_index o); [|intros [= <-]; left; split; reflexivity].
  destruct (dump_dot_mode o); [intros [= <-]; left; split; reflexivity|].
  destruct (query u _ _ _ _) as [[matched count]|]; [|discriminate].
  intros [= <-]. left. split; reflexivity.
Qed.


(** X23. The two modes of [main] on the same command line, with and without
    [-b] in front: the indexed run prints, between its lines of statistics,
    the words of the file within the radius of the query word; the
    brute-force run prints the same words, each as often, in the order of
    the file. *)
Theorem main_modes_agree (args rest : list string) (f content : string) :
  parse_options (MkOptions true false "/usr/share/dict/words") args
    = Parsed (MkOptions true false f) rest ->
  (1 <= length rest <= 2)%nat ->
  file f = Some content ->
  read_words (Some content) <> [] ->
  0 <= radius atoi rest ->
  Z.of_nat (String.length content) + Z.of_nat (String.length (query_word rest))
    + radius atoi rest < Int32.max_int ->
  let words := read_words (Some content) in
  let found := matches (query_word rest) (radius atoi rest) words in
  exists index matched count,
    build u words = Some index /\
    run args =
      Some (MkRun 0 (construction_line construction_ms ::
                     depth_line index (length words) ::
                     matched ++
                     [query_line query_ms; queried_line count (length words)]) []) /\
    run ("-b" :: args) = Some (MkRun 0 (found ++ [brute_force_line query_ms]) []) /\
    Permutation matched found.
Proof.
  intros Hparse Hrest Hfile Hne Hn Hlen words found. subst found.
  assert (Hok : dictionary_ok words).
  { apply read_words_ok. pose proof (Nat2Z.is_nonneg (String.length (query_word rest))). lia. }
  assert (Htot : (total words <= String.length content)%nat)
    by apply (extract_total content EmptyString).
  assert (Htok : Forall (fun w => w <> EmptyString /\ spaceless w) words)
    by (apply extract_words; constructor).
  assert (Hread : read_words (Some content) = words) by reflexivity.
  rewrite Hread in Hne. clearbody words.
  assert (Hq : query_ok_for words (query_word rest) (radius atoi rest)).
  { intros w Hw. rewrite Forall_forall in Htok.
    destruct (Htok w ltac:(apply list_elem_of_In; exact Hw)) as [Hw0 _].
    split; [left; exact Hw0|]. apply total_in in Hw. lia. }
  destruct (build_ok u words Hne Hok) as (index & Hb & Hwf & Hp).
  assert (Hq' : query_ok_for (pivots index) (query_word rest) (radius atoi rest)).
  { intros w Hw. apply Hq, (Permutation_in _ Hp), Hw. }
  pose proof (query_run u _ _ index Hn Hwf (query_ok_distances u _ _ _ Hn Hq') [] 0)
    as Hquery.
  cbn [app] in Hquery.
  assert (Hbf : brute_force u words (query_word rest) (radius atoi rest)
                = matches (query_word rest) (radius atoi rest) words).
  { apply brute_force_filter.
    - unfold Int32.in_range, Int32.min_int, Int32.max_int in *.
      pose proof (Nat2Z.is_nonneg (String.length content)).
      pose proof (Nat2Z.is_nonneg (String.length (query_word rest))). lia.
    - intros w Hw. destruct (Hq w Hw) as [Hw1 Hw2]. split; [unfold fits; lia|exact Hw1]. }
  pose proof (matches_perm (query_word rest) (radius atoi rest) _ _ Hp) as Hperm.
  rewrite <- Hbf in Hperm.
  set (matched := matches (query_word rest) (radius atoi rest) (pivots index)) in *.
  set (count := Int32.wrap (0 + visited (query_word rest) (radius atoi rest) index)) in *.
  rewrite Hb.
  exists index, matched, count. split; [reflexivity|].
  assert (Hsize : ((length rest <? 1)%nat || (2 <? length rest)%nat) = false).
  { destruct (Nat.ltb_spec (length rest) 1), (Nat.ltb_spec 2 (length rest)); cbn; lia. }
  rewrite <- Hbf. split; [|split; [|exact Hperm]].
  - unfold main. rewrite Hparse, Hsize. cbn [wordfile use_index dump_dot_mode].
    rewrite Hfile, Hread. destruct words as [|w0 ws]; [congruence|].
    cbn [build] in Hb. injection Hb as Hb. rewrite Hb, Hquery. reflexivity.
  - unfold main. rewrite parse_options_b. cbn [dump_dot_mode wordfile].
    pose proof (parse_options_brute_force (length args)
                  (MkOptions true false "/usr/share/dict/words") args ltac:(lia)) as Hoff.
    cbn [dump_dot_mode wordfile] in Hoff. rewrite Hoff, Hparse, Hsize.
    cbn [wordfile use_index dump_dot_mode].
    rewrite Hfile, Hread. destruct words as [|w0 ws]; [congruence|]. reflexivity.
Qed.

End Main.

Lemma main_streams_witness :
  (status (MkRun EXIT_FAILURE [] [usage]) = 0 /\ err (MkRun EXIT_FAILURE [] [usage]) = []) \/
  (status (MkRun EXIT_FAILURE [] [usage]) = EXIT_FAILURE /\
   out (MkRun EXIT_FAILURE [] [usage]) = []).
Proof.
  apply (main_streams 0 (fun _ => 0) (fun _ => None) 0 0 [] (MkRun EXIT_FAILURE [] [usage])).
  reflexivity.
Defined.

Lemma main_modes_agree_witness :
  let words := read_words (Some "book cart care") in
  let found := matches (query_word ["1"; "cart"]) (radius (fun _ => 1) ["1"; "cart"]) words in
  exists index matched count,
    build 0 words = Some index /\
    main 0 (fun _ => 1) (fun _ => Some "book cart care") 0 0 ["1"; "cart"] =
      Some (MkRun 0 (construction_line 0 ::
                     depth_line index (length words) ::
                     matched ++
                     [query_line 0; queried_line count (length words)]) []) /\
    main 0 (fun _ => 1) (fun _ => Some "book cart care") 0 0 ("-b" :: ["1"; "cart"]) =
      Some (MkRun 0 (found ++ [brute_force_line 0]) []) /\
    Permutation matched found.
Proof.
  apply (main_modes_agree 0 (fun _ => 1) (fun _ => Some "book cart care") 0 0
           ["1"; "cart"] ["1"; "cart"] "/usr/share/dict/words" "book cart care").
  - reflexivity.
  - cbn. lia.
  - reflexivity.
  - vm_compute. discriminate.
  - cbn. lia.
  - unfold Int32.max_int. cbn. lia.
Defined.

End ProgramExtras.

Module CornersExtras.
Import Corners CornersFacts CornersSpec Int32Facts.

(** *** maxhough *)

(** X24. [maxhough] is the largest cell of the map, or 1 when no cell is above
    1. *)
Theorem max_cell_spec (R : Z) (m : list Z) :
  0 <= R -> R * kNumAngles <= Int32.max_int ->
  Z.of_nat (length m) = R * kNumAngles ->
  exists maxhough,
    max_cell R m = Some maxhough /\ 1 <= maxhough /\
    (forall v, In v m -> v <= maxhough) /\
    (maxhough = 1 \/ In maxhough m).
Proof.
  intros HR Hmax Hlen. unfold max_cell.
  rewrite wrap_small by (unfold Int32.min_int, Int32.max_int, kNumAngles in *; lia).
  pose (P := fun (i : Z) (st : option Z) =>
     exists M, st = Some M /\ 1 <= M /\
       (forall j, (j < Z.to_nat i)%nat -> nth j m 0 <= M) /\ (M = 1 \/ In M m)).
  assert (HP : P (R * kNumAngles - 1 + 1)
    (for_range 0 (R * kNumAngles - 1)
       (fun i st =>
          match st with
          | None => None
          | Some maxhough =>
              match cell_read m i with
              | None => None
              | Some v => Some (if v >? maxhough then v else maxhough)
              end
          end) (Some 1))).
  { apply for_range_inv; [unfold kNumAngles; lia| |].
    - exists 1. split; [reflexivity|]. split; [lia|]. split; [intros j Hj; lia|left; reflexivity].
    - intros i st Hi (M & -> & HM & Hle & Hin). unfold cell_read.
      destruct (Z.leb_spec 0 i); [|lia].
      destruct (m !! Z.to_nat i) as [v|] eqn:Hv; [|apply lookup_ge_None in Hv; lia].
      assert (Hnth : nth (Z.to_nat i) m 0 = v) by (rewrite nth_lookup, Hv; reflexivity).
      exists (if v >? M then v else M). split; [reflexivity|].
      destruct (Z.gtb_spec v M); (split; [lia|split]).
      + intros j Hj. destruct (decide (j = Z.to_nat i)) as [->|Hne]; [lia|].
        specialize (Hle j ltac:(lia)). lia.
      + right. apply list_elem_of_In. eapply list_elem_of_lookup_2. exact Hv.
      + intros j Hj. destruct (decide (j = Z.to_nat i)) as [->|Hne]; [lia|].
        apply Hle. lia.
      + exact Hin. }
  destruct HP as (M & HM & H1 & Hle & Hin). exists M. split; [exact HM|].
  split; [exact H1|]. split; [|exact Hin].
  intros v Hv. apply In_nth with (d := 0) in Hv. destruct Hv as (j & Hj & <-).
  apply Hle. lia.
Qed.

(** On the sample map the loop runs over 720 cells and ends at 9, the
    content of the cell (1, 25). *)
Example max_cell_sample : max_cell 2 sample_map = Some 9.
Proof. reflexivity. Qed.

Lemma max_cell_spec_witness :
  exists maxhough,
    max_cell 2 sample_map = Some maxhough /\ 1 <= maxhough /\
    (forall v, In v sample_map -> v <= maxhough) /\
    (maxhough = 1 \/ In maxhough sample_map).
Proof.
  apply (max_cell_spec 2 sample_map);
    [lia|unfold Int32.max_int, kNumAngles; lia|reflexivity].
Defined.

(** *** An image without foreground *)

Section Blank.

Variable F : Type.
Variable radius_index : Z -> Z -> Z -> Z -> Z -> Z.
Variable deg_of : Z -> F.
Variable radius_of : Z -> Z -> Z -> F.
Variables near fgt : F -> F -> bool.
Variables (fcos fsin fabs : F -> F) (fmul fsub fdiv : F -> F -> F).
Variable flt : F -> F -> bool.
Variable eps : F.

Variable g : graymap.
Hypothesis Hw : 0 <= gw g.
Hypothesis Hh : 0 <= gh g.
Hypothesis Hdata : Z.of_nat (length (gdata g)) = gw g * gh g.
Hypothesis Hsize : gw g * gh g <= Int32.max_int.
Hypothesis Hmap : gh g * kNumAngles <= Int32.max_int.
Hypothesis Hblank : Forall (fun p => p = 255) (gdata g).

Lemma blank_sample x y : 0 <= x < gw g -> 0 <= y < gh g -> sample g x y = Some 255.
Proof.
  intros Hx Hy. destruct (sample_at g Hw Hdata Hsize x y Hx Hy) as (p & -> & Hp).
  rewrite Forall_forall in Hblank. rewrite (Hblank p); [reflexivity|].
  eapply list_elem_of_lookup_2. exact Hp.
Qed.

Lemma blank_accumulate : accumulate radius_index g = Some (calloc_map (gh g)).
Proof.
  unfold accumulate.
  apply (for_range_inv (fun _ st => st = Some (calloc_map (gh g)))); [lia|reflexivity|].
  intros y st Hy ->.
  apply (for_range_inv (fun _ st => st = Some (calloc_map (gh g)))); [lia|reflexivity|].
  intros x st Hx ->. unfold vote_pixel. rewrite blank_sample by lia. reflexivity.
Qed.

Lemma calloc_length : Z.of_nat (length (calloc_map (gh g))) = gh g * kNumAngles.
Proof.
  unfold calloc_map. rewrite length_replicate.
  rewrite wrap_small by (unfold Int32.min_int, Int32.max_int, kNumAngles in *; lia).
  unfold kNumAngles. lia.
Qed.

Lemma calloc_read i :
  0 <= i < gh g * kNumAngles -> cell_read (calloc_map (gh g)) i = Some 0.
Proof.
  intros Hi. unfold cell_read. destruct (Z.leb_spec 0 i); [|lia].
  unfold calloc_map. apply lookup_replicate. split; [reflexivity|].
  rewrite wrap_small by (unfold Int32.min_int, Int32.max_int, kNumAngles in *; lia). lia.
Qed.

Lemma blank_max_cell : max_cell (gh g) (calloc_map (gh g)) = Some 1.
Proof.
  unfold max_cell.
  rewrite wrap_small by (unfold Int32.min_int, Int32.max_int, kNumAngles in *; lia).
  replace (Some 1) with (Some 1 : option Z) by reflexivity.
  apply (for_range_inv (fun _ st => st = Some 1)); [unfold kNumAngles; lia|reflexivity|].
  intros i st Hi ->. rewrite calloc_read by lia. reflexivity.
Qed.

Lemma blank_peak_scan lines :
  peak_scan F deg_of radius_of near fgt g 1 (calloc_map (gh g)) lines
  = Some (calloc_map (gh g), lines).
Proof.
  unfold peak_scan.
  apply (for_range_inv (fun _ st => st = Some (calloc_map (gh g), lines)));
    [lia|reflexivity|].
  intros ri st Hri ->.
  apply (for_range_inv (fun _ st => st = Some (calloc_map (gh g), lines)));
    [unfold kNumAngles; lia|reflexivity|].
  intros ai st Hai ->. unfold scan_cell.
  rewrite cell_index by (unfold kNumAngles, Int32.max_int in *; nia).
  rewrite calloc_read by (unfold kNumAngles in *; nia). reflexivity.
Qed.

End Blank.

(** X25. On an image without a foreground sample no cell gets a vote and no
    peak is found: the four lines [find_corners] intersects are the
    never-written content of [lines], and so is its result. *)
Theorem find_corners_blank (F : Type) (radius_index : Z -> Z -> Z -> Z -> Z -> Z)
    (deg_of : Z -> F) (radius_of : Z -> Z -> Z -> F) (near fgt : F -> F -> bool)
    (fcos fsin fabs : F -> F) (fmul fsub fdiv : F -> F -> F) (flt : F -> F -> bool)
    (eps : F) (g : graymap) (lines : LineArray F) (corners : CornerArray F) :
  0 <= gw g -> 0 <= gh g ->
  Z.of_nat (length (gdata g)) = gw g * gh g ->
  gw g * gh g <= Int32.max_int ->
  gh g * kNumAngles <= Int32.max_int ->
  Forall (fun p => p = 255) (gdata g) ->
  find_corners F radius_index deg_of radius_of near fgt fcos fsin fabs fmul fsub fdiv
    flt eps g lines corners
  = Some (corners_of_lines F fcos fsin fabs fmul fsub fdiv flt eps lines corners).
Proof.
  intros Hw Hh Hdata Hsize Hmap Hblank. unfold find_corners.
  destruct lines as [[[l0 l1] l2] l3].
  rewrite blank_accumulate, blank_max_cell, blank_peak_scan by assumption.
  reflexivity.
Qed.

Lemma find_corners_blank_witness :
  find_corners Z (fun _ _ _ _ _ => 0) (fun besta => besta) (fun _ _ bestr => bestr)
    (near_bins (fun _ _ => false)) Z.gtb (fun a => a) (fun a => a) Z.abs Z.mul Z.sub
    Z.div Z.ltb 1
    (Graymap 2 1 [255; 255]) ((0, 1), (0, 2), (90, 1), (90, 2))
    ((0, 0), (0, 0), (0, 0), (0, 0))
  = Some (corners_of_lines Z (fun a => a) (fun a => a) Z.abs Z.mul Z.sub Z.div Z.ltb 1
            ((0, 1), (0, 2), (90, 1), (90, 2)) ((0, 0), (0, 0), (0, 0), (0, 0))).
Proof.
  apply (find_corners_blank Z (fun _ _ _ _ _ => 0) (fun besta => besta)
           (fun _ _ bestr => bestr) (near_bins (fun _ _ => false)) Z.gtb
           (fun a => a) (fun a => a) Z.abs
           Z.mul Z.sub Z.div Z.ltb 1 (Graymap 2 1 [255; 255]));
    cbn [gw gh gdata];
    first [reflexivity | unfold Int32.max_int, kNumAngles; lia | repeat constructor].
Defined.

(** *** The cells of the accumulator *)

Lemma sum_range_bounds f lo hi :
  lo <= hi + 1 -> (forall i, lo <= i <= hi -> 0 <= f i <= 1) ->
  0 <= sum_range f lo hi <= hi + 1 - lo.
Proof.
  intros Hle Hf.
  apply (sum_range_ind (fun j acc => 0 <= acc <= j - lo)); [exact Hle|lia|].
  intros j acc Hj Hacc. specialize (Hf j Hj). lia.
Qed.

Lemma cell_insert m ri a ri' a' v :
  0 <= ri -> 0 <= a < kNumAngles -> 0 <= ri' -> 0 <= a' < kNumAngles ->
  ri * kNumAngles + a < Z.of_nat (length m) ->
  cell (<[Z.to_nat (ri * kNumAngles + a) := v]> m) ri' a' =
  if (ri' =? ri) && (a' =? a) then v else cell m ri' a'.
Proof.
  intros Hri Ha Hri' Ha' Hlen. unfold cell, kNumAngles in *. rewrite !nth_lookup.
  destruct (Z.eqb_spec ri' ri) as [->|Hr]; [destruct (Z.eqb_spec a' a) as [->|Hn]|];
    cbn [andb].
  - rewrite list_lookup_insert_eq by lia. reflexivity.
  - rewrite list_lookup_insert_ne by lia. reflexivity.
  - rewrite list_lookup_insert_ne by lia. reflexivity.
Qed.

Lemma vote_cell rix g x y a m R :
  Z.of_nat (length m) = R * kNumAngles -> R * kNumAngles <= Int32.max_int ->
  0 <= radius_bin rix g x y a < R -> 0 <= a < kNumAngles ->
  0 <= cell m (radius_bin rix g x y a) a < Int32.max_int ->
  vote rix g x y a m =
  Some (<[Z.to_nat (radius_bin rix g x y a * kNumAngles + a) :=
            cell m (radius_bin rix g x y a) a + 1]> m).
Proof.
  intros Hlen HR Hri Ha Hv. unfold vote, cell in *.
  unfold kNumAngles, Int32.max_int in *.
  set (ri := radius_bin rix g x y a) in *.
  assert (Hidx : 0 <= ri * 360 + a < R * 360) by nia.
  rewrite (Z.mod_small (ri * 360 + a)) by lia.
  unfold cell_read, cell_write.
  destruct (Z.leb_spec 0 (ri * 360 + a)) as [_|]; [|lia].
  destruct (Z.ltb_spec (ri * 360 + a) (Z.of_nat (length m))) as [_|]; [|lia].
  rewrite nth_lookup in *.
  destruct (m !! Z.to_nat (ri * 360 + a)) as [v|] eqn:E.
  2:{ apply lookup_ge_None in E. lia. }
  cbn [andb default from_option Datatypes.id] in *. rewrite Z.mod_small by lia. reflexivity.
Qed.

Section Cells.

Variable rix : Z -> Z -> Z -> Z -> Z -> Z.
Variable g : graymap.
Hypothesis Hw : 0 <= gw g.
Hypothesis Hh : 0 <= gh g.
Hypothesis Hdata : Z.of_nat (length (gdata g)) = gw g * gh g.
Hypothesis Hsize : gw g * gh g <= Int32.max_int.
Hypothesis Hmap : gh g * kNumAngles <= Int32.max_int.
Hypothesis Hbin : forall x y a p,
  0 <= x < gw g -> 0 <= y < gh g -> 0 <= a < kNumAngles ->
  sample g x y = Some p -> p <> 255 -> 0 <= radius_bin rix g x y a < gh g.

(** The state after the samples of linear index below [p]. *)
Local Abbreviation counted := (fun (p : Z) (st : option (list Z)) =>
  exists m, st = Some m /\ Z.of_nat (length m) = gh g * kNumAngles /\
    forall ri a, 0 <= ri < gh g -> 0 <= a < kNumAngles ->
      cell m ri a = votes_for rix g ri a p).

Lemma votes_for_bounds ri a p : 0 <= p -> 0 <= votes_for rix g ri a p <= p.
Proof.
  intros Hp. unfold votes_for.
  pose proof (sum_range_bounds
    (fun i => if nth (Z.to_nat i) (gdata g) 255 =? 255 then 0
              else if radius_bin rix g (i mod gw g) (i / gw g) a =? ri then 1 else 0)
    0 (p - 1) ltac:(lia)) as H.
  cbv beta in H. replace (p - 1 + 1 - 0) with p in H by lia. apply H.
  intros i _. destruct (_ =? 255); [lia|]. destruct (_ =? ri); lia.
Qed.

Lemma votes_for_next ri a x y v :
  0 <= x < gw g -> 0 <= y < gh g ->
  gdata g !! Z.to_nat (y * gw g + x) = Some v ->
  votes_for rix g ri a (y * gw g + x + 1) =
  votes_for rix g ri a (y * gw g + x) +
  (if v =? 255 then 0 else if radius_bin rix g x y a =? ri then 1 else 0).
Proof.
  intros Hx Hy Hv. unfold votes_for.
  assert (0 <= y * gw g) by nia.
  replace (y * gw g + x + 1 - 1) with (y * gw g + x) by lia.
  rewrite sum_range_last by lia. f_equal.
  rewrite nth_lookup, Hv. cbn [default from_option Datatypes.id].
  replace ((y * gw g + x) mod gw g) with x
    by (rewrite Z.add_comm, Z_mod_plus_full, Z.mod_small by lia; reflexivity).
  replace ((y * gw g + x) / gw g) with y
    by (rewrite Z.add_comm, Z_div_plus_full, Z.div_small by lia; lia).
  reflexivity.
Qed.

Lemma vote_pixel_counted x y st :
  0 <= x < gw g -> 0 <= y < gh g ->
  counted (y * gw g + x) st -> counted (y * gw g + x + 1) (vote_pixel rix g y x st).
Proof.
  intros Hx Hy (m & -> & Hlen & Hcells).
  destruct (sample_at g Hw Hdata Hsize x y Hx Hy) as (v & Hv & Hlk).
  assert (Hp : 0 <= y * gw g + x < gw g * gh g) by nia.
  unfold vote_pixel. rewrite Hv.
  destruct (Z.eqb_spec v 255) as [E|E].
  - exists m. split; [reflexivity|]. split; [exact Hlen|].
    intros ri a Hri Ha. rewrite (votes_for_next ri a x y v Hx Hy Hlk), Hcells by assumption.
    subst v. cbn. lia.
  - pose (P := fun (a : Z) (st : option (list Z)) =>
      exists m', st = Some m' /\ Z.of_nat (length m') = gh g * kNumAngles /\
        forall ri a', 0 <= ri < gh g -> 0 <= a' < kNumAngles ->
          cell m' ri a' = votes_for rix g ri a' (y * gw g + x) +
            (if (a' <? a) && (radius_bin rix g x y a' =? ri) then 1 else 0)).
    assert (HP : P (kNumAngles - 1 + 1)
      (for_range 0 (kNumAngles - 1)
         (fun a st => match st with Some m => vote rix g x y a m | None => None end)
         (Some m))).
    { apply for_range_inv; [unfold kNumAngles; lia| |].
      - exists m. split; [reflexivity|]. split; [exact Hlen|].
        intros ri a' Hri Ha'. rewrite Hcells by assumption.
        destruct (Z.ltb_spec a' 0); [lia|]. cbn [andb]. lia.
      - intros a st Ha (m1 & -> & Hlen1 & Hc1).
        assert (Ha' : 0 <= a < kNumAngles) by lia.
        pose proof (Hbin x y a v Hx Hy Ha' Hv E) as Hri.
        pose proof (votes_for_bounds (radius_bin rix g x y a) a (y * gw g + x) ltac:(lia)).
        assert (Hcur : cell m1 (radius_bin rix g x y a) a
                       = votes_for rix g (radius_bin rix g x y a) a (y * gw g + x)).
        { rewrite Hc1 by assumption. destruct (Z.ltb_spec a a); [lia|]. cbn [andb]. lia. }
        rewrite (vote_cell rix g x y a m1 (gh g) Hlen1 Hmap Hri Ha')
          by (rewrite Hcur; unfold Int32.max_int in *; lia).
        eexists. split; [reflexivity|]. split; [rewrite length_insert; exact Hlen1|].
        intros ri a1 Hri1 Ha1.
        rewrite cell_insert by (unfold kNumAngles in *; nia || lia).
        destruct (Z.eqb_spec ri (radius_bin rix g x y a)) as [->|Hr];
          destruct (Z.eqb_spec a1 a) as [->|Hn]; cbn [andb].
        + rewrite Hcur. destruct (Z.ltb_spec a (a + 1)); [|lia].
          rewrite Z.eqb_refl. cbn [andb]. reflexivity.
        + rewrite Hc1 by assumption.
          destruct (Z.ltb_spec a1 a), (Z.ltb_spec a1 (a + 1)); try lia; reflexivity.
        + rewrite Hc1 by assumption.
          destruct (Z.ltb_spec a a), (Z.ltb_spec a (a + 1)); try lia. cbn [andb].
          destruct (Z.eqb_spec (radius_bin rix g x y a) ri); [congruence|reflexivity].
        + rewrite Hc1 by assumption.
          destruct (Z.ltb_spec a1 a), (Z.ltb_spec a1 (a + 1)); try lia; reflexivity. }
    destruct HP as (m' & -> & Hlen' & Hc'). exists m'. split; [reflexivity|].
    split; [exact Hlen'|]. intros ri a Hri Ha.
    rewrite (votes_for_next ri a x y v Hx Hy Hlk), Hc' by assumption.
    destruct (Z.ltb_spec a (kNumAngles - 1 + 1)); [|lia]. cbn [andb].
    destruct (Z.eqb_spec v 255); [contradiction|]. reflexivity.
Qed.

Lemma accumulate_counted : counted (gw g * gh g) (accumulate rix g).
Proof.
  unfold accumulate.
  replace (gw g * gh g) with ((gh g - 1 + 1) * gw g) by lia.
  apply (for_range_inv (fun y st => counted (y * gw g) st)); [lia| |].
  - exists (calloc_map (gh g)). split; [reflexivity|].
    split; [apply calloc_length; assumption|].
    intros ri a Hri Ha. cbn [Z.mul]. unfold votes_for.
    rewrite sum_range_empty by lia. unfold cell, calloc_map. rewrite nth_lookup.
    destruct (replicate _ 0 !! _) as [v|] eqn:E; cbn; [|reflexivity].
    apply lookup_replicate in E. lia.
  - intros y st Hy Hinv.
    replace ((y + 1) * gw g) with (y * gw g + (gw g - 1 + 1)) by lia.
    apply (for_range_inv (fun x st => counted (y * gw g + x) st)); [lia| |].
    + rewrite Z.add_0_r. exact Hinv.
    + intros x t Hx Ht. rewrite Z.add_assoc.
      apply vote_pixel_counted; [lia|lia|exact Ht].
Qed.

End Cells.

(** X26. The accumulator after the voting loops, when the sizes are [int]s and
    the radius bin of every vote lies in the map: the cell of radius bin
    [ri] and angle bin [a] holds the number of foreground samples whose
    radius bin at [a] is [ri]. *)
Theorem hough_cells (rix : Z -> Z -> Z -> Z -> Z -> Z) (g : graymap) :
  0 <= gw g -> 0 <= gh g ->
  Z.of_nat (length (gdata g)) = gw g * gh g ->
  gw g * gh g <= Int32.max_int ->
  gh g * kNumAngles <= Int32.max_int ->
  (forall x y a p,
     0 <= x < gw g -> 0 <= y < gh g -> 0 <= a < kNumAngles ->
     sample g x y = Some p -> p <> 255 -> 0 <= radius_bin rix g x y a < gh g) ->
  exists m, accumulate rix g = Some m /\
    Z.of_nat (length m) = gh g * kNumAngles /\
    forall ri a, 0 <= ri < gh g -> 0 <= a < kNumAngles ->
      cell m ri a = votes_for rix g ri a (gw g * gh g).
Proof.
  intros Hw Hh Hdata Hsize Hmap Hbin.
  exact (accumulate_counted rix g Hw Hh Hdata Hsize Hmap Hbin).
Qed.

Lemma hough_cells_witness :
  exists m, accumulate (fun _ _ _ _ _ => 0) (Graymap 2 1 [0; 255]) = Some m /\
    Z.of_nat (length m) = 1 * kNumAngles /\
    forall ri a, 0 <= ri < 1 -> 0 <= a < kNumAngles ->
      cell m ri a = votes_for (fun _ _ _ _ _ => 0) (Graymap 2 1 [0; 255]) ri a (2 * 1).
Proof.
  apply (hough_cells (fun _ _ _ _ _ => 0) (Graymap 2 1 [0; 255]));
    cbn [gw gh gdata];
    first [reflexivity | unfold Int32.max_int, kNumAngles; lia
          | intros; unfold radius_bin; lia].
Defined.

(** X27. Under the conditions of X26 every angle bin holds, summed over the
    radius bins, exactly one vote per foreground sample of the image: no
    vote is lost or counted twice, no cell exceeds the number of foreground
    samples, and no counter wraps. *)
Theorem hough_votes_per_angle (rix : Z -> Z -> Z -> Z -> Z -> Z) (g : graymap) :
  0 <= gw g -> 0 <= gh g ->
  Z.of_nat (length (gdata g)) = gw g * gh g ->
  gw g * gh g <= Int32.max_int ->
  gh g * kNumAngles <= Int32.max_int ->
  (forall x y a p,
     0 <= x < gw g -> 0 <= y < gh g -> 0 <= a < kNumAngles ->
     sample g x y = Some p -> p <> 255 -> 0 <= radius_bin rix g x y a < gh g) ->
  exists m, accumulate rix g = Some m /\
    (forall a, 0 <= a < kNumAngles -> column_sum m (gh g) a = foreground g) /\
    (forall ri a, 0 <= ri < gh g -> 0 <= a < kNumAngles ->
       0 <= cell m ri a <= foreground g) /\
    foreground g < 2 ^ 32.
Proof.
  intros Hw Hh Hdata Hsize Hmap Hbin.
  destruct (hough_column_sums rix g Hw Hh Hdata Hsize Hmap Hbin)
    as (m & Hm & Hsum & Hcell & Hfg & Hwh).
  exists m. split; [exact Hm|]. split; [exact Hsum|]. split; [exact Hcell|lia].
Qed.

Lemma hough_votes_per_angle_witness :
  exists m, accumulate (fun _ _ _ _ _ => 0) (Graymap 2 1 [0; 255]) = Some m /\
    (forall a, 0 <= a < kNumAngles -> column_sum m 1 a = foreground (Graymap 2 1 [0; 255])) /\
    (forall ri a, 0 <= ri < 1 -> 0 <= a < kNumAngles ->
       0 <= cell m ri a <= foreground (Graymap 2 1 [0; 255])) /\
    foreground (Graymap 2 1 [0; 255]) < 2 ^ 32.
Proof.
  apply (hough_votes_per_angle (fun _ _ _ _ _ => 0) (Graymap 2 1 [0; 255]));
    cbn [gw gh gdata];
    first [reflexivity | unfold Int32.max_int, kNumAngles; lia
          | intros; unfold radius_bin; lia].
Defined.

(** *** The suppression sweep, away from the last fifteen angle bins *)

Section Sweep.

Variables R ri ai : Z.
Hypothesis Hri : 0 <= ri < R.
Hypothesis HR : R * kNumAngles <= Int32.max_int.
Hypothesis Hai : 0 <= ai.
Hypothesis Hhigh : ai + k / 2 < kNumAngles.
Variable m : list Z.
Hypothesis Hlen : Z.of_nat (length m) = R * kNumAngles.

(** The counter [ad] whose wrapped index is [aii]. *)
Let un (aii : Z) : Z := if aii <=? ai + 15 then aii else aii - 360.

(** The cells the sweep has been through when it is about to visit
    [(rd, ad)]. *)
Let swept (rd ad rd' aii' : Z) : Prop :=
  ai - 15 <= un aii' <= ai + 15 /\ Z.max (ri - 15) 0 <= rd' /\
  (rd' < rd \/ (rd' = rd /\ un aii' < ad)).

Let sweeping (rd ad : Z) (st : option Sweep) : Prop :=
  exists mc best besta bestr,
    st = Some (mc, (best, besta, bestr)) /\
    Z.of_nat (length mc) = R * kNumAngles /\
    (forall rd' aii', 0 <= rd' < R -> 0 <= aii' < kNumAngles ->
       (swept rd ad rd' aii' -> cell mc rd' aii' = 0 /\ cell m rd' aii' <= best) /\
       (~ swept rd ad rd' aii' -> cell mc rd' aii' = cell m rd' aii')) /\
    0 <= bestr < R /\ 0 <= besta < kNumAngles /\
    in_window ri ai bestr besta = true /\
    cell m bestr besta = best /\ cell m ri ai <= best.

Lemma in_window_iff rd aii :
  0 <= aii < kNumAngles ->
  in_window ri ai rd aii = true <->
  Z.abs (rd - ri) <= 15 /\ ai - 15 <= un aii <= ai + 15.
Proof.
  intros Haii. unfold in_window, angle_gap, un, k, kNumAngles in *.
  change (31 / 2) with 15 in *.
  rewrite andb_true_iff, !Z.leb_le. destruct (Z.leb_spec aii (ai + 15)); lia.
Qed.

Lemma wrap_angle_un ad :
  ai - 15 <= ad <= ai + 15 ->
  0 <= wrap_angle ad < kNumAngles /\ un (wrap_angle ad) = ad /\
  forall aii, 0 <= aii < kNumAngles -> un aii = ad -> aii = wrap_angle ad.
Proof.
  intros Had. unfold wrap_angle, un, k, kNumAngles in *. change (31 / 2) with 15 in *.
  destruct (Z.ltb_spec ad 0).
  - rewrite add_small by (unfold Int32.min_int, Int32.max_int; lia).
    destruct (Z.leb_spec (ad + 360) (ai + 15)); [lia|].
    split; [lia|]. split; [lia|]. intros aii Haii.
    destruct (Z.leb_spec aii (ai + 15)); lia.
  - destruct (Z.leb_spec ad (ai + 15)); [|lia].
    split; [lia|]. split; [lia|]. intros aii Haii.
    destruct (Z.leb_spec aii (ai + 15)); lia.
Qed.

Lemma sweep_step rd ad st :
  Z.max (ri - 15) 0 <= rd <= Z.min (ri + 15) (R - 1) -> ai - 15 <= ad <= ai + 15 ->
  sweeping rd ad st -> sweeping rd (ad + 1) (sweep_cell rd ad st).
Proof.
  intros Hrd Had (mc & best & besta & bestr & -> & Hl & Hcells & Hbr & Hba & Hwin & Hbest & Hseed).
  destruct (wrap_angle_un ad Had) as (Haii & Hun & Hinj).
  unfold sweep_cell. set (aii := wrap_angle ad) in *.
  assert (Hidx : 0 <= rd * kNumAngles + aii < R * kNumAngles)
    by (unfold kNumAngles in *; nia).
  rewrite cell_index by lia.
  unfold cell_read, cell_write.
  destruct (Z.leb_spec 0 (rd * kNumAngles + aii)) as [_|]; [|lia].
  destruct (Z.ltb_spec (rd * kNumAngles + aii) (Z.of_nat (length mc))) as [_|]; [|lia].
  destruct (mc !! Z.to_nat (rd * kNumAngles + aii)) as [v|] eqn:Hv.
  2:{ apply lookup_ge_None in Hv. lia. }
  cbn [andb].
  assert (Hcur : cell m rd aii = v).
  { destruct (Hcells rd aii ltac:(lia) Haii) as [_ Hkeep].
    rewrite <- Hkeep; [unfold cell; rewrite nth_lookup, Hv; reflexivity|].
    unfold swept. rewrite Hun. lia. }
  assert (Hnew : forall rd' aii', 0 <= rd' < R -> 0 <= aii' < kNumAngles ->
            swept rd (ad + 1) rd' aii' <->
            swept rd ad rd' aii' \/ (rd' = rd /\ aii' = aii)).
  { intros rd' aii' Hrd' Haii'. unfold swept. split.
    - intros (Hu & Hr & [Hlt|[-> Hlt]]); [left; auto|].
      destruct (Z.eq_dec (un aii') ad) as [E|E].
      + right. split; [reflexivity|apply Hinj; assumption].
      + left. split; [exact Hu|]. split; [exact Hr|]. right. split; [reflexivity|lia].
    - intros [(Hu & Hr & [Hlt|[-> Hlt]])|[-> ->]].
      + split; [exact Hu|]. split; [exact Hr|]. left. exact Hlt.
      + split; [exact Hu|]. split; [exact Hr|]. right. split; [reflexivity|lia].
      + rewrite Hun. split; [lia|]. split; [lia|]. right. split; [reflexivity|lia]. }
  assert (Hcell' : forall rd' aii', 0 <= rd' < R -> 0 <= aii' < kNumAngles ->
            cell (<[Z.to_nat (rd * kNumAngles + aii) := 0]> mc) rd' aii' =
            if (rd' =? rd) && (aii' =? aii) then 0 else cell mc rd' aii').
  { intros rd' aii' Hrd' Haii'. apply cell_insert; lia. }
  exists (<[Z.to_nat (rd * kNumAngles + aii) := 0]> mc).
  destruct (Z.gtb_spec v best) as [Hgt|Hle].
  - exists v, aii, rd. split; [reflexivity|]. split; [rewrite length_insert; exact Hl|].
    split; [|split; [lia|split; [exact Haii|split; [|split; [exact Hcur|lia]]]]].
    + intros rd' aii' Hrd' Haii'. rewrite Hcell' by assumption.
      rewrite (Hnew rd' aii' Hrd' Haii').
      destruct (Hcells rd' aii' Hrd' Haii') as [Hs Hk].
      destruct (Z.eqb_spec rd' rd) as [->|Hr]; [destruct (Z.eqb_spec aii' aii) as [->|Ha]|];
        cbn [andb].
      * split; [intros _; split; [reflexivity|lia]|]. intros H. exfalso. apply H. right. auto.
      * split; [intros [H|[_ H]]; [destruct (Hs H); split; [assumption|lia]|contradiction]|].
        intros H. apply Hk. intros H'. apply H. left. exact H'.
      * split; [intros [H|[H _]]; [destruct (Hs H); split; [assumption|lia]|contradiction]|].
        intros H. apply Hk. intros H'. apply H. left. exact H'.
    + apply in_window_iff; [exact Haii|]. rewrite Hun. lia.
  - exists best, besta, bestr. split; [reflexivity|]. split; [rewrite length_insert; exact Hl|].
    split; [|auto 10].
    intros rd' aii' Hrd' Haii'. rewrite Hcell' by assumption.
    rewrite (Hnew rd' aii' Hrd' Haii').
    destruct (Hcells rd' aii' Hrd' Haii') as [Hs Hk].
    destruct (Z.eqb_spec rd' rd) as [->|Hr]; [destruct (Z.eqb_spec aii' aii) as [->|Ha]|];
      cbn [andb].
    * split; [intros _; split; [reflexivity|lia]|]. intros H. exfalso. apply H. right. auto.
    * split; [intros [H|[_ H]]; [exact (Hs H)|contradiction]|].
      intros H. apply Hk. intros H'. apply H. left. exact H'.
    * split; [intros [H|[H _]]; [exact (Hs H)|contradiction]|].
      intros H. apply Hk. intros H'. apply H. left. exact H'.
Qed.

Lemma sweep_row rd st :
  Z.max (ri - 15) 0 <= rd <= Z.min (ri + 15) (R - 1) ->
  sweeping rd (ai - 15) st ->
  sweeping (rd + 1) (ai - 15) (for_range (ai - 15) (ai + 15) (sweep_cell rd) st).
Proof.
  intros Hrd Hst.
  assert (H : sweeping rd (ai + 15 + 1) (for_range (ai - 15) (ai + 15) (sweep_cell rd) st)).
  { apply (for_range_inv (sweeping rd)); [lia|exact Hst|].
    intros ad t Had Ht. apply sweep_step; [exact Hrd|lia|exact Ht]. }
  destruct H as (mc & best & besta & bestr & -> & Hl & Hcells & Hrest).
  exists mc, best, besta, bestr. split; [reflexivity|]. split; [exact Hl|].
  split; [|exact Hrest].
  intros rd' aii' Hrd' Haii'. destruct (Hcells rd' aii' Hrd' Haii') as [Hs Hk].
  assert (Heq : swept (rd + 1) (ai - 15) rd' aii' <-> swept rd (ai + 15 + 1) rd' aii').
  { unfold swept. lia. }
  rewrite Heq. split; assumption.
Qed.

Lemma sweep_all :
  exists m' best besta bestr,
    nms_sweep R ri ai m = Some (m', (best, besta, bestr)) /\
    sweeping (Z.min (ri + 15) (R - 1) + 1) (ai - 15) (Some (m', (best, besta, bestr))).
Proof.
  unfold nms_sweep.
  destruct (sweep_rows R ri ai Hri HR Hai Hhigh) as (-> & -> & -> & ->).
  assert (Hidx : 0 <= ri * kNumAngles + ai < R * kNumAngles)
    by (unfold k, kNumAngles in *; change (31 / 2) with 15 in *; nia).
  rewrite cell_index by lia.
  unfold cell_read. destruct (Z.leb_spec 0 (ri * kNumAngles + ai)) as [_|]; [|lia].
  destruct (m !! Z.to_nat (ri * kNumAngles + ai)) as [seed|] eqn:Hseed.
  2:{ apply lookup_ge_None in Hseed. lia. }
  assert (H : sweeping (Z.min (ri + 15) (R - 1) + 1) (ai - 15)
     (for_range (Z.max (ri - 15) 0) (Z.min (ri + 15) (R - 1))
        (fun rd st => for_range (ai - 15) (ai + 15) (sweep_cell rd) st)
        (Some (m, (seed, ai, ri))))).
  { apply (for_range_inv (fun rd st => sweeping rd (ai - 15) st)); [lia| |].
    - exists m, seed, ai, ri. split; [reflexivity|]. split; [exact Hlen|].
      assert (Hc : cell m ri ai = seed)
        by (unfold cell; rewrite nth_lookup, Hseed; reflexivity).
      split; [|split; [lia|split; [unfold k, kNumAngles in *; change (31 / 2) with 15 in *; lia|split; [|split; [exact Hc|lia]]]]].
      + intros rd' aii' _ _. split; [|reflexivity]. unfold swept. lia.
      + apply in_window_iff; [unfold k, kNumAngles in *; change (31 / 2) with 15 in *; lia|].
        unfold un. destruct (Z.leb_spec ai (ai + 15)); lia.
    - intros rd st Hrd Hst. apply sweep_row; assumption. }
  destruct H as (mc & best & besta & bestr & E & Hrest).
  exists mc, best, besta, bestr. split; [exact E|].
  exists mc, best, besta, bestr. split; [reflexivity|exact Hrest].
Qed.

End Sweep.

(** X28. The sweep around a seed [(ri, ai)] whose angle bin is not among the
    last fifteen.  It stays in the map; afterwards the cells within 15 of
    the seed (the angle taken cyclically) are 0 and the others are as
    before; [best] is the largest value those cells held, and
    [(bestr, besta)] is one of them that held it. *)
Theorem nms_sweep_spec (R ri ai : Z) (m : list Z) :
  0 <= ri < R -> R * kNumAngles <= Int32.max_int ->
  0 <= ai -> ai + k / 2 < kNumAngles ->
  Z.of_nat (length m) = R * kNumAngles ->
  exists m' best besta bestr,
    nms_sweep R ri ai m = Some (m', (best, besta, bestr)) /\
    length m' = length m /\
    (forall rd aii, 0 <= rd < R -> 0 <= aii < kNumAngles ->
       cell m' rd aii = if in_window ri ai rd aii then 0 else cell m rd aii) /\
    0 <= bestr < R /\ 0 <= besta < kNumAngles /\
    in_window ri ai bestr besta = true /\ cell m bestr besta = best /\
    (forall rd aii, 0 <= rd < R -> 0 <= aii < kNumAngles ->
       in_window ri ai rd aii = true -> cell m rd aii <= best).
Proof.
  intros Hri HR Hai Hhigh Hlen.
  destruct (sweep_all R ri ai Hri HR Hai Hhigh m Hlen)
    as (m' & best & besta & bestr & Hrun & (mc & b & ba & br & E & Hl & Hcells & Hbr & Hba & Hwin & Hbest & Hseed)).
  injection E as <- <- <- <-.
  exists m', best, besta, bestr. split; [exact Hrun|]. split; [lia|].
  assert (Hsw : forall rd aii, 0 <= rd < R -> 0 <= aii < kNumAngles ->
            in_window ri ai rd aii = true <->
            (ai - 15 <= (if aii <=? ai + 15 then aii else aii - 360) <= ai + 15 /\
             Z.max (ri - 15) 0 <= rd /\
             (rd < Z.min (ri + 15) (R - 1) + 1 \/
              rd = Z.min (ri + 15) (R - 1) + 1 /\
              (if aii <=? ai + 15 then aii else aii - 360) < ai - 15))).
  { intros rd aii Hrd Haii. rewrite in_window_iff by assumption. lia. }
  split; [|split; [exact Hbr|split; [exact Hba|split; [exact Hwin|split; [exact Hbest|]]]]].
  - intros rd aii Hrd Haii. destruct (Hcells rd aii Hrd Haii) as [Hs Hk].
    destruct (in_window ri ai rd aii) eqn:Hw.
    + apply Hs. apply (Hsw rd aii Hrd Haii). exact Hw.
    + apply Hk. intros H. apply (Hsw rd aii Hrd Haii) in H. congruence.
  - intros rd aii Hrd Haii Hw. destruct (Hcells rd aii Hrd Haii) as [Hs _].
    apply Hs. apply (Hsw rd aii Hrd Haii). exact Hw.
Qed.

(** The sweep around the seed (0, 20) of the sample map: the seed holds 3,
    the largest cell of the window is the 9 in (1, 25), and the sweep clears
    both; the 4 in (0, 100) is outside the window and stays. *)
Example nms_sweep_sample :
  nms_sweep 2 0 20 sample_map
  = Some (<[100%nat := 4]> (replicate 720 0), (9, 25, 1)) /\
  in_window 0 20 1 25 = true /\ in_window 0 20 0 100 = false.
Proof. vm_compute. repeat split. Qed.

Lemma nms_sweep_spec_witness :
  exists m' best besta bestr,
    nms_sweep 2 0 20 sample_map = Some (m', (best, besta, bestr)) /\
    length m' = length sample_map /\
    (forall rd aii, 0 <= rd < 2 -> 0 <= aii < kNumAngles ->
       cell m' rd aii = if in_window 0 20 rd aii then 0 else cell sample_map rd aii) /\
    0 <= bestr < 2 /\ 0 <= besta < kNumAngles /\
    in_window 0 20 bestr besta = true /\ cell sample_map bestr besta = best /\
    (forall rd aii, 0 <= rd < 2 -> 0 <= aii < kNumAngles ->
       in_window 0 20 rd aii = true -> cell sample_map rd aii <= best).
Proof.
  apply (nms_sweep_spec 2 0 20 sample_map);
    first [reflexivity | unfold Int32.max_int, kNumAngles; lia].
Defined.

(** *** Line pairing over a scan *)

Section Pairing.

Variable F : Type.
Variables near fgt : F -> F -> bool.

Local Abbreviation pair := (pair_lines near fgt).

Lemma paired_step p seen l2 l3 st x :
  paired near p seen l2 l3 st ->
  paired near p (seen ++ [x]) l2 l3 (line_pair near fgt st (fst x) (snd x)).
Proof.
  intros [H0 Hl0 Hl1 Hun Hset]. unfold line_pair. rewrite H0, Hl0. cbn [negb].
  assert (Hx : (fst x, snd x) = x) by (destruct x; reflexivity).
  destruct (near (fst x) (fst p)) eqn:Hnear.
  - assert (Hkeep : paired near p (seen ++ [x]) l2 l3 st).
    { constructor; auto.
      - destruct Hl1 as [E|[Hin Hn]]; [left; exact E|right].
        split; [apply in_or_app; left; exact Hin|exact Hn].
      - intros Hs. destruct (Hun Hs) as (E2 & E3 & Hall). split; [exact E2|].
        split; [exact E3|]. apply Forall_app. split; [exact Hall|].
        constructor; [exact Hnear|constructor].
      - intros Hs. destruct (Hset Hs) as (A & B & C & D).
        repeat split; auto; apply in_or_app; left; assumption. }
    destruct (fgt (snd x) (snd (line1 st))); [|exact Hkeep].
    destruct Hkeep as [K0 Kl0 Kl1 Kun Kset].
    constructor; cbn [set0 set1 line0 line1 line2 line3]; auto.
    right. rewrite Hx. split; [apply in_or_app; right; left; reflexivity|exact Hnear].
  - destruct (set1 st) eqn:Hs1; cbn [negb].
    + destruct (Hset eq_refl) as (A & B & C & D).
      destruct (fgt (snd x) (snd (line3 st))).
      * constructor; cbn [set0 set1 line0 line1 line2 line3]; auto.
        -- destruct Hl1 as [E|[Hin Hn]]; [left; exact E|right].
           split; [apply in_or_app; left; exact Hin|exact Hn].
        -- try rewrite Hs1; discriminate.
        -- intros _. rewrite Hx.
           repeat split; auto; apply in_or_app; [left; assumption|right; left; reflexivity].
      * constructor; auto.
        -- destruct Hl1 as [E|[Hin Hn]]; [left; exact E|right].
           split; [apply in_or_app; left; exact Hin|exact Hn].
        -- try rewrite Hs1; discriminate.
        -- intros _. repeat split; auto; apply in_or_app; left; assumption.
    + constructor; cbn [set0 set1 line0 line1 line2 line3]; auto.
      * destruct Hl1 as [E|[Hin Hn]]; [left; exact E|right].
        split; [apply in_or_app; left; exact Hin|exact Hn].
      * discriminate.
      * intros _. rewrite Hx.
        repeat split; auto; apply in_or_app; right; left; reflexivity.
Qed.

Lemma paired_run p l2 l3 rest :
  forall seen st, paired near p seen l2 l3 st -> paired near p (seen ++ rest) l2 l3 (pair st rest).
Proof.
  induction rest as [|x rest IH]; intros seen st Hst; cbn [pair_lines fold_left].
  - rewrite app_nil_r. exact Hst.
  - replace (seen ++ x :: rest) with ((seen ++ [x]) ++ rest)
      by (rewrite <- app_assoc; reflexivity).
    apply IH, paired_step, Hst.
Qed.

End Pairing.

(** X29. The lines a scan leaves, from the peaks in the order they are found.
    Slot 0 holds the first peak as its inner line for good; its outer line
    is the first peak or a later peak parallel to it.  Slot 1 is set exactly
    when some peak is not parallel to the first one; its two lines are
    peaks that are not parallel to the first one, and until it is set
    [lines[2]] and [lines[3]] keep what they held before. *)
Theorem pair_lines_families {F : Type} (near fgt : F -> F -> bool)
    (l0 l1 l2 l3 p : F * F) (rest : list (F * F)) :
  let st := pair_lines near fgt (MkLineSet l0 l1 l2 l3 false false) (p :: rest) in
  set0 st = true /\ line0 st = p /\
  (line1 st = p \/ (In (line1 st) rest /\ near (fst (line1 st)) (fst p) = true)) /\
  (set1 st = false <-> Forall (fun x => near (fst x) (fst p) = true) rest) /\
  (set1 st = false -> line2 st = l2 /\ line3 st = l3) /\
  (set1 st = true ->
     In (line2 st) rest /\ near (fst (line2 st)) (fst p) = false /\
     In (line3 st) rest /\ near (fst (line3 st)) (fst p) = false).
Proof.
  intros st.
  assert (H : paired near p ([] ++ rest) l2 l3 st).
  { subst st. cbn [pair_lines fold_left]. apply paired_run.
    unfold line_pair. cbn [set0 negb line2 line3 set1 fst snd].
    replace (fst p, snd p) with p by (destruct p; reflexivity).
    constructor; cbn [set0 set1 line0 line1 line2 line3]; auto. discriminate. }
  cbn [app] in H. destruct H as [H0 Hl0 Hl1 Hun Hset].
  split; [exact H0|]. split; [exact Hl0|]. split; [exact Hl1|]. split; [|split].
  - split; [intros Hs; apply (Hun Hs)|].
    intros Hall. destruct (set1 st) eqn:Hs; [|reflexivity].
    destruct (Hset eq_refl) as (Hin & Hn & _). rewrite Forall_forall in Hall.
    rewrite (Hall (line2 st)) in Hn by (apply list_elem_of_In; exact Hin). discriminate.
  - intros Hs. destruct (Hun Hs) as (A & B & _). split; assumption.
  - exact Hset.
Qed.

Section Outer.

Variable F : Type.
Variables near fgt : F -> F -> bool.
Hypothesis fgt_asym : forall a b, fgt a b = true -> fgt b a = false.
Hypothesis fgt_trans : forall a b c, fgt a b = false -> fgt b c = false -> fgt a c = false.

Lemma fgt_irrefl a : fgt a a = false.
Proof. destruct (fgt a a) eqn:E; [|reflexivity]. rewrite (fgt_asym a a E) in E. discriminate. Qed.

Lemma outermost_step p seen st x :
  outermost near fgt p seen st ->
  outermost near fgt p (seen ++ [x]) (line_pair near fgt st (fst x) (snd x)).
Proof.
  intros [H0 Hl0 Hp Hfirst Hsecond]. unfold line_pair. rewrite H0, Hl0. cbn [negb].
  destruct (near (fst x) (fst p)) eqn:Hnear.
  - destruct (fgt (snd x) (snd (line1 st))) eqn:Hgt.
    + pose proof (fgt_asym _ _ Hgt) as Hle.
      constructor; cbn [set0 set1 line0 line1 line2 line3 fst snd]; auto.
      * apply (fgt_trans _ (snd (line1 st))); assumption.
      * intros y Hy Hn. apply in_app_or in Hy. destruct Hy as [Hy|[<-|[]]].
        -- apply (fgt_trans _ (snd (line1 st))); [apply Hfirst; assumption|exact Hle].
        -- apply fgt_irrefl.
      * intros y Hy Hn. apply in_app_or in Hy. destruct Hy as [Hy|[<-|[]]].
        -- apply Hsecond; assumption.
        -- congruence.
    + constructor; auto.
      * intros y Hy Hn. apply in_app_or in Hy. destruct Hy as [Hy|[<-|[]]].
        -- apply Hfirst; assumption.
        -- exact Hgt.
      * intros y Hy Hn. apply in_app_or in Hy. destruct Hy as [Hy|[<-|[]]].
        -- apply Hsecond; assumption.
        -- congruence.
  - destruct (set1 st) eqn:Hs1; cbn [negb].
    + destruct (fgt (snd x) (snd (line3 st))) eqn:Hgt.
      * pose proof (fgt_asym _ _ Hgt) as Hle.
        constructor; cbn [set0 set1 line0 line1 line2 line3 fst snd]; auto.
        -- intros y Hy Hn. apply in_app_or in Hy. destruct Hy as [Hy|[<-|[]]].
           ++ apply Hfirst; assumption.
           ++ congruence.
        -- intros y Hy Hn. split; [reflexivity|].
           apply in_app_or in Hy. destruct Hy as [Hy|[<-|[]]].
           ++ apply (fgt_trans _ (snd (line3 st))); [apply Hsecond; assumption|exact Hle].
           ++ apply fgt_irrefl.
      * constructor; auto.
        -- intros y Hy Hn. apply in_app_or in Hy. destruct Hy as [Hy|[<-|[]]].
           ++ apply Hfirst; assumption.
           ++ congruence.
        -- intros y Hy Hn. split; [exact Hs1|].
           apply in_app_or in Hy. destruct Hy as [Hy|[<-|[]]].
           ++ apply Hsecond; assumption.
           ++ exact Hgt.
    + constructor; cbn [set0 set1 line0 line1 line2 line3 fst snd]; auto.
      * intros y Hy Hn. apply in_app_or in Hy. destruct Hy as [Hy|[<-|[]]].
        -- apply Hfirst; assumption.
        -- congruence.
      * intros y Hy Hn. split; [reflexivity|].
        apply in_app_or in Hy. destruct Hy as [Hy|[<-|[]]].
        -- destruct (Hsecond y Hy Hn) as [E _]. congruence.
        -- apply fgt_irrefl.
Qed.

Lemma outermost_run p rest :
  forall seen st, outermost near fgt p seen st ->
  outermost near fgt p (seen ++ rest) (pair_lines near fgt st rest).
Proof.
  induction rest as [|x rest IH]; intros seen st Hst; cbn [pair_lines fold_left].
  - rewrite app_nil_r. exact Hst.
  - replace (seen ++ x :: rest) with ((seen ++ [x]) ++ rest)
      by (rewrite <- app_assoc; reflexivity).
    apply IH, outermost_step, Hst.
Qed.

End Outer.

(** X30. When [>] orders the radii, the outer line of each slot has the
    largest radius of its family: slot 0 among the first peak and the peaks
    parallel to it, slot 1 among all the other peaks. *)
Theorem pair_lines_outer {F : Type} (near fgt : F -> F -> bool)
    (l0 l1 l2 l3 p : F * F) (rest : list (F * F)) :
  (forall a b, fgt a b = true -> fgt b a = false) ->
  (forall a b c, fgt a b = false -> fgt b c = false -> fgt a c = false) ->
  let st := pair_lines near fgt (MkLineSet l0 l1 l2 l3 false false) (p :: rest) in
  fgt (snd p) (snd (line1 st)) = false /\
  (forall x, In x rest -> near (fst x) (fst p) = true ->
     fgt (snd x) (snd (line1 st)) = false) /\
  (forall x, In x rest -> near (fst x) (fst p) = false ->
     set1 st = true /\ fgt (snd x) (snd (line3 st)) = false).
Proof.
  intros Hasym Htrans st.
  assert (H : outermost near fgt p ([] ++ rest) st).
  { subst st. cbn [pair_lines fold_left]. apply outermost_run; [assumption..|].
    unfold line_pair. cbn [set0 negb line2 line3 set1 fst snd].
    replace (fst p, snd p) with p by (destruct p; reflexivity).
    constructor; cbn [set0 set1 line0 line1 line2 line3];
      first [reflexivity | apply fgt_irrefl; exact Hasym | intros y []]. }
  cbn [app] in H. destruct H as [_ _ Hp Hfirst Hsecond]. auto.
Qed.

Lemma pair_lines_outer_witness :
  (forall a b, (a >? b) = true -> (b >? a) = false) /\
  (forall tie,
     let st := pair_lines (near_bins tie) Z.gtb
                 (MkLineSet (0, 0) (0, 0) (0, 0) (0, 0) false false)
                 ((0, 10) :: [(2, 30); (180, 5); (181, 40)]) in
     (snd (0, 10) >? snd (line1 st)) = false /\
     (forall x, In x [(2, 30); (180, 5); (181, 40)] ->
        near_bins tie (fst x) (fst (0, 10)) = true ->
        (snd x >? snd (line1 st)) = false) /\
     (forall x, In x [(2, 30); (180, 5); (181, 40)] ->
        near_bins tie (fst x) (fst (0, 10)) = false ->
        set1 st = true /\ (snd x >? snd (line3 st)) = false)).
Proof.
  assert (Hasym : forall a b, (a >? b) = true -> (b >? a) = false).
  { intros a b. rewrite !Z.gtb_ltb, Z.ltb_lt, Z.ltb_ge. lia. }
  split; [exact Hasym|]. intros tie.
  apply (pair_lines_outer (near_bins tie) Z.gtb (0, 0) (0, 0) (0, 0) (0, 0) (0, 10)
           [(2, 30); (180, 5); (181, 40)]).
  - exact Hasym.
  - intros a b c. rewrite !Z.gtb_ltb, !Z.ltb_ge. lia.
Defined.

End CornersExtras.
